(** * The segmented Raft changelog of [src/Coordination/Changelog.cpp]

    A shallow embedding of the changelog writer, the changelog reader and
    the [Changelog] manager, followed by the properties of the
    specification that are stated about them.

    Conventions.
    - [size_t] values are integers in [0, 2^64); every arithmetic
      operation the source performs on them is written with [wrap64].
    - A file is the list of its bytes and the directory is a finite map
      from paths to files, kept inside the state of the changelog.
    - [std::map<size_t, V>] is a [gmap Z V]; the order of iteration is the
      ascending order of the keys ([keys_asc]).
    - A member function is a computation in the monad [M]: it returns a
      value and a new state, throws an exception with the state reached, or
      has no defined behaviour (dereference of a null or end pointer). *)

From stdpp Require Import gmap strings list fin_maps pretty sorting.
From Stdlib Require Import ZArith Lia Ascii.

Local Open Scope Z_scope.

(** ** Machine integers and bytes *)

Definition wrap64 (z : Z) : Z := z mod 2 ^ 64.

Definition byte_of_Z (z : Z) : Byte.byte :=
  default Byte.x00 (Byte.of_N (Z.to_N (z mod 256))).

Definition Z_of_byte (b : Byte.byte) : Z := Z.of_N (Byte.to_N b).

(** [writeIntBinary] / [readIntBinary] on an integer of [w] bytes:
    little-endian, the low [w] bytes of the value. *)
Fixpoint le_encode (w : nat) (z : Z) : list Byte.byte :=
  match w with
  | O => []
  | S w' => byte_of_Z z :: le_encode w' (z / 256)
  end.

Fixpoint le_decode (bs : list Byte.byte) : Z :=
  match bs with
  | [] => 0
  | b :: bs' => Z_of_byte b + 256 * le_decode bs'
  end.

(** ** Ordered maps: iteration, [lower_bound], [upper_bound] *)

Definition keys_asc {V} (m : gmap Z V) : list Z :=
  merge_sort Z.le (elements (dom m)).

Definition items_asc {V} (m : gmap Z V) : list (Z * V) :=
  omap (λ k, pair k <$> m !! k) (keys_asc m).

(** The keys from [lower_bound(k)] (resp. [upper_bound(k)]) to [end()]. *)
Definition keys_from {V} (m : gmap Z V) (k : Z) : list Z :=
  filter (λ x, k ≤ x) (keys_asc m).

Definition keys_after {V} (m : gmap Z V) (k : Z) : list Z :=
  filter (λ x, k < x) (keys_asc m).

(** An iterator is the key it points to, [None] for [end()]. *)
Definition lower_bound {V} (m : gmap Z V) (k : Z) : option Z :=
  head (keys_from m k).

(** [std::prev(it)]: the greatest key below the one [it] points to;
    [None] when [it] is [begin()]. *)
Definition prev_key {V} (m : gmap Z V) (it : Z) : option Z :=
  last (filter (λ x, x < it) (keys_asc m)).

Definition rbegin {V} (m : gmap Z V) : option Z := last (keys_asc m).

Definition map_is_empty {V} (m : gmap Z V) : bool :=
  bool_decide (size m = 0%nat).

(** ** Data *)

Inductive ErrorCode : Set :=
| CHECKSUM_DOESNT_MATCH
| CORRUPTED_DATA
| UNKNOWN_FORMAT_VERSION
| LOGICAL_ERROR
| FILE_DOESNT_EXIST
| CANNOT_TRUNCATE_FILE
| STD_EXCEPTION.

Inductive WriteMode : Set := Rewrite | Append.

(** [nuraft::log_entry]: a term, a buffer pointer that may be null, and a
    value type. *)
Record log_entry : Type := LogEntry {
  get_term : Z;
  get_buf_ptr : option (list Byte.byte);
  get_val_type : Z
}.

Definition LogEntryPtr : Type := option log_entry.

(** Modelled from the spec: the record header of [Changelog.h], which is
    not among the sources; the fields and their widths are those of the
    record table (version 1 byte, index 8, term 8, value type 4, blob size
    8, checksum 16). *)
Record ChangelogRecordHeader : Type := RecordHeader {
  version : Z;
  index : Z;
  term : Z;
  value_type : Z;
  blob_size : Z;
  blob_checksum : Z * Z
}.

Record ChangelogRecord : Type := Record_ {
  header : ChangelogRecordHeader;
  blob : option (list Byte.byte)
}.

Definition HEADER_SIZE : Z := 45.

Definition V0 : Z := 0.
Definition CURRENT_CHANGELOG_VERSION : Z := V0.

Record ChangelogFileDescription : Type := FileDescription {
  prefix : string;
  from_log_idx : Z;
  to_log_idx : Z;
  path : string
}.

(** The members of [ChangelogWriter]. Of the file buffer [plain_buf] the
    writer keeps what [count()] returns, the number of bytes written
    through it. *)
Record ChangelogWriter : Type := Writer {
  filepath : string;
  plain_buf_count : Z;
  entries_written : Z;
  w_start_index : Z
}.

Record ChangelogReadResult : Type := ReadResult {
  entries_read : Z;
  last_position : Z;
  error : bool
}.

Abbreviation IndexToLogEntry := (gmap Z log_entry).
Abbreviation IndexToOffset := (gmap Z Z).
Abbreviation Disk := (gmap string (list Byte.byte)).

Record Changelog : Type := Changelog_ {
  changelogs_dir : string;
  rotate_interval : Z;
  existing_changelogs : gmap Z ChangelogFileDescription;
  logs : IndexToLogEntry;
  index_to_start_pos : IndexToOffset;
  start_index : Z;
  current_writer : option ChangelogWriter;
  disk : Disk
}.

Definition set_existing_changelogs (f : gmap Z ChangelogFileDescription → gmap Z ChangelogFileDescription)
    (st : Changelog) : Changelog :=
  Changelog_ (changelogs_dir st) (rotate_interval st) (f (existing_changelogs st))
    (logs st) (index_to_start_pos st) (start_index st) (current_writer st) (disk st).

Definition set_logs (f : IndexToLogEntry → IndexToLogEntry) (st : Changelog) : Changelog :=
  Changelog_ (changelogs_dir st) (rotate_interval st) (existing_changelogs st)
    (f (logs st)) (index_to_start_pos st) (start_index st) (current_writer st) (disk st).

Definition set_index_to_start_pos (f : IndexToOffset → IndexToOffset) (st : Changelog) : Changelog :=
  Changelog_ (changelogs_dir st) (rotate_interval st) (existing_changelogs st)
    (logs st) (f (index_to_start_pos st)) (start_index st) (current_writer st) (disk st).

Definition set_start_index (i : Z) (st : Changelog) : Changelog :=
  Changelog_ (changelogs_dir st) (rotate_interval st) (existing_changelogs st)
    (logs st) (index_to_start_pos st) i (current_writer st) (disk st).

Definition set_current_writer (w : option ChangelogWriter) (st : Changelog) : Changelog :=
  Changelog_ (changelogs_dir st) (rotate_interval st) (existing_changelogs st)
    (logs st) (index_to_start_pos st) (start_index st) w (disk st).

Definition set_disk (f : Disk → Disk) (st : Changelog) : Changelog :=
  Changelog_ (changelogs_dir st) (rotate_interval st) (existing_changelogs st)
    (logs st) (index_to_start_pos st) (start_index st) (current_writer st) (f (disk st)).

(** ** The monad of member functions *)

Inductive result (A : Type) : Type :=
| Done (a : A) (st : Changelog)
| Raise (e : ErrorCode) (st : Changelog)
| Undefined.

Arguments Done {A} a st.
Arguments Raise {A} e st.
Arguments Undefined {A}.

Definition M (A : Type) : Type := Changelog → result A.

Definition ret {A} (a : A) : M A := λ st, Done a st.

Definition bind {A B} (c : M A) (k : A → M B) : M B :=
  λ st, match c st with
        | Done a st' => k a st'
        | Raise e st' => Raise e st'
        | Undefined => Undefined
        end.

Definition throw {A} (e : ErrorCode) : M A := λ st, Raise e st.
Definition undefined {A} : M A := λ _, Undefined.
Definition get : M Changelog := λ st, Done st st.
Definition modify (f : Changelog → Changelog) : M unit := λ st, Done tt (f st).

Notation "'let!' x ':=' c1 'in' c2" := (bind c1 (λ x, c2))
  (at level 10, x name, c1 at level 100, c2 at level 200).
Notation "c1 ';;' c2" := (bind c1 (λ _, c2))
  (at level 100, c2 at level 200, right associativity).

Definition when (b : bool) (c : M unit) : M unit := if b then c else ret tt.

(** Monadic iteration over a list, in order. *)
Fixpoint for_each {A} (l : list A) (body : A → M unit) : M unit :=
  match l with
  | [] => ret tt
  | x :: l' => body x;; for_each l' body
  end.

(** ** Paths *)

Definition to_string (z : Z) : string := pretty (Z.to_N z).

Definition ends_with_slash (s : string) : bool :=
  match last (String.list_ascii_of_string s) with
  | Some c => bool_decide (String c EmptyString = "/")
  | None => false
  end.

(** [std::filesystem::path::operator/=] for a relative right operand. *)
Definition path_append (p q : string) : string :=
  if bool_decide (p = "") then q
  else if ends_with_slash p then p +:+ q
  else p +:+ "/" +:+ q.

Definition DEFAULT_PREFIX : string := "changelog".

Definition formatChangelogPath (prefix_ : string) (name : ChangelogFileDescription) : string :=
  path_append prefix_
    (prefix name +:+ "_" +:+ to_string (from_log_idx name) +:+ "_"
       +:+ to_string (to_log_idx name) +:+ ".bin").

(** ** Entries and records *)

(** [makeClone] reads the buffer through [get_buf()], which has no result
    for an entry without a buffer. *)
Definition makeClone (entry : log_entry) : option log_entry :=
  match get_buf_ptr entry with
  | Some b => Some (LogEntry (get_term entry) (Some b) (get_val_type entry))
  | None => None
  end.

Definition encode_checksum (c : Z * Z) : list Byte.byte :=
  le_encode 8 (fst c) ++ le_encode 8 (snd c).

Definition encode_header (h : ChangelogRecordHeader) : list Byte.byte :=
  le_encode 1 (version h) ++ le_encode 8 (index h) ++ le_encode 8 (term h)
    ++ le_encode 4 (value_type h) ++ le_encode 8 (blob_size h)
    ++ encode_checksum (blob_checksum h).

(** The bytes [appendRecord] puts in the file. *)
Definition encode_record (record : ChangelogRecord) : list Byte.byte :=
  encode_header (header record)
    ++ (if blob_size (header record) =? 0 then [] else default [] (blob record)).

Definition has_key {V} (m : gmap Z V) (k : Z) : bool :=
  bool_decide (is_Some (m !! k)).

(** ** Versions *)

(** [toString] and [fromString] of the format version, a [uint8_t] whose
    only named value is [V0]. *)
Definition toString (version_ : Z) : ErrorCode + string :=
  if version_ =? V0 then inr "V0" else inl UNKNOWN_FORMAT_VERSION.

Definition fromString (version_str : string) : ErrorCode + Z :=
  if bool_decide (version_str = "V0") then inr V0 else inl UNKNOWN_FORMAT_VERSION.

(** ** Names of segment files *)

(** What follows the last occurrence of [sep] in [s]; [None] when [sep]
    does not occur. *)
Fixpoint after_last (sep : ascii) (s : string) : option string :=
  match s with
  | EmptyString => None
  | String c s' =>
      match after_last sep s' with
      | Some t => Some t
      | None => if Ascii.eqb c sep then Some s' else None
      end
  end.

(** What precedes the last occurrence of [sep] in [s]. *)
Fixpoint before_last (sep : ascii) (s : string) : option string :=
  match s with
  | EmptyString => None
  | String c s' =>
      match before_last sep s' with
      | Some t => Some (String c t)
      | None => if Ascii.eqb c sep then Some EmptyString else None
      end
  end.

(** [std::filesystem::path::filename] and [stem] for paths separated by
    [/]: the last component, and the last component without its
    extension. A dot at the start of the component starts no extension,
    and the components [.] and [..] have none. *)
Definition path_filename (p : string) : string :=
  default p (after_last "/"%char p).

Definition path_stem (p : string) : string :=
  let f := path_filename p in
  if bool_decide (f = "." ∨ f = "..") then f
  else match before_last "."%char f with
       | Some EmptyString | None => f
       | Some s => s
       end.

(** [boost::split] with [is_any_of] of one character: the fields between
    the occurrences of [sep], the empty ones included. *)
Fixpoint split_on (sep : ascii) (s : string) : list string :=
  match s with
  | EmptyString => [EmptyString]
  | String c s' =>
      if Ascii.eqb c sep then EmptyString :: split_on sep s'
      else match split_on sep s' with
           | p :: ps => String c p :: ps
           | [] => [String c EmptyString]
           end
  end.

(** The exceptions that leave the scan of the directory: those thrown in
    this file, and those of [parse], whose error codes are declared
    elsewhere. *)
Inductive ScanException : Set :=
| Thrown (e : ErrorCode)
| ParseException.

Definition digit_of (c : ascii) : option Z :=
  let n := Z.of_N (N_of_ascii c) in
  if (48 <=? n) && (n <=? 57) then Some (n - 48) else None.

Fixpoint read_digits (s : string) (res : Z) : Z :=
  match s with
  | EmptyString => res
  | String c s' =>
      match digit_of c with
      | Some d => read_digits s' (wrap64 (res * 10 + d))
      | None => res
      end
  end.

(** Modelled from the spec: [parse<size_t>] of [IO/ReadHelpers.h], which
    is not among the sources. The fields of a file name are unsigned
    decimal numbers: the digits at the start of the string are read in
    64-bit arithmetic, and reading from an empty string is an error. *)
Definition parse_size_t (s : string) : ScanException + Z :=
  match s with
  | EmptyString => inl ParseException
  | String _ _ => inr (read_digits s 0)
  end.

Definition getChangelogFileDescription (path_str : string)
    : ScanException + ChangelogFileDescription :=
  let filename := path_stem path_str in
  match split_on "_"%char filename with
  | part0 :: part1 :: part2 :: _ =>
      match parse_size_t part1 with
      | inl e => inl e
      | inr from_ =>
          match parse_size_t part2 with
          | inl e => inl e
          | inr to_ => inr (FileDescription part0 from_ to_ path_str)
          end
      end
  | _ => inl (Thrown CORRUPTED_DATA)
  end.

(** The loop of the constructor over the entries of the directory. *)
Fixpoint scan_directory (entries : list string) (m : gmap Z ChangelogFileDescription)
    : ScanException + gmap Z ChangelogFileDescription :=
  match entries with
  | [] => inr m
  | p :: entries' =>
      match getChangelogFileDescription p with
      | inl e => inl e
      | inr file_description =>
          scan_directory entries'
            (<[from_log_idx file_description := file_description]> m)
      end
  end.

(** The constructor. [entries] are the paths that [directory_iterator]
    yields for the directory, in the order in which it yields them, which
    the standard leaves open; [disk_] holds the files. Creating a missing
    directory adds no file. *)
Definition Changelog_new (changelogs_dir_ : string) (rotate_interval_ : Z)
    (entries : list string) (disk_ : Disk) : ScanException + Changelog :=
  match scan_directory entries ∅ with
  | inl e => inl e
  | inr m => inr (Changelog_ changelogs_dir_ rotate_interval_ m ∅ ∅ 0 None disk_)
  end.

Section Changelog.

(** The parts of the environment that live outside the repository: the
    128-bit hash, whether [nuraft::buffer::alloc] accepts a size, and
    [nuraft::log_entry::deserialize]. *)
Variable CityHash128 : list Byte.byte → Z * Z.
Variable buffer_alloc_fits : Z → bool.
Variable log_entry_deserialize : list Byte.byte → option log_entry.

(** ** The segment writer *)

(** Modelled from the spec: the file buffer [WriteBufferFromFile], which
    is not among the sources. Rewrite mode creates the file or cuts it to
    length zero, Append mode opens it and creates it when missing; a
    record is written at the end of the file; truncation leaves exactly
    the requested number of bytes. A file removed from the directory is
    no longer reached through its path. [count()] is the number of bytes
    written through the buffer since it was constructed: it is 0 for a
    new buffer in either mode, also when Append mode opens a file that
    has content, and neither [truncate] nor [seek] changes it. *)
Definition open_file (filepath_ : string) (mode : WriteMode) (d : Disk) : Disk :=
  match mode with
  | Rewrite => <[filepath_ := []]> d
  | Append =>
      match d !! filepath_ with
      | Some _ => d
      | None => <[filepath_ := []]> d
      end
  end.

Definition file_size (d : Disk) (filepath_ : string) : Z :=
  Z.of_nat (length (default [] (d !! filepath_))).

Definition truncate_bytes (new_length : Z) (c : list Byte.byte) : list Byte.byte :=
  take (Z.to_nat new_length) c
    ++ replicate (Z.to_nat new_length - length c) Byte.x00.

Definition new_ChangelogWriter (filepath_ : string) (mode : WriteMode) (start_index_ : Z) : M unit :=
  modify (λ st, set_current_writer (Some (Writer filepath_ 0 0 start_index_))
                  (set_disk (open_file filepath_ mode) st)).

(** [current_writer->], undefined on a null pointer. *)
Definition the_writer : M ChangelogWriter :=
  λ st, match current_writer st with
        | Some w => Done w st
        | None => Undefined
        end.

Definition appendRecord (record : ChangelogRecord) (sync : bool) : M Z :=
  let! w := the_writer in
  let result_ := plain_buf_count w in
  modify (set_disk (alter (λ c, c ++ encode_record record) (filepath w)));;
  modify (set_current_writer
            (Some (Writer (filepath w)
                     (plain_buf_count w + Z.of_nat (length (encode_record record)))
                     (wrap64 (entries_written w + 1)) (w_start_index w))));;
  ret result_.

Definition truncateToLength (new_length : Z) : M unit :=
  let! w := the_writer in
  if new_length <? 0 then throw CANNOT_TRUNCATE_FILE
  else modify (set_disk (alter (truncate_bytes new_length) (filepath w))).

Definition getEntriesWritten : M Z :=
  let! w := the_writer in ret (entries_written w).

Definition setEntriesWritten (entries_written_ : Z) : M unit :=
  let! w := the_writer in
  modify (set_current_writer
            (Some (Writer (filepath w) (plain_buf_count w) entries_written_ (w_start_index w)))).

Definition getStartIndex : M Z :=
  let! w := the_writer in ret (w_start_index w).

(** ** The segment reader *)

(** [readIntBinary] of [w] bytes; [None] when the buffer ends before. *)
Definition read_int (w : nat) (buf : list Byte.byte) : option (Z * list Byte.byte) :=
  if decide (w ≤ length buf)%nat then Some (le_decode (take w buf), drop w buf)
  else None.

(** The reads of one iteration: the six header fields, the allocation of
    the blob and [readStrict] into it. The result is the header, the blob
    and the rest of the buffer. *)
Definition read_record (buf : list Byte.byte)
    : option (ChangelogRecordHeader * list Byte.byte * list Byte.byte) :=
  '(version_, b1) ← read_int 1 buf;
  '(index_, b2) ← read_int 8 b1;
  '(term_, b3) ← read_int 8 b2;
  '(value_type_, b4) ← read_int 4 b3;
  '(blob_size_, b5) ← read_int 8 b4;
  '(c1, b6) ← read_int 8 b5;
  '(c2, b7) ← read_int 8 b6;
  if buffer_alloc_fits blob_size_ then
    if decide (Z.to_nat blob_size_ ≤ length b7)%nat then
      Some (RecordHeader version_ index_ term_ value_type_ blob_size_ (c1, c2),
            take (Z.to_nat blob_size_) b7, drop (Z.to_nat blob_size_) b7)
    else None
  else None.

Definition with_error (r : ChangelogReadResult) : ChangelogReadResult :=
  ReadResult (entries_read r) (last_position r) true.

(** The loop of [readChangelog]. [buf] is what is left of the file, [pos]
    is [read_buf.count()]. Every iteration consumes at least the 45 bytes
    of a header, so a fuel above the length of the file is never used up. *)
Fixpoint readChangelog_loop (fuel : nat) (buf : list Byte.byte) (pos : Z)
    (previous_index : Z) (result_ : ChangelogReadResult)
    (logs_ : IndexToLogEntry) (start_log_idx : Z) (index_to_offset : IndexToOffset)
    : ChangelogReadResult * IndexToLogEntry * IndexToOffset :=
  match fuel with
  | O => (result_, logs_, index_to_offset)
  | S fuel' =>
      match buf with
      | [] => (result_, logs_, index_to_offset)
      | _ :: _ =>
          let result_ := ReadResult (entries_read result_) pos (error result_) in
          match read_record buf with
          | None => (with_error result_, logs_, index_to_offset)
          | Some (h, buffer, rest) =>
              if negb (previous_index =? 0) && negb (wrap64 (previous_index + 1) =? index h)
              then (with_error result_, logs_, index_to_offset)
              else
                let previous_index := index h in
                let checksum := CityHash128 buffer in
                if negb (bool_decide (checksum = blob_checksum h))
                then (with_error result_, logs_, index_to_offset)
                else if has_key logs_ (index h)
                then (with_error result_, logs_, index_to_offset)
                else
                  let result_ :=
                    ReadResult (wrap64 (entries_read result_ + 1))
                      (last_position result_) (error result_) in
                  let pos' := pos + HEADER_SIZE + blob_size h in
                  if index h <? start_log_idx
                  then readChangelog_loop fuel' rest pos' previous_index result_
                         logs_ start_log_idx index_to_offset
                  else
                    let log_entry_ := LogEntry (term h) (Some buffer) (value_type h) in
                    readChangelog_loop fuel' rest pos' previous_index result_
                      (<[index h := log_entry_]> logs_) start_log_idx
                      (<[index h := last_position result_]> index_to_offset)
          end
      end
  end.

Definition readChangelog (file : list Byte.byte) (logs_ : IndexToLogEntry)
    (start_log_idx : Z) (index_to_offset : IndexToOffset)
    : ChangelogReadResult * IndexToLogEntry * IndexToOffset :=
  readChangelog_loop (S (length file)) file 0 0 (ReadResult 0 0 false)
    logs_ start_log_idx index_to_offset.

(** ** The changelog manager *)

(** The state the constructor leaves for a directory without files. *)
Definition new_Changelog (changelogs_dir_ : string) (rotate_interval_ : Z) : Changelog :=
  Changelog_ changelogs_dir_ rotate_interval_ ∅ ∅ ∅ 0 None ∅.

(** The local variables of [readChangelogAndInitWriter]. *)
Record recovery_vars : Type := RecoveryVars {
  total_read : Z;
  entries_in_last : Z;
  incomplete_log_idx : Z;
  last_result : ChangelogReadResult
}.

(** The first loop of [readChangelogAndInitWriter]; returning without the
    recursive call is the [break]. The constructor of the reader opens
    the file with [ReadBufferFromFile], which throws [FILE_DOESNT_EXIST]
    for a path without a file. *)
Fixpoint replay_changelogs (from_log_idx_ : Z)
    (items : list (Z * ChangelogFileDescription)) (v : recovery_vars)
    : M recovery_vars :=
  match items with
  | [] => ret v
  | (start_idx, changelog_description) :: items' =>
      let entries_in_last_ :=
        wrap64 (to_log_idx changelog_description - from_log_idx changelog_description + 1) in
      if from_log_idx_ <=? to_log_idx changelog_description then
        let! st := get in
        match disk st !! path changelog_description with
        | None => throw FILE_DOESNT_EXIST
        | Some file =>
            let '(r, logs', offsets') :=
              readChangelog file (logs st) from_log_idx_ (index_to_start_pos st) in
            modify (λ st, set_logs (λ _, logs') (set_index_to_start_pos (λ _, offsets') st));;
            let total_read_ := wrap64 (total_read v + entries_read r) in
            if entries_read r <? entries_in_last_
            then ret (RecoveryVars total_read_ entries_in_last_ start_idx r)
            else replay_changelogs from_log_idx_ items'
                   (RecoveryVars total_read_ entries_in_last_ (incomplete_log_idx v) r)
        end
      else replay_changelogs from_log_idx_ items'
             (RecoveryVars (total_read v) entries_in_last_ (incomplete_log_idx v) (last_result v))
  end.

(** [std::filesystem::remove] of the file of a segment and erasure of its
    description. *)
Definition remove_changelog (k : Z) : M unit :=
  modify (λ st, match existing_changelogs st !! k with
                | Some d => set_existing_changelogs (delete k) (set_disk (delete (path d)) st)
                | None => st
                end).

(** The loop from [upper_bound(k)] to the end that removes every segment. *)
Definition remove_changelogs_after (k : Z) : M unit :=
  let! st := get in
  for_each (keys_after (existing_changelogs st) k) remove_changelog.

Definition rotate (new_start_log_idx : Z) : M unit :=
  let! st := get in
  let to_ := wrap64 (new_start_log_idx + rotate_interval st - 1) in
  let path_ :=
    formatChangelogPath (changelogs_dir st)
      (FileDescription DEFAULT_PREFIX new_start_log_idx to_ "") in
  let new_description := FileDescription DEFAULT_PREFIX new_start_log_idx to_ path_ in
  modify (set_existing_changelogs <[new_start_log_idx := new_description]>);;
  new_ChangelogWriter path_ Rewrite new_start_log_idx.

Definition readChangelogAndInitWriter (from_log_idx_ : Z) : M unit :=
  modify (set_start_index (if from_log_idx_ =? 0 then 1 else from_log_idx_));;
  let! st := get in
  let! v := replay_changelogs from_log_idx_ (items_asc (existing_changelogs st))
              (RecoveryVars 0 0 0 (ReadResult 0 0 false)) in
  when (negb (incomplete_log_idx v =? 0)) (remove_changelogs_after (incomplete_log_idx v));;
  let! st := get in
  if negb (map_is_empty (existing_changelogs st))
     && (entries_read (last_result v) <? entries_in_last v)
  then
    match rbegin (existing_changelogs st) ≫= (existing_changelogs st !!.) with
    | None => undefined
    | Some description =>
        new_ChangelogWriter (path description) Append (from_log_idx description);;
        setEntriesWritten (entries_read (last_result v));;
        when (error (last_result v)) (truncateToLength (last_position (last_result v)))
    end
  else rotate (wrap64 (start_index st + total_read v)).

Definition buildRecord (index_ : Z) (log_entry_ : log_entry) : ChangelogRecord :=
  match get_buf_ptr log_entry_ with
  | Some buffer =>
      Record_ (RecordHeader CURRENT_CHANGELOG_VERSION index_ (get_term log_entry_)
                 (get_val_type log_entry_) (Z.of_nat (length buffer)) (CityHash128 buffer))
        (Some buffer)
  | None =>
      Record_ (RecordHeader CURRENT_CHANGELOG_VERSION index_ (get_term log_entry_)
                 (get_val_type log_entry_) 0 (0, 0))
        None
  end.

Definition appendEntry (index_ : Z) (log_entry_ : log_entry) (force_sync : bool) : M unit :=
  let! st := get in
  match current_writer st with
  | None => throw LOGICAL_ERROR
  | Some _ =>
      when (map_is_empty (logs st)) (modify (set_start_index index_));;
      let! written := getEntriesWritten in
      when (written =? rotate_interval st) (rotate index_);;
      let! offset := appendRecord (buildRecord index_ log_entry_) force_sync in
      let! st := get in
      if has_key (index_to_start_pos st) index_ then throw LOGICAL_ERROR
      else
        modify (set_index_to_start_pos <[index_ := offset]>);;
        match makeClone log_entry_ with
        | None => undefined
        | Some clone => modify (set_logs <[index_ := clone]>)
        end
  end.

(** The block of [writeAt] guarded by [need_rollback] that reopens the
    writer. Dereferencing [end()] and [std::prev(begin())] is undefined. *)
Definition writeAt_reopen (index_ : Z) : M unit :=
  let! st := get in
  match lower_bound (existing_changelogs st) index_ with
  | None => undefined
  | Some index_changelog =>
      let description :=
        if index_changelog =? index_ then existing_changelogs st !! index_changelog
        else prev_key (existing_changelogs st) index_changelog
               ≫= (existing_changelogs st !!.) in
      match description with
      | None => undefined
      | Some description =>
          new_ChangelogWriter (path description) Append index_changelog;;
          setEntriesWritten (wrap64 (to_log_idx description - from_log_idx description + 1))
      end
  end.

(** The in-memory rollback of [writeAt]: one step per entry erased. *)
Definition rollback_step (acc : IndexToOffset * IndexToLogEntry * Z) (k : Z)
    : IndexToOffset * IndexToLogEntry * Z :=
  let '(offsets_, logs_, entries_written_) := acc in
  (delete k offsets_, delete k logs_, wrap64 (entries_written_ - 1)).

Definition writeAt (index_ : Z) (log_entry_ : log_entry) (force_sync : bool) : M unit :=
  let! st := get in
  match index_to_start_pos st !! index_ with
  | None => throw LOGICAL_ERROR
  | Some offset =>
      let! writer_start := getStartIndex in
      let need_rollback := index_ <? writer_start in
      when need_rollback (writeAt_reopen index_);;
      let! entries_written_ := getEntriesWritten in
      truncateToLength offset;;
      when need_rollback (remove_changelogs_after index_);;
      let! st := get in
      let '(offsets', logs', entries_written') :=
        foldl rollback_step (index_to_start_pos st, logs st, entries_written_)
          (keys_from (logs st) index_) in
      modify (λ st, set_logs (λ _, logs') (set_index_to_start_pos (λ _, offsets') st));;
      setEntriesWritten entries_written';;
      appendEntry index_ log_entry_ force_sync
  end.

(** The inner loop of [compact]: erase the offsets of [idx..to_], stopping
    at the first index without an offset. Each step erases one offset, so
    a fuel above the size of the map is never used up. *)
Fixpoint erase_offsets (fuel : nat) (idx to_ : Z) (offsets_ : IndexToOffset) : IndexToOffset :=
  match fuel with
  | O => offsets_
  | S fuel' =>
      if idx <=? to_ then
        match offsets_ !! idx with
        | None => offsets_
        | Some _ => erase_offsets fuel' (wrap64 (idx + 1)) to_ (delete idx offsets_)
        end
      else offsets_
  end.

Fixpoint compact_changelogs (up_to_log_idx : Z)
    (items : list (Z * ChangelogFileDescription)) : M unit :=
  match items with
  | [] => ret tt
  | (k, d) :: items' =>
      if to_log_idx d <=? up_to_log_idx then
        modify (set_index_to_start_pos
                  (λ o, erase_offsets (S (size o)) (from_log_idx d) (to_log_idx d) o));;
        modify (set_disk (delete (path d)));;
        modify (set_existing_changelogs (delete k));;
        compact_changelogs up_to_log_idx items'
      else ret tt
  end.

Definition compact (up_to_log_idx : Z) : M unit :=
  let! st := get in
  compact_changelogs up_to_log_idx (items_asc (existing_changelogs st));;
  modify (set_logs (filter (λ kv, up_to_log_idx < kv.1)));;
  modify (set_start_index (wrap64 (up_to_log_idx + 1))).

Definition entryAt (idx : Z) : M LogEntryPtr :=
  let! st := get in
  match logs st !! idx with
  | None => ret None
  | Some src =>
      match makeClone src with
      | None => undefined
      | Some clone => ret (Some clone)
      end
  end.

Fixpoint entries_from (l : list Z) : M (list LogEntryPtr) :=
  match l with
  | [] => ret []
  | i :: l' =>
      let! e := entryAt i in
      let! es := entries_from l' in
      ret (e :: es)
  end.

(** The result has [end_ - start] slots (in 64-bit arithmetic), all null
    at first; the loop fills those of [start <= i < end_]. *)
Definition getLogEntriesBetween (start end_ : Z) : M (list LogEntryPtr) :=
  if start <? end_ then entries_from (seqZ start (end_ - start))
  else ret (replicate (Z.to_nat (wrap64 (end_ - start))) None).

Definition to_int32 (z : Z) : Z := if z <? 2 ^ 31 then z else z - 2 ^ 32.

(** [nuraft::buffer::get_int] at the cursor of the buffer. *)
Definition buffer_get_int (buf : list Byte.byte) : option (Z * list Byte.byte) :=
  '(v, rest) ← read_int 4 buf; Some (to_int32 v, rest).

(** The loop of [applyEntriesFromBuffer], [n] iterations left. *)
Fixpoint apply_entries (n : nat) (i : Z) (index_ : Z) (buf : list Byte.byte)
    (force_sync : bool) : M unit :=
  match n with
  | O => ret tt
  | S n' =>
      let cur_idx := wrap64 (index_ + i) in
      match buffer_get_int buf with
      | None => throw STD_EXCEPTION
      | Some (buf_size, buf1) =>
          if negb (buffer_alloc_fits (wrap64 buf_size)) then throw STD_EXCEPTION
          else if decide (Z.to_nat buf_size ≤ length buf1)%nat then
            match log_entry_deserialize (take (Z.to_nat buf_size) buf1) with
            | None => throw STD_EXCEPTION
            | Some log_entry_ =>
                let! st := get in
                (if (i =? 0) && has_key (logs st) cur_idx
                 then writeAt cur_idx log_entry_ force_sync
                 else appendEntry cur_idx log_entry_ force_sync);;
                apply_entries n' (i + 1) index_ (drop (Z.to_nat buf_size) buf1) force_sync
            end
          else throw STD_EXCEPTION
      end
  end.

Definition applyEntriesFromBuffer (index_ : Z) (buffer : list Byte.byte)
    (force_sync : bool) : M unit :=
  match buffer_get_int buffer with
  | None => throw STD_EXCEPTION
  | Some (num_logs, buf) => apply_entries (Z.to_nat num_logs) 0 index_ buf force_sync
  end.

(** Appending a list of entries at consecutive indices from [index_]. *)
Fixpoint append_all (index_ : Z) (entries : list log_entry) (force_sync : bool) : M unit :=
  match entries with
  | [] => ret tt
  | e :: entries' =>
      appendEntry index_ e force_sync;;
      append_all (index_ + 1) entries' force_sync
  end.

(** Modelled from the spec: [getNextEntryIndex] of [Changelog.h], which
    is not among the sources: the start index plus the number of
    entries. *)
Definition getNextEntryIndex : M Z :=
  let! st := get in
  ret (wrap64 (start_index st + Z.of_nat (size (logs st)))).

(** The static entry [getLastEntry] returns for a log without a last
    entry: term 0, a buffer of [sizeof(size_t)] bytes (zero-filled in the
    spec) and the value type that the constructor of [nuraft::log_entry]
    takes by default, [app_log]. *)
Definition app_log : Z := 1.

Definition fake_entry : log_entry :=
  LogEntry 0 (Some (replicate 8 Byte.x00)) app_log.

Definition getLastEntry : M log_entry :=
  let! next := getNextEntryIndex in
  let next_idx := wrap64 (next - 1) in
  let! st := get in
  match logs st !! next_idx with
  | None => ret fake_entry
  | Some entry =>
      match makeClone entry with
      | None => undefined
      | Some clone => ret clone
      end
  end.

(** [Changelog::flush]; the synchronisation of the file has no effect on
    what is in it. *)
Definition flush : M unit :=
  let! _ := the_writer in ret tt.


(** * Properties *)

(** ** Ordered iteration *)

Section ordered_maps.
Context {V : Type}.
Implicit Types (m : gmap Z V) (k : Z).

Lemma keys_asc_perm m : keys_asc m ≡ₚ elements (dom m).
Proof. apply merge_sort_Permutation. Qed.

Lemma elem_of_keys_asc m k : k ∈ keys_asc m ↔ is_Some (m !! k).
Proof. by rewrite keys_asc_perm, elem_of_elements, elem_of_dom. Qed.

Lemma keys_asc_NoDup m : NoDup (keys_asc m).
Proof. rewrite keys_asc_perm. apply NoDup_elements. Qed.

Lemma keys_asc_sorted m : StronglySorted Z.le (keys_asc m).
Proof. apply (StronglySorted_merge_sort Z.le). Qed.

Lemma keys_asc_empty : keys_asc (∅ : gmap Z V) = [].
Proof.
  apply Permutation_nil_r. by rewrite keys_asc_perm, dom_empty_L, elements_empty.
Qed.

Lemma elem_of_keys_from m k x : x ∈ keys_from m k ↔ k ≤ x ∧ is_Some (m !! x).
Proof. unfold keys_from. by rewrite list_elem_of_filter, elem_of_keys_asc. Qed.

Lemma elem_of_keys_after m k x : x ∈ keys_after m k ↔ k < x ∧ is_Some (m !! x).
Proof. unfold keys_after. by rewrite list_elem_of_filter, elem_of_keys_asc. Qed.

Lemma map_is_empty_true m : map_is_empty m = true ↔ m = ∅.
Proof.
  unfold map_is_empty. rewrite bool_decide_eq_true. apply map_size_empty_iff.
Qed.

Lemma has_key_true m k : has_key m k = true ↔ is_Some (m !! k).
Proof. unfold has_key. by rewrite bool_decide_eq_true. Qed.

Lemma has_key_false m k : has_key m k = false ↔ m !! k = None.
Proof.
  unfold has_key. rewrite bool_decide_eq_false. by rewrite eq_None_not_Some.
Qed.

End ordered_maps.

(** ** Entries *)

Definition logs_have_buffers (logs_ : IndexToLogEntry) : Prop :=
  ∀ k e, logs_ !! k = Some e → is_Some (get_buf_ptr e).

Lemma makeClone_Some e : is_Some (get_buf_ptr e) → makeClone e = Some e.
Proof. destruct e as [t [b|] v]; intros [? ?]; by simplify_eq/=. Qed.

Lemma makeClone_inv e c : makeClone e = Some c → c = e ∧ is_Some (get_buf_ptr e).
Proof.
  destruct e as [t [b|] v]; unfold makeClone; simpl; intros ?; simplify_eq.
  split; [done | by eexists].
Qed.

(** ** Unfolding the monad *)

Ltac unfold_monad :=
  unfold getEntriesWritten, setEntriesWritten, getStartIndex in *;
  unfold the_writer, when in *;
  unfold bind, get, modify, ret, throw, undefined in *.

Ltac unfold_setters :=
  unfold set_existing_changelogs, set_logs, set_index_to_start_pos,
    set_start_index, set_current_writer, set_disk in *.

Lemma bind_Done {A B} (c : M A) (k : A → M B) st b st' :
  bind c k st = Done b st' ↔ ∃ a st1, c st = Done a st1 ∧ k a st1 = Done b st'.
Proof.
  unfold bind. destruct (c st) as [a st1| |]; split.
  - eauto.
  - by intros (? & ? & [= <- <-] & ?).
  - done.
  - by intros (? & ? & ? & ?).
  - done.
  - by intros (? & ? & ? & ?).
Qed.

(** ** The steps of [appendEntry] *)

Lemma rotate_Done new_start st :
  ∃ st', rotate new_start st = Done tt st'
    ∧ logs st' = logs st
    ∧ index_to_start_pos st' = index_to_start_pos st
    ∧ start_index st' = start_index st
    ∧ rotate_interval st' = rotate_interval st
    ∧ changelogs_dir st' = changelogs_dir st
    ∧ (∃ d, d = FileDescription DEFAULT_PREFIX new_start
                  (wrap64 (new_start + rotate_interval st - 1))
                  (formatChangelogPath (changelogs_dir st)
                     (FileDescription DEFAULT_PREFIX new_start
                        (wrap64 (new_start + rotate_interval st - 1)) ""))
         ∧ existing_changelogs st' = <[new_start := d]> (existing_changelogs st)
         ∧ current_writer st' = Some (Writer (path d) 0 0 new_start)
         ∧ disk st' = <[path d := []]> (disk st)).
Proof.
  unfold rotate. unfold_monad. simpl.
  eexists. split; [reflexivity|]. simpl. repeat split. eexists. repeat split.
Qed.

Lemma appendRecord_Done record sync st w :
  current_writer st = Some w →
  appendRecord record sync st
  = Done (plain_buf_count w)
      (set_current_writer
         (Some (Writer (filepath w)
                  (plain_buf_count w + Z.of_nat (length (encode_record record)))
                  (wrap64 (entries_written w + 1)) (w_start_index w)))
         (set_disk (alter (λ c, c ++ encode_record record) (filepath w)) st)).
Proof. intros Hw. unfold appendRecord. unfold_monad. by rewrite Hw. Qed.

(** The state in which [appendEntry] calls [appendRecord]: the start index
    is set when the log is empty and a full segment is rotated. *)
Definition rotate_state (new_start : Z) (st : Changelog) : Changelog :=
  let to_ := wrap64 (new_start + rotate_interval st - 1) in
  let path_ :=
    formatChangelogPath (changelogs_dir st)
      (FileDescription DEFAULT_PREFIX new_start to_ "") in
  Changelog_ (changelogs_dir st) (rotate_interval st)
    (<[new_start := FileDescription DEFAULT_PREFIX new_start to_ path_]> (existing_changelogs st))
    (logs st) (index_to_start_pos st) (start_index st)
    (Some (Writer path_ 0 0 new_start)) (<[path_ := []]> (disk st)).

Lemma rotate_eq new_start st : rotate new_start st = Done tt (rotate_state new_start st).
Proof. reflexivity. Qed.

Definition append_target (index_ : Z) (w : ChangelogWriter) (st : Changelog) : Changelog :=
  let st1 := if map_is_empty (logs st) then set_start_index index_ st else st in
  if entries_written w =? rotate_interval st then rotate_state index_ st1 else st1.

Definition append_written (record : ChangelogRecord) (w : ChangelogWriter) (st : Changelog)
    : Changelog :=
  set_current_writer
    (Some (Writer (filepath w)
             (plain_buf_count w + Z.of_nat (length (encode_record record)))
             (wrap64 (entries_written w + 1)) (w_start_index w)))
    (set_disk (alter (λ c, c ++ encode_record record) (filepath w)) st).

Lemma appendEntry_unfold index_ e sync st w :
  current_writer st = Some w →
  ∃ w', current_writer (append_target index_ w st) = Some w'
    ∧ appendEntry index_ e sync st
      = let st2 := append_target index_ w st in
        let st3 := append_written (buildRecord index_ e) w' st2 in
        if has_key (index_to_start_pos st) index_ then Raise LOGICAL_ERROR st3
        else match makeClone e with
             | None => Undefined
             | Some clone =>
                 Done tt (set_logs <[index_ := clone]>
                            (set_index_to_start_pos
                               <[index_ := plain_buf_count w']> st3))
             end.
Proof.
  destruct st as [dir R ex lg ofs si cw dk]. simpl. intros ->.
  unfold appendEntry, append_target. unfold_monad. simpl.
  destruct (map_is_empty lg); simpl;
    destruct (entries_written w =? R); simpl;
    (eexists; split; [reflexivity|]); simpl;
    destruct (has_key ofs index_); try reflexivity;
    destruct (makeClone e); reflexivity.
Qed.

Lemma appendEntry_no_writer index_ e sync st :
  current_writer st = None → appendEntry index_ e sync st = Raise LOGICAL_ERROR st.
Proof. intros Hw. unfold appendEntry. unfold_monad. by rewrite Hw. Qed.

Lemma append_target_maps index_ w st :
  logs (append_target index_ w st) = logs st
  ∧ index_to_start_pos (append_target index_ w st) = index_to_start_pos st.
Proof.
  unfold append_target.
  destruct (map_is_empty (logs st)), (entries_written w =? rotate_interval st); done.
Qed.

(** What a successful [appendEntry] does to the two in-memory maps. *)
Lemma appendEntry_Done_maps index_ e sync st st' :
  appendEntry index_ e sync st = Done tt st' →
  is_Some (get_buf_ptr e)
  ∧ index_to_start_pos st !! index_ = None
  ∧ logs st' = <[index_ := e]> (logs st)
  ∧ ∃ offset, index_to_start_pos st' = <[index_ := offset]> (index_to_start_pos st).
Proof.
  destruct (current_writer st) as [w|] eqn:Hw.
  - destruct (appendEntry_unfold index_ e sync st w Hw) as (w' & _ & ->).
    destruct (append_target_maps index_ w st) as [Hl Ho].
    simpl. destruct (has_key _ _) eqn:Hk; [done|].
    destruct (makeClone e) as [c|] eqn:Hc; [|done].
    apply makeClone_inv in Hc as [-> Hb]. apply has_key_false in Hk.
    intros [= <-]. simpl. rewrite Hl, Ho. eauto.
  - by rewrite appendEntry_no_writer.
Qed.

(** ** Appending at an index that already has an offset *)

(** C9. For every index already present in the offsets map,
    [appendEntry] fails with a logical error, and the failed call leaves
    both the entries map and the offsets map as they were: the index is
    not inserted again and the stored entry is not overwritten. *)
Theorem appendEntry_duplicate_index st index_ e sync :
  is_Some (index_to_start_pos st !! index_) →
  ∃ st', appendEntry index_ e sync st = Raise LOGICAL_ERROR st'
    ∧ logs st' = logs st
    ∧ index_to_start_pos st' = index_to_start_pos st.
Proof.
  intros Hdup. destruct (current_writer st) as [w|] eqn:Hw.
  - destruct (appendEntry_unfold index_ e sync st w Hw) as (w' & _ & ->).
    destruct (append_target_maps index_ w st) as [Hl Ho].
    apply has_key_true in Hdup. simpl. rewrite Hdup.
    eexists. split; [reflexivity|]. by simpl.
  - rewrite appendEntry_no_writer by done. eauto.
Qed.

(** ** Reading one entry *)

(** C10. [entryAt] always returns: the null pointer when the index is
    not live, and otherwise a clone with the term, the value type and the
    blob of the stored entry; the state of the changelog is the same
    after the call. Stored entries carry a buffer (they are clones made
    by [appendEntry] or entries built by the reader, see
    [logs_have_buffers]). *)
Theorem entryAt_total st idx :
  logs_have_buffers (logs st) →
  (logs st !! idx = None → entryAt idx st = Done None st)
  ∧ (∀ e, logs st !! idx = Some e →
       ∃ clone, entryAt idx st = Done (Some clone) st
         ∧ get_term clone = get_term e
         ∧ get_val_type clone = get_val_type e
         ∧ get_buf_ptr clone = get_buf_ptr e).
Proof.
  intros Hb. unfold entryAt. unfold_monad. split.
  - by intros ->.
  - intros e He. rewrite He. rewrite (makeClone_Some e) by eauto. eauto.
Qed.

(** ** Iterating over a map of segments *)

Lemma StronglySorted_le_lt (l : list Z) :
  StronglySorted Z.le l → NoDup l → StronglySorted Z.lt l.
Proof.
  induction l as [|x l IH]; [constructor|].
  rewrite !StronglySorted_cons, NoDup_cons. intros [Hx Hl] [Hin Hnd].
  split; [|by apply IH].
  rewrite Forall_forall in Hx. rewrite Forall_forall. intros y Hy.
  specialize (Hx y Hy). assert (x ≠ y) by (intros ->; done). lia.
Qed.

Lemma keys_asc_lt_sorted {V} (m : gmap Z V) : StronglySorted Z.lt (keys_asc m).
Proof. apply StronglySorted_le_lt; [apply keys_asc_sorted | apply keys_asc_NoDup]. Qed.

Lemma elem_of_items_asc {V} (m : gmap Z V) k v : (k, v) ∈ items_asc m ↔ m !! k = Some v.
Proof.
  unfold items_asc. rewrite list_elem_of_omap. split.
  - intros (x & _ & Hx). destruct (m !! x) eqn:E; by simplify_eq/=.
  - intros Hk. exists k. split; [apply elem_of_keys_asc; eauto | by rewrite Hk].
Qed.

Lemma items_asc_sorted {V} (m : gmap Z V) :
  StronglySorted (λ a b, a.1 < b.1) (items_asc m).
Proof.
  unfold items_asc. generalize (keys_asc_lt_sorted m).
  induction (keys_asc m) as [|x l IH]; [constructor|].
  rewrite StronglySorted_cons. intros [Hx Hl]. specialize (IH Hl). simpl.
  destruct (m !! x) as [v|]; simpl; [|done].
  constructor; [done|].
  rewrite Forall_forall in Hx. rewrite Forall_forall.
  intros [k' v'] [y [Hy Hk]]%list_elem_of_omap.
  destruct (m !! y); simplify_eq/=. by apply Hx.
Qed.

Lemma items_asc_empty {V} : items_asc (∅ : gmap Z V) = [].
Proof. unfold items_asc. by rewrite keys_asc_empty. Qed.

(** ** Well-formed sets of segments *)

(** The ranges of the segments are disjoint, ordered like their keys, and
    every segment is filed under its first index. *)
Definition segments_ordered (m : gmap Z ChangelogFileDescription) : Prop :=
  (∀ k d, m !! k = Some d → from_log_idx d = k ∧ from_log_idx d ≤ to_log_idx d)
  ∧ (∀ k1 k2 d1 d2, m !! k1 = Some d1 → m !! k2 = Some d2 → k1 < k2 →
       to_log_idx d1 < from_log_idx d2).

(** Two segments are two files. *)
Definition paths_distinct (m : gmap Z ChangelogFileDescription) : Prop :=
  ∀ k1 k2 d1 d2, m !! k1 = Some d1 → m !! k2 = Some d2 → path d1 = path d2 → k1 = k2.

Lemma segments_ordered_to m k1 k2 d1 d2 :
  segments_ordered m → m !! k1 = Some d1 → m !! k2 = Some d2 → k1 < k2 →
  to_log_idx d1 < to_log_idx d2.
Proof.
  intros [Hk Hlt] H1 H2 Hlt12.
  specialize (Hlt _ _ _ _ H1 H2 Hlt12). destruct (Hk _ _ H2). lia.
Qed.

(** ** Compaction *)

Lemma erase_offsets_subseteq fuel idx to_ (o : IndexToOffset) :
  erase_offsets fuel idx to_ o ⊆ o.
Proof.
  revert idx o. induction fuel as [|fuel IH]; intros idx o; simpl; [done|].
  destruct (idx <=? to_); [|done]. destruct (o !! idx); [|done].
  etrans; [apply IH|]. apply delete_subseteq.
Qed.

Lemma erase_offsets_above fuel idx to_ (o : IndexToOffset) k :
  to_ < k → erase_offsets fuel idx to_ o !! k = o !! k.
Proof.
  intros Hk. revert idx o. induction fuel as [|fuel IH]; intros idx o; simpl; [done|].
  destruct (idx <=? to_) eqn:Hle; [|done]. destruct (o !! idx); [|done].
  rewrite IH. apply lookup_delete_ne. lia.
Qed.

Local Arguments erase_offsets : simpl never.

Lemma compact_changelogs_Done up_to items st :
  ∃ st', compact_changelogs up_to items st = Done tt st'
    ∧ logs st' = logs st
    ∧ start_index st' = start_index st
    ∧ current_writer st' = current_writer st
    ∧ index_to_start_pos st' ⊆ index_to_start_pos st
    ∧ (∀ k, up_to < k → index_to_start_pos st' !! k = index_to_start_pos st !! k)
    ∧ existing_changelogs st' ⊆ existing_changelogs st
    ∧ disk st' ⊆ disk st
    ∧ (∀ k, (∀ d, (k, d) ∈ items → up_to < to_log_idx d) →
         existing_changelogs st' !! k = existing_changelogs st !! k)
    ∧ (∀ p, (∀ k d, (k, d) ∈ items → to_log_idx d ≤ up_to → path d ≠ p) →
         disk st' !! p = disk st !! p)
    ∧ (StronglySorted (λ a b, to_log_idx a.2 ≤ to_log_idx b.2) items →
       ∀ k d, (k, d) ∈ items → to_log_idx d ≤ up_to →
         existing_changelogs st' !! k = None ∧ disk st' !! path d = None).
Proof.
  revert st. induction items as [|[k d] items IH]; intros st; simpl.
  { eexists. split; [reflexivity|]. split_and!; try done.
    intros _ k0 d0 Hin. by apply elem_of_nil in Hin. }
  destruct (to_log_idx d <=? up_to) eqn:Hto.
  - unfold_monad. simpl.
    match goal with |- ∃ st', compact_changelogs _ _ ?s = _ ∧ _ => set (st1 := s) end.
    destruct (IH st1) as (st' & -> & Hl & Hs & Hw & Ho & Hoa & He & Hd & Hek & Hdk & Hdel).
    exists st'. split; [done|]. subst st1. simpl in *.
    split_and!; try done.
    + etrans; [exact Ho|]. apply erase_offsets_subseteq.
    + intros k' Hk'. rewrite Hoa by done. apply erase_offsets_above. lia.
    + etrans; [exact He|]. apply delete_subseteq.
    + etrans; [exact Hd|]. apply delete_subseteq.
    + intros k' Hk'. rewrite (Hek k').
      * apply lookup_delete_ne. intros ->.
        specialize (Hk' d (list_elem_of_here (k', d) items)). lia.
      * intros d' Hin. apply Hk'. by apply list_elem_of_further.
    + intros p Hp. rewrite (Hdk p).
      * apply lookup_delete_ne. apply (Hp k d); [apply list_elem_of_here | lia].
      * intros k' d' Hin. apply (Hp k'). by apply list_elem_of_further.
    + intros [Hhd Htl]%StronglySorted_cons k' d' [[= -> ->]|Hin]%elem_of_cons Hle.
      * split.
        -- eapply lookup_weaken_None; [|exact He]. apply lookup_delete_eq.
        -- eapply lookup_weaken_None; [|exact Hd]. apply lookup_delete_eq.
      * by apply Hdel.
  - unfold_monad. eexists. split; [reflexivity|]. split_and!; try done.
    intros [Hhd Htl]%StronglySorted_cons k' d' [[= -> ->]|Hin]%elem_of_cons Hle; [lia|].
    rewrite Forall_forall in Hhd. specialize (Hhd _ Hin). simpl in Hhd. lia.
Qed.

Lemma items_asc_to_sorted m :
  segments_ordered m →
  StronglySorted (λ a b, to_log_idx a.2 ≤ to_log_idx b.2) (items_asc m).
Proof.
  intros Hord. generalize (items_asc_sorted m).
  assert (Hin : ∀ kd, kd ∈ items_asc m → m !! kd.1 = Some kd.2).
  { intros [k d]. apply elem_of_items_asc. }
  revert Hin. induction (items_asc m) as [|[k d] l IH]; intros Hin; [constructor|].
  rewrite !StronglySorted_cons. intros [Hhd Htl]. split.
  - rewrite Forall_forall in Hhd. rewrite Forall_forall. intros [k' d'] Hkd. simpl.
    specialize (Hhd _ Hkd). simpl in Hhd.
    pose proof (Hin (k, d) (list_elem_of_here _ _)) as H1.
    pose proof (Hin (k', d') (list_elem_of_further _ _ _ Hkd)) as H2.
    pose proof (segments_ordered_to m k k' d d' Hord H1 H2 Hhd). lia.
  - apply IH; [|done]. intros kd Hkd. apply Hin. by apply list_elem_of_further.
Qed.

Lemma wrap64_small z : 0 ≤ z < 2 ^ 64 → wrap64 z = z.
Proof. intros. unfold wrap64. by apply Z.mod_small. Qed.

(** C7. After [compact up_to] returns, the start index is [up_to + 1]
    (the 64-bit sum), every segment whose last index is at most [up_to]
    has its file deleted and its description erased, no entry with key at
    most [up_to] is left in the entries map, and a segment whose last
    index is above [up_to] keeps its description and its file as they
    were: no segment is split. The segments are those of a well-formed
    changelog: disjoint ranges in the order of their first indices, one
    file each. *)
Theorem compact_drops_whole_segments st up_to :
  segments_ordered (existing_changelogs st) →
  paths_distinct (existing_changelogs st) →
  ∃ st', compact up_to st = Done tt st'
    ∧ start_index st' = wrap64 (up_to + 1)
    ∧ (0 ≤ up_to < 2 ^ 64 - 1 → start_index st' = up_to + 1)
    ∧ (∀ k d, existing_changelogs st !! k = Some d → to_log_idx d ≤ up_to →
         existing_changelogs st' !! k = None ∧ disk st' !! path d = None)
    ∧ (∀ k, k ≤ up_to → logs st' !! k = None)
    ∧ (∀ k, up_to < k → logs st' !! k = logs st !! k)
    ∧ (∀ k d, existing_changelogs st !! k = Some d → up_to < to_log_idx d →
         existing_changelogs st' !! k = Some d ∧ disk st' !! path d = disk st !! path d).
Proof.
  intros Hord Hpaths. unfold compact. unfold_monad.
  destruct (compact_changelogs_Done up_to (items_asc (existing_changelogs st)) st)
    as (st1 & -> & Hl & _ & _ & _ & _ & _ & _ & Hek & Hdk & Hdel).
  eexists. split; [reflexivity|]. simpl. split_and!.
  - done.
  - intros ?. apply wrap64_small. lia.
  - intros k d Hk Hto. apply Hdel; [by apply items_asc_to_sorted| |done].
    by apply elem_of_items_asc.
  - intros k Hk. apply map_lookup_filter_None. right. intros e _. simpl. lia.
  - intros k Hk. rewrite Hl. destruct (logs st !! k) as [e|] eqn:He.
    + apply map_lookup_filter_Some. done.
    + apply map_lookup_filter_None. by left.
  - intros k d Hk Hto. split.
    + rewrite Hek; [done|]. intros d' Hin%elem_of_items_asc. by simplify_eq.
    + apply Hdk. intros k' d' Hin%elem_of_items_asc Hle Hp.
      assert (k' = k) as -> by eauto. simplify_eq. lia.
Qed.

(** ** The segment reader *)

Lemma le_decode_nonneg bs : 0 ≤ le_decode bs.
Proof. induction bs as [|b bs IH]; simpl; unfold Z_of_byte; lia. Qed.

Lemma read_int_Some w buf v rest :
  read_int w buf = Some (v, rest) →
  0 ≤ v ∧ (w ≤ length buf)%nat ∧ rest = drop w buf.
Proof.
  unfold read_int. case_decide; [|done]. intros [= <- <-].
  split; [apply le_decode_nonneg | done].
Qed.

Lemma read_record_Some buf h b rest :
  read_record buf = Some (h, b, rest) →
  0 ≤ blob_size h
  ∧ (Z.to_nat (HEADER_SIZE + blob_size h) ≤ length buf)%nat
  ∧ rest = drop (Z.to_nat (HEADER_SIZE + blob_size h)) buf.
Proof.
  unfold read_record. intros H.
  repeat match type of H with
  | (read_int ?w ?x ≫= _) = Some _ =>
      let E := fresh "E" in
      destruct (read_int w x) as [[? ?]|] eqn:E; simpl in H; [|done];
      apply read_int_Some in E as (? & ? & ->)
  end.
  destruct (buffer_alloc_fits _); [|done]. case_decide; [|done].
  injection H as <- <- <-. simpl.
  rewrite !length_drop in *. unfold HEADER_SIZE. split_and!; [done|lia|].
  rewrite !drop_drop. f_equal. lia.
Qed.

(** [decodes_at file pos h b]: the reads of one iteration succeed at
    offset [pos] of the file and yield the header [h] and the blob [b]. *)
Definition record_end (pos : Z) (h : ChangelogRecordHeader) : Z :=
  pos + HEADER_SIZE + blob_size h.

Definition decodes_at (file : list Byte.byte) (pos : Z)
    (h : ChangelogRecordHeader) (b : list Byte.byte) : Prop :=
  0 ≤ pos
  ∧ read_record (drop (Z.to_nat pos) file)
    = Some (h, b, drop (Z.to_nat (record_end pos h)) file).

(** The checks of one iteration: the index follows the previous one, the
    checksum matches and the index is not in the map of entries. *)
Definition record_accepted (previous_index : Z) (logs_ : IndexToLogEntry)
    (h : ChangelogRecordHeader) (b : list Byte.byte) : Prop :=
  (previous_index = 0 ∨ wrap64 (previous_index + 1) = index h)
  ∧ CityHash128 b = blob_checksum h
  ∧ logs_ !! index h = None.

Definition last_index (fs : list (ChangelogRecordHeader * list Byte.byte)) : Z :=
  match last fs with
  | Some (h, _) => index h
  | None => 0
  end.

(** [decoded_chain file logs0 fs last_ end_]: from offset 0 the file holds
    the records [fs] one after the other, each decoded in full and
    accepted; the last of them starts at [last_] (0 when there is none)
    and they end at [end_]. *)
Inductive decoded_chain (file : list Byte.byte) (logs0 : IndexToLogEntry)
    : list (ChangelogRecordHeader * list Byte.byte) → Z → Z → Prop :=
| chain_nil : decoded_chain file logs0 [] 0 0
| chain_snoc fs last_ pos h b :
    decoded_chain file logs0 fs last_ pos →
    decodes_at file pos h b →
    record_accepted (last_index fs) logs0 h b →
    decoded_chain file logs0 (fs ++ [(h, b)]) pos (record_end pos h).

(** What the reader reports for a file, in terms of the chain of records
    it accepted. *)
Definition read_result_ok (file : list Byte.byte) (logs0 logs' : IndexToLogEntry)
    (r : ChangelogReadResult) : Prop :=
  ∃ fs last_ end_,
    decoded_chain file logs0 fs last_ end_
    ∧ entries_read r = wrap64 (Z.of_nat (length fs))
    ∧ 0 ≤ last_position r ≤ Z.of_nat (length file)
    ∧ if error r
      then last_position r = end_
           ∧ end_ < Z.of_nat (length file)
           ∧ ∀ h b, decodes_at file end_ h b → ¬ record_accepted (last_index fs) logs' h b
      else last_position r = last_
           ∧ end_ = Z.of_nat (length file).

Lemma last_index_snoc fs h b : last_index (fs ++ [(h, b)]) = index h.
Proof. unfold last_index. by rewrite last_snoc. Qed.

Lemma decoded_chain_bounds file logs0 fs last_ end_ :
  decoded_chain file logs0 fs last_ end_ → 0 ≤ last_ ≤ end_.
Proof.
  induction 1 as [|fs last_ pos h b Hc IH [Hpos Hd] _]; [lia|].
  apply read_record_Some in Hd as (? & _ & _). unfold record_end, HEADER_SIZE. lia.
Qed.

Lemma wrap64_succ z : wrap64 (wrap64 z + 1) = wrap64 (z + 1).
Proof. unfold wrap64. by rewrite Z.add_mod_idemp_l. Qed.

Lemma readChangelog_loop_ok file logs0 start_log_idx :
  ∀ fuel buf pos previous_index res lg ofs fs last_ r lg' ofs',
    buf = drop (Z.to_nat pos) file →
    0 ≤ pos →
    Z.of_nat (length buf) + pos = Z.of_nat (length file) →
    (length buf < fuel)%nat →
    decoded_chain file logs0 fs last_ pos →
    error res = false →
    entries_read res = wrap64 (Z.of_nat (length fs)) →
    last_position res = last_ →
    previous_index = last_index fs →
    logs0 ⊆ lg →
    readChangelog_loop fuel buf pos previous_index res lg start_log_idx ofs = (r, lg', ofs') →
    read_result_ok file logs0 lg' r.
Proof.
  induction fuel as [|fuel IH];
    intros buf pos prev res lg ofs fs last_ r lg' ofs' Hbuf Hpos Hlen Hfuel Hchain
      Herr Hcount Hlast Hprev Hsub Hrun; [lia|].
  pose proof (decoded_chain_bounds _ _ _ _ _ Hchain) as Hb.
  simpl in Hrun. destruct buf as [|b0 buf'].
  { injection Hrun as <- <- <-. exists fs, last_, pos. simpl in Hlen.
    rewrite Herr. split_and!; try done; lia. }
  assert (Hfail : ∀ P : Prop,
    (∀ h b, decodes_at file pos h b → ¬ record_accepted (last_index fs) lg h b) →
    read_result_ok file logs0 lg
      (with_error (ReadResult (entries_read res) pos (error res)))).
  { intros _ Hno. exists fs, last_, pos. simpl in *. split_and!; try done; lia. }
  destruct (read_record (b0 :: buf')) as [[[h b] rest]|] eqn:Hrec.
  2:{ injection Hrun as <- <- <-. apply (Hfail True).
      intros h b [_ Hd]. rewrite <- Hbuf in Hd. congruence. }
  assert (Hdec : decodes_at file pos h b).
  { split; [done|]. rewrite <- Hbuf, Hrec.
    apply read_record_Some in Hrec as (? & ? & ->).
    rewrite Hbuf, drop_drop. unfold record_end, HEADER_SIZE in *. do 3 f_equal. lia. }
  assert (Hsame : ∀ h' b', decodes_at file pos h' b' → h' = h ∧ b' = b).
  { intros h' b' [_ Hd]. destruct Hdec as [_ Hd']. rewrite Hd' in Hd. by simplify_eq. }
  destruct (negb (prev =? 0) && negb (wrap64 (prev + 1) =? index h)) eqn:Hcontig.
  { injection Hrun as <- <- <-. apply (Hfail True).
    intros h' b' [-> ->]%Hsame [[?|?] _]; subst prev;
      apply andb_true_iff in Hcontig as [H1 H2];
      apply negb_true_iff in H1, H2; lia. }
  destruct (bool_decide (CityHash128 b = blob_checksum h)) eqn:Hsum; simpl in Hrun.
  2:{ injection Hrun as <- <- <-. apply (Hfail True).
      intros h' b' [-> ->]%Hsame (_ & ? & _). by apply bool_decide_eq_false in Hsum. }
  destruct (has_key lg (index h)) eqn:Hdup.
  { injection Hrun as <- <- <-. apply (Hfail True).
    intros h' b' [-> ->]%Hsame (_ & _ & Hn). apply has_key_true in Hdup.
    rewrite Hn in Hdup. by destruct Hdup. }
  apply bool_decide_eq_true in Hsum. apply has_key_false in Hdup.
  assert (Hacc : record_accepted (last_index fs) logs0 h b).
  { split_and!; [|done|by eapply lookup_weaken_None].
    subst prev. apply andb_false_iff in Hcontig as [H1|H1];
      apply negb_false_iff in H1; lia. }
  pose proof (read_record_Some _ _ _ _ Hrec) as (Hbs & Hsz & Hrest).
  assert (Hchain' : decoded_chain file logs0 (fs ++ [(h, b)]) pos (record_end pos h))
    by (by eapply chain_snoc).
  assert (Hcount' : wrap64 (entries_read res + 1)
                    = wrap64 (Z.of_nat (length (fs ++ [(h, b)])))).
  { rewrite Hcount, wrap64_succ, length_app. simpl. f_equal. lia. }
  assert (Hrest' : rest = drop (Z.to_nat (record_end pos h)) file).
  { rewrite Hrest, Hbuf, drop_drop. unfold record_end, HEADER_SIZE in *. f_equal. lia. }
  assert (Hlen' : Z.of_nat (length rest) + record_end pos h = Z.of_nat (length file)).
  { rewrite Hrest, length_drop. unfold record_end, HEADER_SIZE in *. lia. }
  assert (Hfuel' : (length rest < fuel)%nat).
  { rewrite Hrest, length_drop. unfold HEADER_SIZE in *. lia. }
  assert (Hpos' : 0 ≤ record_end pos h) by (unfold record_end, HEADER_SIZE; lia).
  set (res' := ReadResult (wrap64 (entries_read res + 1)) pos (error res)) in Hrun.
  unfold record_end in Hrest', Hlen', Hpos', Hchain'.
  destruct (index h <? start_log_idx).
  - apply (IH rest (pos + HEADER_SIZE + blob_size h) (index h) res' lg ofs
             (fs ++ [(h, b)]) pos r lg' ofs');
      try done.
    by rewrite last_index_snoc.
  - apply (IH rest (pos + HEADER_SIZE + blob_size h) (index h) res'
             (<[index h := LogEntry (term h) (Some b) (value_type h)]> lg)
             (<[index h := pos]> ofs) (fs ++ [(h, b)]) pos r lg' ofs');
      try done.
    + by rewrite last_index_snoc.
    + etrans; [exact Hsub|]. by apply insert_subseteq.
Qed.

Lemma readChangelog_result_ok file logs_ start_log_idx index_to_offset :
  ∃ r logs' offsets',
    readChangelog file logs_ start_log_idx index_to_offset = (r, logs', offsets')
    ∧ read_result_ok file logs_ logs' r.
Proof.
  destruct (readChangelog file logs_ start_log_idx index_to_offset)
    as [[r logs'] offsets'] eqn:Hrun.
  exists r, logs', offsets'. split; [done|].
  unfold readChangelog in Hrun.
  apply (readChangelog_loop_ok file logs_ start_log_idx (S (length file)) file 0 0
           (ReadResult 0 0 false) logs_ index_to_offset [] 0 r logs' offsets');
    try done; try lia.
  constructor.
Qed.

(** C5. For every segment file, [readChangelog] returns (it always
    has a result: no exception leaves it). When [error] is false the file
    was exhausted and [last_position] is the offset at which the last
    record decoded in full begins; when [error] is true [last_position]
    is the offset at which the first record that failed begins, where the
    failure is a read that the file cannot satisfy (a torn tail) or a
    record refused by one of the checks: an index that does not follow,
    a checksum that does not match, or an index already present. *)
Theorem readChangelog_last_position file logs_ start_log_idx index_to_offset :
  ∃ r logs' offsets',
    readChangelog file logs_ start_log_idx index_to_offset = (r, logs', offsets')
    ∧ read_result_ok file logs_ logs' r.
Proof. apply readChangelog_result_ok. Qed.

(** What replaying files does to the two in-memory maps: the same indices
    are added to both, and every entry added has a buffer. *)
Definition maps_extended (lg : IndexToLogEntry) (ofs : IndexToOffset)
    (lg' : IndexToLogEntry) (ofs' : IndexToOffset) : Prop :=
  lg ⊆ lg'
  ∧ (∃ S : gset Z, dom lg' = dom lg ∪ S ∧ dom ofs' = dom ofs ∪ S)
  ∧ (logs_have_buffers lg → logs_have_buffers lg').

Lemma maps_extended_refl lg ofs : maps_extended lg ofs lg ofs.
Proof.
  split_and!; [done| |done]. exists ∅. by rewrite !(right_id_L ∅ (∪)).
Qed.

Lemma maps_extended_trans lg1 o1 lg2 o2 lg3 o3 :
  maps_extended lg1 o1 lg2 o2 → maps_extended lg2 o2 lg3 o3 →
  maps_extended lg1 o1 lg3 o3.
Proof.
  intros (Hs1 & (S1 & Hl1 & Ho1) & Hb1) (Hs2 & (S2 & Hl2 & Ho2) & Hb2).
  split_and!; [by etrans| |auto]. exists (S1 ∪ S2).
  rewrite Hl2, Hl1, Ho2, Ho1. by rewrite !(assoc_L (∪)).
Qed.

Lemma maps_extended_insert lg ofs k e pos :
  lg !! k = None → is_Some (get_buf_ptr e) →
  maps_extended lg ofs (<[k := e]> lg) (<[k := pos]> ofs).
Proof.
  intros Hk Hb. split_and!.
  - by apply insert_subseteq.
  - exists {[k]}. rewrite !dom_insert_L. set_solver.
  - intros Hall k' e'. rewrite lookup_insert. case_decide; [|by apply Hall].
    intros ?; by simplify_eq.
Qed.

Lemma readChangelog_loop_maps start_log_idx :
  ∀ fuel buf pos previous_index res lg ofs r lg' ofs',
    readChangelog_loop fuel buf pos previous_index res lg start_log_idx ofs = (r, lg', ofs') →
    maps_extended lg ofs lg' ofs'.
Proof.
  induction fuel as [|fuel IH]; intros buf pos prev res lg ofs r lg' ofs' Hrun;
    simpl in Hrun.
  { injection Hrun as <- <- <-. apply maps_extended_refl. }
  destruct buf as [|b0 buf'].
  { injection Hrun as <- <- <-. apply maps_extended_refl. }
  destruct (read_record (b0 :: buf')) as [[[h b] rest]|].
  2:{ injection Hrun as <- <- <-. apply maps_extended_refl. }
  destruct (negb (prev =? 0) && negb (wrap64 (prev + 1) =? index h)).
  { injection Hrun as <- <- <-. apply maps_extended_refl. }
  destruct (bool_decide (CityHash128 b = blob_checksum h)); simpl in Hrun.
  2:{ injection Hrun as <- <- <-. apply maps_extended_refl. }
  destruct (has_key lg (index h)) eqn:Hdup.
  { injection Hrun as <- <- <-. apply maps_extended_refl. }
  apply has_key_false in Hdup.
  destruct (index h <? start_log_idx).
  - by eapply IH.
  - eapply maps_extended_trans; [|by eapply IH].
    apply maps_extended_insert; [done|]. simpl. eauto.
Qed.

Lemma readChangelog_maps file lg start_log_idx ofs r lg' ofs' :
  readChangelog file lg start_log_idx ofs = (r, lg', ofs') →
  maps_extended lg ofs lg' ofs'.
Proof. apply readChangelog_loop_maps. Qed.

(** ** Recovery *)

Definition capacity (d : ChangelogFileDescription) : Z :=
  wrap64 (to_log_idx d - from_log_idx d + 1).

(** The fields recovery's first loop leaves alone. *)
Definition same_files (st st' : Changelog) : Prop :=
  changelogs_dir st' = changelogs_dir st
  ∧ rotate_interval st' = rotate_interval st
  ∧ existing_changelogs st' = existing_changelogs st
  ∧ start_index st' = start_index st
  ∧ current_writer st' = current_writer st
  ∧ disk st' = disk st.

Lemma replay_changelogs_frame from_ items :
  ∀ v st,
    match replay_changelogs from_ items v st with
    | Done _ st' | Raise _ st' =>
        same_files st st'
        ∧ maps_extended (logs st) (index_to_start_pos st) (logs st') (index_to_start_pos st')
    | Undefined => False
    end.
Proof.
  induction items as [|[k d] items IH]; intros v st; simpl.
  { split; [done|apply maps_extended_refl]. }
  destruct (from_ <=? to_log_idx d); [|apply IH].
  unfold_monad. destruct (disk st !! path d) as [file|] eqn:Hfile.
  2:{ split; [done|apply maps_extended_refl]. }
  destruct (readChangelog file (logs st) from_ (index_to_start_pos st))
    as [[r lg'] ofs'] eqn:Hread.
  apply readChangelog_maps in Hread.
  destruct (entries_read r <? _).
  { simpl. done. }
  match goal with |- context [replay_changelogs _ _ ?v' ?st'] =>
    specialize (IH v' st'); destruct (replay_changelogs from_ items v' st') end;
    [| |done].
  all: destruct IH as [Hf Hm]; split; [exact Hf|];
    eapply maps_extended_trans; [exact Hread|exact Hm].
Qed.

Fixpoint sum_entries_read (rs : list ChangelogReadResult) : Z :=
  match rs with
  | [] => 0
  | r :: rs' => entries_read r + sum_entries_read rs'
  end.

(** [replay_full disk_ from_ items lg ofs rs lg' ofs']: each segment of
    [items], in order, is either skipped (it ends before [from_]) or
    replayed from its file and found full; [rs] lists the results of the
    replays, and the maps go from [lg], [ofs] to [lg'], [ofs']. *)
Inductive replay_full (disk_ : Disk) (from_ : Z)
    : list (Z * ChangelogFileDescription) → IndexToLogEntry → IndexToOffset →
      list ChangelogReadResult → IndexToLogEntry → IndexToOffset → Prop :=
| replay_full_nil lg ofs : replay_full disk_ from_ [] lg ofs [] lg ofs
| replay_full_skip k d items lg ofs rs lg' ofs' :
    to_log_idx d < from_ →
    replay_full disk_ from_ items lg ofs rs lg' ofs' →
    replay_full disk_ from_ ((k, d) :: items) lg ofs rs lg' ofs'
| replay_full_read k d items lg ofs file r lg1 ofs1 rs lg' ofs' :
    from_ ≤ to_log_idx d →
    disk_ !! path d = Some file →
    readChangelog file lg from_ ofs = (r, lg1, ofs1) →
    ¬ entries_read r < capacity d →
    replay_full disk_ from_ items lg1 ofs1 rs lg' ofs' →
    replay_full disk_ from_ ((k, d) :: items) lg ofs (r :: rs) lg' ofs'.

Definition with_maps (lg : IndexToLogEntry) (ofs : IndexToOffset) (st : Changelog) : Changelog :=
  set_logs (λ _, lg) (set_index_to_start_pos (λ _, ofs) st).

Lemma with_maps_id st : with_maps (logs st) (index_to_start_pos st) st = st.
Proof. by destruct st. Qed.

Lemma wrap64_add_l a b : wrap64 (wrap64 a + b) = wrap64 (a + b).
Proof. unfold wrap64. by rewrite Z.add_mod_idemp_l. Qed.

Lemma wrap64_add_r a b : wrap64 (a + wrap64 b) = wrap64 (a + b).
Proof. unfold wrap64. by rewrite Z.add_mod_idemp_r. Qed.

Lemma replay_changelogs_full disk_ from_ pre lg ofs rs lg' ofs' :
  replay_full disk_ from_ pre lg ofs rs lg' ofs' →
  ∀ st post v,
    disk st = disk_ → logs st = lg → index_to_start_pos st = ofs →
    ∃ v',
      replay_changelogs from_ (pre ++ post) v st
      = replay_changelogs from_ post v' (with_maps lg' ofs' st)
      ∧ wrap64 (total_read v') = wrap64 (total_read v + sum_entries_read rs)
      ∧ incomplete_log_idx v' = incomplete_log_idx v
      ∧ entries_in_last v'
        = match last pre with
          | Some (_, d) => capacity d
          | None => entries_in_last v
          end
      ∧ last_result v' = default (last_result v) (last rs).
Proof.
  induction 1 as [lg ofs|k d items lg ofs rs lg' ofs' Hto _ IH
                 |k d items lg ofs file r lg1 ofs1 rs lg' ofs' Hto Hfile Hread Hfull _ IH];
    intros st post v Hd Hl Ho.
  - exists v. subst. rewrite with_maps_id. simpl. split_and!; try done.
    f_equal. lia.
  - simpl. apply Z.leb_gt in Hto as Hto'. rewrite Hto'.
    edestruct (IH st post) as (v' & -> & Ht & Hi & He & Hr); [done..|].
    exists v'. simpl in *. split_and!; try done.
    rewrite He. destruct items as [|p items]; [done|]. rewrite last_cons_cons.
    destruct (last (p :: items)) as [[? ?]|] eqn:E; [done|]. by apply last_None in E.
  - simpl. apply Z.leb_le in Hto as Hto'. rewrite Hto'. unfold_monad.
    rewrite Hd, Hfile, Hl, Ho, Hread.
    fold (capacity d). apply Z.ltb_nlt in Hfull as Hfull'. rewrite Hfull'.
    edestruct (IH (with_maps lg1 ofs1 st) post) as (v' & Heq & Ht & Hi & He & Hr);
      [done..|].
    exists v'. split_and!.
    + exact Heq.
    + rewrite Ht. simpl. rewrite wrap64_add_l. f_equal. lia.
    + by rewrite Hi.
    + rewrite He. destruct items as [|p items]; [done|]. rewrite last_cons_cons.
      destruct (last (p :: items)) as [[? ?]|] eqn:E; [done|]. by apply last_None in E.
    + rewrite Hr. destruct rs as [|r0 rs]; [done|]. rewrite last_cons_cons.
      destruct (last (r0 :: rs)) eqn:E; [done|]. by apply last_None in E.
Qed.

Lemma replay_full_last disk_ from_ items lg ofs rs lg' ofs' k d :
  replay_full disk_ from_ items lg ofs rs lg' ofs' →
  last items = Some (k, d) → from_ ≤ to_log_idx d →
  ∃ r, last rs = Some r ∧ ¬ entries_read r < capacity d.
Proof.
  induction 1 as [lg ofs|k0 d0 items lg ofs rs lg' ofs' Hto _ IH
                 |k0 d0 items lg ofs file r lg1 ofs1 rs lg' ofs' Hto Hfile Hread Hfull Hrest IH];
    intros Hlast Hfrom.
  - done.
  - destruct items as [|x items]; [simpl in Hlast; simplify_eq; lia|].
    apply IH; [|done]. by rewrite last_cons_cons in Hlast.
  - destruct items as [|x items].
    + simpl in Hlast. simplify_eq. inversion Hrest; subst. eauto.
    + destruct IH as (r' & Hr' & ?); [by rewrite last_cons_cons in Hlast|done|].
      exists r'. split; [|done]. destruct rs; [done|]. by rewrite last_cons_cons.
Qed.

Lemma replay_full_maps disk_ from_ items lg ofs rs lg' ofs' :
  replay_full disk_ from_ items lg ofs rs lg' ofs' → maps_extended lg ofs lg' ofs'.
Proof.
  induction 1; [apply maps_extended_refl|done|].
  eapply maps_extended_trans; [by eapply readChangelog_maps|done].
Qed.

(** Running a computation step by step. *)
Lemma bind_run {A B} (c : M A) (k : A → M B) st a st1 :
  c st = Done a st1 → bind c k st = k a st1.
Proof. unfold bind. by intros ->. Qed.

Lemma bind_get {B} (k : Changelog → M B) st : bind get k st = k st st.
Proof. done. Qed.

Lemma bind_modify {B} f (k : unit → M B) st : bind (modify f) k st = k tt (f st).
Proof. done. Qed.

Lemma bind_ret {A B} (a : A) (k : A → M B) st : bind (ret a) k st = k a st.
Proof. done. Qed.

Lemma for_each_remove_changelog l :
  ∀ st, ∃ st',
    for_each l remove_changelog st = Done tt st'
    ∧ changelogs_dir st' = changelogs_dir st
    ∧ rotate_interval st' = rotate_interval st
    ∧ logs st' = logs st
    ∧ index_to_start_pos st' = index_to_start_pos st
    ∧ start_index st' = start_index st
    ∧ current_writer st' = current_writer st
    ∧ disk st' ⊆ disk st
    ∧ (∀ j, j ∈ l → existing_changelogs st' !! j = None)
    ∧ (∀ j, j ∉ l → existing_changelogs st' !! j = existing_changelogs st !! j)
    ∧ (∀ j d, j ∈ l → existing_changelogs st !! j = Some d → disk st' !! path d = None)
    ∧ (∀ p, (∀ j d, j ∈ l → existing_changelogs st !! j = Some d → path d ≠ p) →
         disk st' !! p = disk st !! p).
Proof.
  induction l as [|k l IH]; intros st; simpl.
  { eexists. split; [reflexivity|]. split_and!; try done.
    - intros j Hj. by apply elem_of_nil in Hj.
    - intros j d Hj. by apply elem_of_nil in Hj. }
  unfold remove_changelog at 1. rewrite bind_modify.
  destruct (existing_changelogs st !! k) as [d|] eqn:Hk.
  - match goal with |- ∃ st', for_each _ _ ?s = _ ∧ _ => set (st1 := s) end.
    destruct (IH st1) as (st' & -> & ? & ? & ? & ? & ? & ? & Hsub & Hin & Hout & Hdel & Hkeep).
    exists st'. subst st1. simpl in *. split_and!; try done.
    + etrans; [exact Hsub|]. apply delete_subseteq.
    + intros j [->|Hj]%elem_of_cons; [|by apply Hin].
      destruct (decide (k ∈ l)); [by apply Hin|].
      rewrite Hout by done. apply lookup_delete_eq.
    + intros j Hj. apply not_elem_of_cons in Hj as [Hne Hj].
      rewrite Hout by done. by apply lookup_delete_ne.
    + intros j d' [->|Hj]%elem_of_cons Hd'.
      * simplify_eq. eapply lookup_weaken_None; [|exact Hsub]. apply lookup_delete_eq.
      * destruct (decide (j = k)) as [->|Hne].
        -- simplify_eq. eapply lookup_weaken_None; [|exact Hsub]. apply lookup_delete_eq.
        -- apply (Hdel j); [done|]. by rewrite lookup_delete_ne.
    + intros p Hp. rewrite Hkeep.
      * apply lookup_delete_ne. apply (Hp k); [apply list_elem_of_here|done].
      * intros j d' Hj Hd'. destruct (decide (j = k)) as [->|Hne].
        -- by rewrite lookup_delete_eq in Hd'.
        -- rewrite lookup_delete_ne in Hd' by done.
           apply (Hp j); [by apply list_elem_of_further|done].
  - destruct (IH st) as (st' & -> & ? & ? & ? & ? & ? & ? & Hsub & Hin & Hout & Hdel & Hkeep).
    exists st'. split_and!; try done.
    + intros j [->|Hj]%elem_of_cons; [|by apply Hin].
      destruct (decide (k ∈ l)); [by apply Hin|]. by rewrite Hout.
    + intros j Hj. apply not_elem_of_cons in Hj as [Hne Hj]. by apply Hout.
    + intros j d' [->|Hj]%elem_of_cons Hd'; [congruence|by eapply Hdel].
    + intros p Hp. apply Hkeep. intros j d' Hj. apply Hp. by apply list_elem_of_further.
Qed.

Lemma remove_changelogs_after_Done k st :
  ∃ st',
    remove_changelogs_after k st = Done tt st'
    ∧ changelogs_dir st' = changelogs_dir st
    ∧ rotate_interval st' = rotate_interval st
    ∧ logs st' = logs st
    ∧ index_to_start_pos st' = index_to_start_pos st
    ∧ start_index st' = start_index st
    ∧ current_writer st' = current_writer st
    ∧ (∀ j, k < j → existing_changelogs st' !! j = None)
    ∧ (∀ j, j ≤ k → existing_changelogs st' !! j = existing_changelogs st !! j)
    ∧ (∀ j d, k < j → existing_changelogs st !! j = Some d → disk st' !! path d = None)
    ∧ (∀ p, (∀ j d, k < j → existing_changelogs st !! j = Some d → path d ≠ p) →
         disk st' !! p = disk st !! p).
Proof.
  unfold remove_changelogs_after. rewrite bind_get.
  destruct (for_each_remove_changelog (keys_after (existing_changelogs st) k) st)
    as (st' & -> & ? & ? & ? & ? & ? & ? & Hsub & Hin & Hout & Hdel & Hkeep).
  exists st'. split_and!; try done.
  - intros j Hj. destruct (existing_changelogs st !! j) as [d|] eqn:Hd.
    + apply Hin. apply elem_of_keys_after. eauto.
    + rewrite Hout; [done|]. rewrite elem_of_keys_after. intros [_ [? ?]]. congruence.
  - intros j Hj. apply Hout. rewrite elem_of_keys_after. lia.
  - intros j d Hj Hd. apply (Hdel j); [|done]. apply elem_of_keys_after. eauto.
  - intros p Hp. apply Hkeep. intros j d [Hj _]%elem_of_keys_after. by apply Hp.
Qed.

Lemma rbegin_greatest {V} (m : gmap Z V) k :
  is_Some (m !! k) → (∀ j, is_Some (m !! j) → j ≤ k) → rbegin m = Some k.
Proof.
  intros Hk Hmax. unfold rbegin.
  pose proof (keys_asc_sorted m) as Hsorted.
  assert (Hin : k ∈ keys_asc m) by by apply elem_of_keys_asc.
  assert (Hle : ∀ j, j ∈ keys_asc m → j ≤ k).
  { intros j Hj. apply Hmax. by apply elem_of_keys_asc. }
  destruct (keys_asc m) as [|x l] using rev_ind; [by apply elem_of_nil in Hin|].
  rewrite last_snoc. f_equal.
  assert (x ≤ k) by (apply Hle; set_solver).
  apply elem_of_app in Hin as [Hin|Hin%list_elem_of_singleton]; [|done].
  pose proof (StronglySorted_app_1_elem_of _ _ _ k x Hsorted Hin) as Hkx.
  assert (k ≤ x) by (apply Hkx; set_solver). lia.
Qed.

Lemma readChangelog_position_bounds file lg from_ ofs r lg' ofs' :
  readChangelog file lg from_ ofs = (r, lg', ofs') →
  0 ≤ last_position r ≤ Z.of_nat (length file).
Proof.
  intros Hread.
  destruct (readChangelog_result_ok file lg from_ ofs) as (r0 & lg0 & ofs0 & Heq & Hok).
  rewrite Hread in Heq. simplify_eq.
  by destruct Hok as (fs & last_ & end_ & _ & _ & ? & _).
Qed.

(** C4. During [readChangelogAndInitWriter], suppose the scan reaches
    a segment [d], filed under a first index [k] other than 0 (log
    indices start at 1), every segment before it having been skipped or
    replayed in full, and the replay of [d] yields fewer records than its
    capacity [to - from + 1]. Then every segment with a greater first
    index is deleted from the disk and from the map of segments, and [d]
    is reopened in append mode as the current writer, with its counter of
    entries set to the number of records read from it; when the replay
    ended in error the file is cut at the reported [last_position]: its
    first [last_position] bytes are left, and nothing else. *)
Theorem recovery_reopens_short_segment st from_ pre k d post rs lg ofs file r lg' ofs' :
  items_asc (existing_changelogs st) = pre ++ (k, d) :: post →
  replay_full (disk st) from_ pre (logs st) (index_to_start_pos st) rs lg ofs →
  from_ ≤ to_log_idx d →
  disk st !! path d = Some file →
  readChangelog file lg from_ ofs = (r, lg', ofs') →
  entries_read r < capacity d →
  k ≠ 0 →
  paths_distinct (existing_changelogs st) →
  ∃ st', readChangelogAndInitWriter from_ st = Done tt st'
    ∧ (∀ k' d', existing_changelogs st !! k' = Some d' → k < k' →
         existing_changelogs st' !! k' = None ∧ disk st' !! path d' = None)
    ∧ (∀ k', k' ≤ k → existing_changelogs st' !! k' = existing_changelogs st !! k')
    ∧ current_writer st' = Some (Writer (path d) 0 (entries_read r) (from_log_idx d))
    ∧ disk st' !! path d
      = Some (if error r then take (Z.to_nat (last_position r)) file else file)
    ∧ logs st' = lg'
    ∧ index_to_start_pos st' = ofs'.
Proof.
  intros Hitems Hpre Hto Hfile Hread Hshort Hk Hpaths.
  assert (Hkd : existing_changelogs st !! k = Some d).
  { apply elem_of_items_asc. rewrite Hitems. set_solver. }
  unfold readChangelogAndInitWriter. rewrite bind_modify, bind_get.
  set (st0 := set_start_index _ st).
  change (existing_changelogs st0) with (existing_changelogs st). rewrite Hitems.
  destruct (replay_changelogs_full _ _ _ _ _ _ _ _ Hpre st0 ((k, d) :: post)
              (RecoveryVars 0 0 0 (ReadResult 0 0 false)) eq_refl eq_refl eq_refl)
    as (v' & Hrun & _ & _ & _ & _).
  set (st1 := with_maps lg' ofs' st0).
  assert (Hscan : replay_changelogs from_ (pre ++ (k, d) :: post)
                    (RecoveryVars 0 0 0 (ReadResult 0 0 false)) st0
                  = Done (RecoveryVars (wrap64 (total_read v' + entries_read r))
                            (capacity d) k r) st1).
  { rewrite Hrun. simpl. apply Z.leb_le in Hto as ->. unfold_monad. simpl.
    rewrite Hfile, Hread. fold (capacity d).
    apply Z.ltb_lt in Hshort as ->. done. }
  rewrite (bind_run _ _ _ _ _ Hscan). simpl.
  apply Z.eqb_neq in Hk as Hk'. rewrite Hk'. simpl.
  destruct (remove_changelogs_after_Done k st1)
    as (st2 & Hrm & Hdir & HR & Hl2 & Ho2 & Hs2 & Hw2 & Hgone & Hkept & Hdel & Hdisk).
  rewrite (bind_run _ _ _ _ _ Hrm), bind_get.
  assert (Hkd2 : existing_changelogs st2 !! k = Some d) by (rewrite Hkept by lia; done).
  assert (Hne : map_is_empty (existing_changelogs st2) = false).
  { apply not_true_iff_false. rewrite map_is_empty_true. intros He.
    by rewrite He, lookup_empty in Hkd2. }
  rewrite Hne. apply Z.ltb_lt in Hshort as Hshort'. simpl. rewrite Hshort'. simpl.
  rewrite (rbegin_greatest (existing_changelogs st2) k); [|by eauto|].
  2:{ intros j [dj Hj]. destruct (decide (j ≤ k)); [done|].
      rewrite Hgone in Hj by lia. done. }
  simpl. rewrite Hkd2.
  assert (Hfile2 : disk st2 !! path d = Some file).
  { rewrite Hdisk; [done|]. intros j dj Hj Hdj Hp.
    assert (j = k) by (eapply Hpaths; eauto). lia. }
  pose proof (readChangelog_position_bounds _ _ _ _ _ _ _ Hread) as Hpos.
  assert (Hneg : (last_position r <? 0) = false) by lia.
  clear Hrm Hscan Hrun.
  destruct st2 as [dir2 R2 ex2 lg2 of2 si2 cw2 dk2]. simpl in *.
  unfold new_ChangelogWriter, truncateToLength, open_file. unfold_monad. simpl.
  unfold_setters. simpl. rewrite Hfile2.
  destruct (error r) eqn:Herr; simpl; rewrite ?Hneg;
    (eexists; split; [reflexivity|]); simpl; split_and!; try done.
  - intros k' d' Hk'd' Hlt. split; [by apply Hgone|].
    destruct (decide (path d = path d')) as [Hp|Hp].
    + assert (k' = k) by (eapply Hpaths; eauto). lia.
    + rewrite lookup_alter_ne by done. by apply (Hdel k' d').
  - rewrite lookup_alter_eq, Hfile2. cbn [fmap option_fmap option_map]. f_equal.
    unfold truncate_bytes.
    replace (Z.to_nat (last_position r) - length file)%nat with 0%nat by lia.
    apply app_nil_r.
  - intros k' d' Hk'd' Hlt. split; [by apply Hgone|]. by apply (Hdel k' d').
Qed.

Lemma items_asc_nil {V} (m : gmap Z V) : items_asc m = [] → m = ∅.
Proof.
  intros Hnil. apply map_empty. intros k.
  destruct (m !! k) as [v|] eqn:Hk; [|done].
  apply elem_of_items_asc in Hk. rewrite Hnil in Hk. by apply elem_of_nil in Hk.
Qed.

(** C8. During [readChangelogAndInitWriter], if there are no segments,
    or every segment was skipped or replayed in full and the last one was
    replayed, a fresh segment is created by rotation: its first index is
    the start index plus the total of the records read across the
    replayed segments, and its last index is that first index plus the
    rotate interval minus one (64-bit arithmetic). The total adds the
    [entries_read] of each replay, which counts every record accepted,
    also those below [from_log_idx] (see [read_result_ok]). *)
Theorem recovery_rotates_after_full_segments st from_ rs lg ofs :
  replay_full (disk st) from_ (items_asc (existing_changelogs st))
    (logs st) (index_to_start_pos st) rs lg ofs →
  (∀ k d, last (items_asc (existing_changelogs st)) = Some (k, d) →
     from_ ≤ to_log_idx d) →
  ∃ st' description,
    readChangelogAndInitWriter from_ st = Done tt st'
    ∧ start_index st' = (if from_ =? 0 then 1 else from_)
    ∧ from_log_idx description = wrap64 (start_index st' + sum_entries_read rs)
    ∧ to_log_idx description
      = wrap64 (from_log_idx description + rotate_interval st - 1)
    ∧ prefix description = DEFAULT_PREFIX
    ∧ path description = formatChangelogPath (changelogs_dir st) description
    ∧ existing_changelogs st'
      = <[from_log_idx description := description]> (existing_changelogs st)
    ∧ current_writer st'
      = Some (Writer (path description) 0 0 (from_log_idx description))
    ∧ disk st' = <[path description := []]> (disk st)
    ∧ logs st' = lg
    ∧ index_to_start_pos st' = ofs.
Proof.
  intros Hfull Hlast.
  unfold readChangelogAndInitWriter. rewrite bind_modify, bind_get.
  set (st0 := set_start_index _ st).
  change (existing_changelogs st0) with (existing_changelogs st).
  destruct (replay_changelogs_full _ _ _ _ _ _ _ _ Hfull st0 []
              (RecoveryVars 0 0 0 (ReadResult 0 0 false)) eq_refl eq_refl eq_refl)
    as (v' & Hrun & Htotal & Hinc & Heil & Hres).
  rewrite app_nil_r in Hrun. simpl in Hrun, Htotal, Hinc, Heil, Hres.
  rewrite (bind_run _ _ _ _ _ Hrun). rewrite Hinc. simpl.
  rewrite bind_ret, bind_get.
  assert (Hcond : negb (map_is_empty (existing_changelogs (with_maps lg ofs st0)))
                  && (entries_read (last_result v') <? entries_in_last v') = false).
  { destruct (last (items_asc (existing_changelogs st))) as [[k d]|] eqn:El.
    - destruct (replay_full_last _ _ _ _ _ _ _ _ k d Hfull El) as (r & Hr & Hnot);
        [by apply (Hlast k)|].
      rewrite Hres, Hr, Heil. simpl. apply andb_false_iff. right. lia.
    - apply last_None in El. apply items_asc_nil in El.
      apply andb_false_iff. left. apply negb_false_iff. by apply map_is_empty_true. }
  rewrite Hcond. rewrite rotate_eq.
  assert (Hstart : wrap64 (start_index (with_maps lg ofs st0) + total_read v')
                   = wrap64 ((if from_ =? 0 then 1 else from_) + sum_entries_read rs)).
  { simpl. rewrite <- wrap64_add_r, Htotal, wrap64_add_r. done. }
  rewrite Hstart.
  set (new_start := wrap64 ((if from_ =? 0 then 1 else from_) + sum_entries_read rs)).
  set (to_ := wrap64 (new_start + rotate_interval st - 1)).
  exists (rotate_state new_start (with_maps lg ofs st0)),
    (FileDescription DEFAULT_PREFIX new_start to_
       (formatChangelogPath (changelogs_dir st)
          (FileDescription DEFAULT_PREFIX new_start to_ ""))).
  split; [reflexivity|]. simpl. split_and!; reflexivity.
Qed.

(** ** Relations kept by a computation *)

(** [run_rel R c st]: whatever state [c] reaches from [st], by returning
    or by throwing, is related to [st] by [R]. *)
Definition run_rel {A} (R : relation Changelog) (c : M A) (st : Changelog) : Prop :=
  match c st with
  | Done _ st' | Raise _ st' => R st st'
  | Undefined => True
  end.

Section run_rel.
Context (R : relation Changelog) `{!PreOrder R}.

Lemma run_rel_ret {A} (a : A) st : run_rel R (ret a) st.
Proof. unfold run_rel, ret. reflexivity. Qed.

Lemma run_rel_throw {A} e st : run_rel R (@throw A e) st.
Proof. unfold run_rel, throw. reflexivity. Qed.

Lemma run_rel_undefined {A} st : run_rel R (@undefined A) st.
Proof. done. Qed.

Lemma run_rel_modify f st : R st (f st) → run_rel R (modify f) st.
Proof. done. Qed.

Lemma run_rel_bind {A B} (c : M A) (k : A → M B) st :
  run_rel R c st →
  (∀ a st1, c st = Done a st1 → R st st1 → run_rel R (k a) st1) →
  run_rel R (bind c k) st.
Proof.
  unfold run_rel, bind. intros Hc Hk. destruct (c st) as [a st1|e st1|]; [|done..].
  specialize (Hk a st1 eq_refl Hc).
  destruct (k a st1); [| |done]; by etrans.
Qed.

Lemma run_rel_get_bind {B} (k : Changelog → M B) st :
  run_rel R (k st) st → run_rel R (bind get k) st.
Proof. done. Qed.

Lemma run_rel_when b c st : run_rel R c st → run_rel R (when b c) st.
Proof. destruct b; [done|]. intros _. apply run_rel_ret. Qed.

Lemma run_rel_for_each {A} (l : list A) body :
  (∀ x st, run_rel R (body x) st) → ∀ st, run_rel R (for_each l body) st.
Proof.
  intros Hbody. induction l as [|x l IH]; intros st; simpl.
  - apply run_rel_ret.
  - apply run_rel_bind; [apply Hbody|]. intros _ st1 _ _. apply IH.
Qed.

End run_rel.

Lemma run_rel_weaken {A} (R R' : relation Changelog) (c : M A) st :
  (∀ st', R st st' → R' st st') → run_rel R c st → run_rel R' c st.
Proof. unfold run_rel. intros HR. destruct (c st); auto. Qed.

(** The steps that leave the two in-memory maps alone. *)
Definition same_maps : relation Changelog :=
  λ st st', logs st' = logs st ∧ index_to_start_pos st' = index_to_start_pos st.

#[local] Instance same_maps_preorder : PreOrder same_maps.
Proof.
  split.
  - by intros st.
  - intros st1 st2 st3 [? ?] [? ?]. split; congruence.
Qed.

Lemma the_writer_same_maps st : run_rel same_maps the_writer st.
Proof. unfold run_rel, the_writer. by destruct (current_writer st). Qed.

Lemma getEntriesWritten_same_maps st : run_rel same_maps getEntriesWritten st.
Proof. unfold run_rel, getEntriesWritten, the_writer, bind. by destruct (current_writer st). Qed.

Lemma getStartIndex_same_maps st : run_rel same_maps getStartIndex st.
Proof. unfold run_rel, getStartIndex, the_writer, bind. by destruct (current_writer st). Qed.

Lemma setEntriesWritten_same_maps n st : run_rel same_maps (setEntriesWritten n) st.
Proof. unfold run_rel, setEntriesWritten, the_writer, bind. by destruct (current_writer st). Qed.

Lemma new_ChangelogWriter_same_maps p mode s st :
  run_rel same_maps (new_ChangelogWriter p mode s) st.
Proof. done. Qed.

Lemma truncateToLength_same_maps n st : run_rel same_maps (truncateToLength n) st.
Proof.
  unfold run_rel, truncateToLength, the_writer, bind.
  destruct (current_writer st); [|done]. by destruct (n <? 0).
Qed.

Lemma rotate_same_maps n st : run_rel same_maps (rotate n) st.
Proof. done. Qed.

Lemma remove_changelogs_after_same_maps k st :
  run_rel same_maps (remove_changelogs_after k) st.
Proof.
  unfold run_rel.
  destruct (remove_changelogs_after_Done k st) as (st' & -> & _ & _ & ? & ? & _). done.
Qed.

Lemma writeAt_reopen_same_maps idx st : run_rel same_maps (writeAt_reopen idx) st.
Proof.
  unfold writeAt_reopen. apply run_rel_get_bind.
  destruct (lower_bound _ _) as [k|]; [|done].
  match goal with |- context [match ?x with _ => _ end] => destruct x as [d|] end; [|done].
  apply (run_rel_bind _); [done|]. intros _ st1 _ _.
  apply setEntriesWritten_same_maps.
Qed.

(** ** The in-memory rollback of [writeAt] *)

Definition delete_keys {V} (ks : list Z) (m : gmap Z V) : gmap Z V :=
  foldl (λ m k, delete k m) m ks.

Lemma lookup_delete_keys {V} ks (m : gmap Z V) j :
  delete_keys ks m !! j = if decide (j ∈ ks) then None else m !! j.
Proof.
  unfold delete_keys. revert m. induction ks as [|k ks IH]; intros m; simpl.
  - destruct (decide (j ∈ [])) as [H|H]; [by apply elem_of_nil in H|done].
  - rewrite IH.
    destruct (decide (j ∈ ks)) as [Hin|Hin], (decide (j ∈ k :: ks)) as [Hin'|Hin'];
      try done.
    + exfalso. apply Hin'. by apply list_elem_of_further.
    + apply elem_of_cons in Hin' as [->|?]; [|done]. apply lookup_delete_eq.
    + apply lookup_delete_ne. intros ->. apply Hin'. apply list_elem_of_here.
Qed.

Lemma rollback_fold ks (o : IndexToOffset) (l : IndexToLogEntry) n :
  foldl rollback_step (o, l, n) ks
  = (delete_keys ks o, delete_keys ks l, Nat.iter (length ks) (λ x, wrap64 (x - 1)) n).
Proof.
  revert o l n. induction ks as [|k ks IH]; intros o l n; [done|].
  simpl. rewrite IH. unfold delete_keys. simpl. f_equal.
  clear. induction (length ks) as [|m IHm]; [done|]. simpl. by rewrite IHm.
Qed.

Lemma iter_decrement len n :
  (0 < len)%nat → Nat.iter len (λ x, wrap64 (x - 1)) n = wrap64 (n - Z.of_nat len).
Proof.
  induction len as [|len IH]; [lia|]. intros _. simpl.
  destruct len as [|len'].
  - simpl. done.
  - rewrite IH by lia. unfold wrap64. rewrite Zminus_mod_idemp_l. f_equal. lia.
Qed.

(** The maps once the entries from [index_] on are rolled back. *)
Lemma lookup_rollback_logs (l : IndexToLogEntry) index_ j :
  delete_keys (keys_from l index_) l !! j = if decide (index_ ≤ j) then None else l !! j.
Proof.
  rewrite lookup_delete_keys. destruct (decide (j ∈ keys_from l index_)) as [Hin|Hin].
  - apply elem_of_keys_from in Hin as [? ?]. by rewrite decide_True.
  - case_decide; [|done]. rewrite elem_of_keys_from in Hin.
    destruct (l !! j) eqn:E; [|done]. exfalso. apply Hin. eauto.
Qed.

Lemma lookup_rollback_offsets (o : IndexToOffset) (l : IndexToLogEntry) index_ j :
  delete_keys (keys_from l index_) o !! j
  = if decide (index_ ≤ j ∧ is_Some (l !! j)) then None else o !! j.
Proof.
  rewrite lookup_delete_keys. apply decide_ext. apply elem_of_keys_from.
Qed.

(** ** How the operations change the key sets *)

(** [keys_step st st']: going from [st] to [st'] keeps the key sets of
    entries and offsets equal if they were, keeps the keys of the entries
    among the keys of the offsets if they were, and keeps every stored
    entry with a buffer. *)
Definition keys_incl_step : relation Changelog :=
  λ st st',
    (dom (logs st) ⊆ dom (index_to_start_pos st) →
       dom (logs st') ⊆ dom (index_to_start_pos st'))
    ∧ (logs_have_buffers (logs st) → logs_have_buffers (logs st')).

Definition keys_step : relation Changelog :=
  λ st st',
    (dom (logs st) = dom (index_to_start_pos st) →
       dom (logs st') = dom (index_to_start_pos st'))
    ∧ keys_incl_step st st'.

#[local] Instance keys_incl_step_preorder : PreOrder keys_incl_step.
Proof.
  split.
  - by intros st.
  - intros st1 st2 st3 (? & ?) (? & ?). split; auto.
Qed.

#[local] Instance keys_step_preorder : PreOrder keys_step.
Proof.
  split.
  - by intros st.
  - intros st1 st2 st3 (? & ?) (? & ?). split; [auto|by etrans].
Qed.

Lemma same_maps_keys_step st st' : same_maps st st' → keys_step st st'.
Proof.
  unfold keys_step, keys_incl_step. intros [-> ->]. done.
Qed.

Lemma maps_extended_keys_step st st' :
  maps_extended (logs st) (index_to_start_pos st) (logs st') (index_to_start_pos st') →
  keys_step st st'.
Proof.
  unfold keys_step, keys_incl_step.
  intros (_ & (S & -> & ->) & ?). split; [|split]; [set_solver|set_solver|done].
Qed.

Lemma logs_have_buffers_insert lg k e :
  is_Some (get_buf_ptr e) → logs_have_buffers lg → logs_have_buffers (<[k := e]> lg).
Proof.
  intros He Hall k' e'. rewrite lookup_insert. case_decide; [|by apply Hall].
  intros ?; by simplify_eq.
Qed.

Lemma appendEntry_keys_step idx e sync st : run_rel keys_step (appendEntry idx e sync) st.
Proof.
  unfold run_rel. destruct (current_writer st) as [w|] eqn:Hw.
  2:{ rewrite appendEntry_no_writer by done. reflexivity. }
  destruct (appendEntry_unfold idx e sync st w Hw) as (w' & _ & ->). cbv zeta.
  destruct (append_target_maps idx w st) as [Hl Ho].
  destruct (has_key _ _).
  { apply same_maps_keys_step. by split. }
  destruct (makeClone e) as [c|] eqn:Hc; [|done].
  apply makeClone_inv in Hc as [-> Hb].
  unfold keys_step, keys_incl_step, append_written. unfold_setters.
  cbn [logs index_to_start_pos]. rewrite Hl, Ho.
  split; [|split]; rewrite ?dom_insert_L.
  - by intros ->.
  - set_solver.
  - by apply logs_have_buffers_insert.
Qed.

Lemma rollback_keys_step st idx :
  keys_step st
    (with_maps (delete_keys (keys_from (logs st) idx) (logs st))
       (delete_keys (keys_from (logs st) idx) (index_to_start_pos st)) st).
Proof.
  assert (Hl : ∀ j, j ∈ dom (delete_keys (keys_from (logs st) idx) (logs st))
                 ↔ j ∈ dom (logs st) ∧ ¬ idx ≤ j).
  { intros j. rewrite !elem_of_dom, lookup_rollback_logs. case_decide.
    - split; [by intros [? ?]|naive_solver].
    - naive_solver. }
  assert (Ho : ∀ j, j ∈ dom (delete_keys (keys_from (logs st) idx) (index_to_start_pos st))
                 ↔ j ∈ dom (index_to_start_pos st) ∧ ¬ (idx ≤ j ∧ j ∈ dom (logs st))).
  { intros j. rewrite !elem_of_dom, lookup_rollback_offsets. case_decide.
    - split; [by intros [? ?]|naive_solver].
    - naive_solver. }
  split; [|split]; simpl.
  - intros Heq. apply set_eq. intros j. rewrite Hl, Ho, Heq. naive_solver.
  - intros Hsub j. rewrite Hl, Ho. set_solver.
  - intros Hall k e. rewrite lookup_rollback_logs. case_decide; [done|]. apply Hall.
Qed.

Lemma writeAt_keys_step idx e sync st : run_rel keys_step (writeAt idx e sync) st.
Proof.
  unfold writeAt. apply run_rel_get_bind.
  destruct (index_to_start_pos st !! idx) as [offset|]; [|apply (run_rel_throw _)].
  apply (run_rel_bind _).
  { eapply run_rel_weaken; [|apply getStartIndex_same_maps]. apply same_maps_keys_step. }
  intros ws st1 _ _. apply (run_rel_bind _).
  { apply (run_rel_when _). eapply run_rel_weaken; [|apply writeAt_reopen_same_maps].
    apply same_maps_keys_step. }
  intros _ st2 _ _. apply (run_rel_bind _).
  { eapply run_rel_weaken; [|apply getEntriesWritten_same_maps]. apply same_maps_keys_step. }
  intros ew st3 _ _. apply (run_rel_bind _).
  { eapply run_rel_weaken; [|apply truncateToLength_same_maps]. apply same_maps_keys_step. }
  intros _ st4 _ _. apply (run_rel_bind _).
  { apply (run_rel_when _).
    eapply run_rel_weaken; [|apply remove_changelogs_after_same_maps].
    apply same_maps_keys_step. }
  intros _ st5 _ _. apply run_rel_get_bind. rewrite rollback_fold.
  apply (run_rel_bind _).
  { apply run_rel_modify. apply (rollback_keys_step st5 idx). }
  intros _ st6 _ _. apply (run_rel_bind _).
  { eapply run_rel_weaken; [|apply setEntriesWritten_same_maps]. apply same_maps_keys_step. }
  intros _ st7 _ _. apply appendEntry_keys_step.
Qed.

Lemma replay_changelogs_keys_step from_ items v st :
  run_rel keys_step (replay_changelogs from_ items v) st.
Proof.
  unfold run_rel. pose proof (replay_changelogs_frame from_ items v st) as H.
  destruct (replay_changelogs from_ items v st); [| |done];
    destruct H as [_ H]; by apply maps_extended_keys_step.
Qed.

Lemma readChangelogAndInitWriter_keys_step from_ st :
  run_rel keys_step (readChangelogAndInitWriter from_) st.
Proof.
  unfold readChangelogAndInitWriter.
  apply (run_rel_bind _); [by apply run_rel_modify|]. intros _ st0 _ _.
  apply run_rel_get_bind. apply (run_rel_bind _); [apply replay_changelogs_keys_step|].
  intros v st1 _ _. apply (run_rel_bind _).
  { apply (run_rel_when _).
    eapply run_rel_weaken; [|apply remove_changelogs_after_same_maps].
    apply same_maps_keys_step. }
  intros _ st2 _ _. apply run_rel_get_bind.
  destruct (negb _ && _).
  - destruct (rbegin _ ≫= _) as [d|]; [|done].
    apply (run_rel_bind _); [done|]. intros _ st3 _ _.
    apply (run_rel_bind _).
    { eapply run_rel_weaken; [|apply setEntriesWritten_same_maps].
      apply same_maps_keys_step. }
    intros _ st4 _ _. apply (run_rel_when _).
    eapply run_rel_weaken; [|apply truncateToLength_same_maps]. apply same_maps_keys_step.
  - done.
Qed.

Lemma apply_entries_keys_step n :
  ∀ i idx buf sync st, run_rel keys_step (apply_entries n i idx buf sync) st.
Proof.
  induction n as [|n IH]; intros i idx buf sync st; simpl; [apply (run_rel_ret _)|].
  destruct (buffer_get_int buf) as [[buf_size buf1]|]; [|apply (run_rel_throw _)].
  destruct (negb _); [apply (run_rel_throw _)|].
  case_decide; [|apply (run_rel_throw _)].
  destruct (log_entry_deserialize _) as [e|]; [|apply (run_rel_throw _)].
  apply run_rel_get_bind. apply (run_rel_bind _).
  - destruct (_ && _); [apply writeAt_keys_step|apply appendEntry_keys_step].
  - intros _ st1 _ _. apply IH.
Qed.

Lemma applyEntriesFromBuffer_keys_step idx buffer sync st :
  run_rel keys_step (applyEntriesFromBuffer idx buffer sync) st.
Proof.
  unfold applyEntriesFromBuffer.
  destruct (buffer_get_int buffer) as [[num_logs buf]|]; [|apply (run_rel_throw _)].
  apply apply_entries_keys_step.
Qed.

(** [compact] erases the entries up to [up_to] one by one but the offsets
    segment by segment: the offsets of a retained segment stay. *)
Lemma compact_keys st up_to :
  ∃ st', compact up_to st = Done tt st'
    ∧ keys_incl_step st st'
    ∧ (dom (logs st) = dom (index_to_start_pos st) →
       ∀ k, k ∈ dom (logs st') ↔ k ∈ dom (index_to_start_pos st') ∧ up_to < k).
Proof.
  unfold compact. rewrite bind_get.
  destruct (compact_changelogs_Done up_to (items_asc (existing_changelogs st)) st)
    as (st1 & Hrun & Hl & _ & _ & Hsub & Habove & _).
  rewrite (bind_run _ _ _ _ _ Hrun).
  eexists. split; [reflexivity|]. unfold keys_incl_step. unfold_setters.
  cbn [logs index_to_start_pos]. rewrite Hl.
  assert (Hdom : ∀ k, k ∈ dom (filter (λ kv : Z * log_entry, up_to < kv.1) (logs st))
                    ↔ k ∈ dom (logs st) ∧ up_to < k).
  { intros k. rewrite !elem_of_dom. split.
    - intros [e [He ?]%map_lookup_filter_Some]. eauto.
    - intros [[e He] ?]. exists e. by apply map_lookup_filter_Some. }
  split; [split|].
  - intros Hincl k [Hk Hlt]%Hdom. apply Hincl in Hk.
    rewrite elem_of_dom in *. by rewrite Habove.
  - intros Hall k e [He _]%map_lookup_filter_Some. by eapply Hall.
  - intros Heq k. rewrite Hdom, Heq, !elem_of_dom. split.
    + intros [? ?]. by rewrite Habove.
    + intros [Hk ?]. by rewrite Habove in Hk.
Qed.

Lemma run_rel_Done {A} R (c : M A) st a st' :
  run_rel R c st → c st = Done a st' → R st st'.
Proof. unfold run_rel. intros H Hc. by rewrite Hc in H. Qed.

(** C2 (as amended). From a state in which the entries map and the
    offsets map have the same key set, a call of [appendEntry],
    [writeAt], [readChangelogAndInitWriter] or [applyEntriesFromBuffer]
    that returns leaves the two key sets equal; [compact up_to] returns
    and leaves in the entries map exactly the keys of the offsets map
    that are above [up_to]. *)
Theorem key_sets_after_operations st :
  dom (logs st) = dom (index_to_start_pos st) →
  (∀ idx e sync st', appendEntry idx e sync st = Done tt st' →
     dom (logs st') = dom (index_to_start_pos st'))
  ∧ (∀ idx e sync st', writeAt idx e sync st = Done tt st' →
       dom (logs st') = dom (index_to_start_pos st'))
  ∧ (∀ from_ st', readChangelogAndInitWriter from_ st = Done tt st' →
       dom (logs st') = dom (index_to_start_pos st'))
  ∧ (∀ idx buffer sync st', applyEntriesFromBuffer idx buffer sync st = Done tt st' →
       dom (logs st') = dom (index_to_start_pos st'))
  ∧ (∀ up_to, ∃ st', compact up_to st = Done tt st'
       ∧ ∀ k, k ∈ dom (logs st') ↔ k ∈ dom (index_to_start_pos st') ∧ up_to < k).
Proof.
  intros Heq. split_and!.
  - intros idx e sync st' Hrun.
    by apply (run_rel_Done _ _ _ _ _ (appendEntry_keys_step idx e sync st) Hrun).
  - intros idx e sync st' Hrun.
    by apply (run_rel_Done _ _ _ _ _ (writeAt_keys_step idx e sync st) Hrun).
  - intros from_ st' Hrun.
    by apply (run_rel_Done _ _ _ _ _ (readChangelogAndInitWriter_keys_step from_ st) Hrun).
  - intros idx buffer sync st' Hrun.
    by apply (run_rel_Done _ _ _ _ _ (applyEntriesFromBuffer_keys_step idx buffer sync st) Hrun).
  - intros up_to. destruct (compact_keys st up_to) as (st' & Hrun & _ & Hk).
    exists st'. split; [done|]. by apply Hk.
Qed.

(** The keys of the entries stay among the keys of the offsets, and the
    stored entries keep their buffers, through every operation. *)
Lemma keys_included_after_operations st :
  dom (logs st) ⊆ dom (index_to_start_pos st) →
  logs_have_buffers (logs st) →
  ∀ st',
    (∃ idx e sync, appendEntry idx e sync st = Done tt st')
    ∨ (∃ idx e sync, writeAt idx e sync st = Done tt st')
    ∨ (∃ from_, readChangelogAndInitWriter from_ st = Done tt st')
    ∨ (∃ idx buffer sync, applyEntriesFromBuffer idx buffer sync st = Done tt st')
    ∨ (∃ up_to, compact up_to st = Done tt st') →
    dom (logs st') ⊆ dom (index_to_start_pos st') ∧ logs_have_buffers (logs st').
Proof.
  intros Hincl Hbufs st' Hop.
  assert (keys_incl_step st st') as [H1 H2]; [|by auto].
  destruct Hop as [(idx & e & sync & Hrun)|[(idx & e & sync & Hrun)
                  |[(from_ & Hrun)|[(idx & buffer & sync & Hrun)|(up_to & Hrun)]]]].
  - by apply (run_rel_Done _ _ _ _ _ (appendEntry_keys_step idx e sync st) Hrun).
  - by apply (run_rel_Done _ _ _ _ _ (writeAt_keys_step idx e sync st) Hrun).
  - by apply (run_rel_Done _ _ _ _ _ (readChangelogAndInitWriter_keys_step from_ st) Hrun).
  - by apply (run_rel_Done _ _ _ _ _ (applyEntriesFromBuffer_keys_step idx buffer sync st) Hrun).
  - destruct (compact_keys st up_to) as (st1 & Hrun1 & Hstep & _).
    rewrite Hrun in Hrun1. by simplify_eq.
Qed.

(** ** Appending and reading back *)

Lemma appendEntry_Done idx e sync st w :
  current_writer st = Some w →
  index_to_start_pos st !! idx = None →
  is_Some (get_buf_ptr e) →
  ∃ w', current_writer (append_target idx w st) = Some w'
    ∧ appendEntry idx e sync st
      = Done tt (set_logs <[idx := e]>
                   (set_index_to_start_pos
                      <[idx := plain_buf_count w']>
                      (append_written (buildRecord idx e) w' (append_target idx w st)))).
Proof.
  intros Hw Hfree Hb.
  destruct (appendEntry_unfold idx e sync st w Hw) as (w' & Hw' & ->).
  exists w'. split; [done|]. cbv zeta.
  apply has_key_false in Hfree as ->. by rewrite makeClone_Some.
Qed.

Lemma append_all_logs sync es :
  ∀ i st,
    is_Some (current_writer st) →
    (∀ j, i ≤ j → index_to_start_pos st !! j = None) →
    Forall (λ e, is_Some (get_buf_ptr e)) es →
    ∃ st', append_all i es sync st = Done tt st'
      ∧ is_Some (current_writer st')
      ∧ ∀ j, logs st' !! j
             = if decide (i ≤ j < i + Z.of_nat (length es))
               then es !! Z.to_nat (j - i)
               else logs st !! j.
Proof.
  induction es as [|e es IH]; intros i st [w Hw] Hfree Hbufs; simpl.
  { eexists. split; [reflexivity|]. split; [by eauto|].
    intros j. case_decide; [lia|done]. }
  apply Forall_cons in Hbufs as [Hb Hbufs].
  destruct (appendEntry_Done i e sync st w Hw (Hfree i ltac:(lia)) Hb) as (w' & Hw' & Hrun).
  rewrite (bind_run _ _ _ _ _ Hrun).
  match type of Hrun with _ = Done _ ?s => set (st1 := s) in * end.
  destruct (append_target_maps i w st) as [Hl Ho].
  destruct (IH (i + 1) st1) as (st' & Hrun' & Hw'' & Hlogs); [by subst st1; eauto| |done|].
  { intros j Hj. subst st1. unfold append_written. unfold_setters.
    cbn [index_to_start_pos]. rewrite lookup_insert_ne by lia. rewrite Ho. apply Hfree. lia. }
  exists st'. split; [done|]. split; [done|].
  intros j. rewrite Hlogs. subst st1. unfold append_written. unfold_setters.
  cbn [logs]. rewrite Hl.
  destruct (decide (j = i)) as [->|Hne].
  - rewrite decide_False by lia. rewrite decide_True by lia.
    rewrite lookup_insert_eq. by replace (Z.to_nat (i - i)) with 0%nat by lia.
  - rewrite lookup_insert_ne by done.
    destruct (decide (i + 1 ≤ j < i + 1 + Z.of_nat (length es))).
    + rewrite decide_True by lia.
      replace (Z.to_nat (j - i)) with (S (Z.to_nat (j - (i + 1)))) by lia. done.
    + by rewrite decide_False by lia.
Qed.

Lemma entries_from_Done st l :
  logs_have_buffers (logs st) →
  entries_from l st = Done ((λ j, logs st !! j) <$> l) st.
Proof.
  intros Hb. induction l as [|i l IH]; simpl; [done|].
  assert (entryAt i st = Done (logs st !! i) st) as Hi.
  { unfold entryAt. rewrite bind_get. destruct (logs st !! i) as [e|] eqn:He; [|done].
    by rewrite makeClone_Some by eauto. }
  rewrite (bind_run _ _ _ _ _ Hi), (bind_run _ _ _ _ _ IH). done.
Qed.

(** C6. For every list of entries [e_1 .. e_n] appended with the
    consecutive indices [1 .. n] to an initialised changelog without
    entries, every append returns and the range read
    [getLogEntriesBetween 1 (n + 1)] returns the list whose element at
    position [k - 1] is [e_k]. An entry that is appended has a buffer:
    [appendEntry] clones the entry through [get_buf()]. *)
Theorem append_then_read st es sync :
  is_Some (current_writer st) →
  logs st = ∅ →
  index_to_start_pos st = ∅ →
  Forall (λ e, is_Some (get_buf_ptr e)) es →
  Z.of_nat (length es) + 1 < 2 ^ 64 →
  ∃ st', append_all 1 es sync st = Done tt st'
    ∧ getLogEntriesBetween 1 (Z.of_nat (length es) + 1) st' = Done (Some <$> es) st'.
Proof.
  intros Hw Hlogs Hoffs Hbufs Hn.
  destruct (append_all_logs sync es 1 st Hw) as (st' & Hrun & _ & Hl); [|done|].
  { intros j _. by rewrite Hoffs. }
  exists st'. split; [done|].
  assert (Hl' : ∀ j, logs st' !! j
                 = if decide (1 ≤ j < 1 + Z.of_nat (length es))
                   then es !! Z.to_nat (j - 1) else None).
  { intros j. rewrite Hl, Hlogs. by case_decide. }
  assert (Hb : logs_have_buffers (logs st')).
  { intros j e. rewrite Hl'. case_decide; [|done]. intros He.
    rewrite Forall_forall in Hbufs. apply Hbufs. by eapply list_elem_of_lookup_2. }
  unfold getLogEntriesBetween. destruct (1 <? Z.of_nat (length es) + 1) eqn:Hlt.
  - rewrite entries_from_Done by done. f_equal.
    apply list_eq. intros k. rewrite !list_lookup_fmap.
    replace (Z.of_nat (length es) + 1 - 1) with (Z.of_nat (length es)) by lia.
    destruct (decide (k < length es)%nat) as [Hk|Hk].
    + rewrite lookup_seqZ_lt by lia. simpl. rewrite Hl'. rewrite decide_True by lia.
      replace (Z.to_nat (1 + Z.of_nat k - 1)) with k by lia.
      destruct (lookup_lt_is_Some_2 es k Hk) as [e ->]. done.
    + rewrite lookup_seqZ_ge by lia. by rewrite lookup_ge_None_2 by lia.
  - apply Z.ltb_ge in Hlt. destruct es as [|e es]; [done|].
    rewrite length_cons in Hlt. lia.
Qed.

(** ** Paths of segments *)

Fixpoint underscore_free (s : string) : Prop :=
  match s with
  | EmptyString => True
  | String c s' => c ≠ "_"%char ∧ underscore_free s'
  end.

Lemma pretty_N_char_no_underscore x : pretty_N_char x ≠ "_"%char.
Proof. unfold pretty_N_char. by repeat case_match. Qed.

Lemma pretty_N_go_underscore_free x s :
  underscore_free s → underscore_free (pretty_N_go x s).
Proof.
  revert s. induction (N.lt_wf_0 x) as [x _ IH]; intros s Hs.
  assert (x = 0 ∨ 0 < x)%N as [->|?] by lia.
  - by rewrite pretty_N_go_0.
  - rewrite pretty_N_go_step by done. apply IH.
    + by apply N.div_lt.
    + split; [apply pretty_N_char_no_underscore|done].
Qed.

Lemma to_string_underscore_free z : underscore_free (to_string z).
Proof.
  unfold to_string, pretty, pretty_N. case_decide.
  - by split.
  - by apply pretty_N_go_underscore_free.
Qed.

Lemma underscore_split s1 s2 r1 r2 :
  underscore_free s1 → underscore_free s2 →
  s1 +:+ String "_" r1 = s2 +:+ String "_" r2 → s1 = s2.
Proof.
  revert s2. induction s1 as [|c1 s1 IH]; intros [|c2 s2]; simpl.
  - done.
  - intros _ [Hc _] [= <- _]. done.
  - intros [Hc _] _ [= -> _]. done.
  - intros [_ H1] [_ H2] [= -> Heq]. f_equal. by apply IH.
Qed.

Lemma to_string_inj a b : 0 ≤ a → 0 ≤ b → to_string a = to_string b → a = b.
Proof.
  unfold to_string. intros Ha Hb Heq. apply (inj pretty) in Heq. lia.
Qed.

Lemma formatChangelogPath_inj dir_ a ta pa b tb pb :
  0 ≤ a → 0 ≤ b →
  formatChangelogPath dir_ (FileDescription DEFAULT_PREFIX a ta pa)
  = formatChangelogPath dir_ (FileDescription DEFAULT_PREFIX b tb pb) →
  a = b.
Proof.
  intros Ha Hb. unfold formatChangelogPath, path_append. simpl prefix.
  simpl from_log_idx. simpl to_log_idx. intros Heq.
  assert (Hq : to_string a +:+ String "_" (to_string ta +:+ ".bin")
               = to_string b +:+ String "_" (to_string tb +:+ ".bin")).
  { destruct (bool_decide (dir_ = "")); [|destruct (ends_with_slash dir_)].
    - by injection Heq.
    - apply (inj (String.app dir_)) in Heq. by injection Heq.
    - apply (inj (String.app dir_)) in Heq. by injection Heq. }
  apply underscore_split in Hq; [|apply to_string_underscore_free..].
  by apply to_string_inj.
Qed.

(** ** Bounds in an ordered map *)

Lemma StronglySorted_filter_le (P : Z → Prop) `{∀ x, Decision (P x)} (l : list Z) :
  StronglySorted Z.le l → StronglySorted Z.le (filter P l).
Proof.
  induction 1 as [|x l Hl IH Hx]; [constructor|].
  rewrite filter_cons. case_decide; [|done].
  constructor; [done|]. rewrite Forall_forall in Hx. rewrite Forall_forall.
  intros y [_ Hy]%list_elem_of_filter. by apply Hx.
Qed.

Lemma sorted_head_least (l : list Z) x :
  StronglySorted Z.le l → x ∈ l → (∀ y, y ∈ l → x ≤ y) → head l = Some x.
Proof.
  intros Hs Hx Hmin. destruct l as [|h t]; [by apply elem_of_nil in Hx|].
  simpl. f_equal. apply StronglySorted_cons in Hs as [Hh _].
  rewrite Forall_forall in Hh.
  assert (x ≤ h) by (apply Hmin; apply list_elem_of_here).
  apply elem_of_cons in Hx as [->|Hx]; [done|]. specialize (Hh x Hx). lia.
Qed.

Lemma sorted_last_greatest (l : list Z) x :
  StronglySorted Z.le l → x ∈ l → (∀ y, y ∈ l → y ≤ x) → last l = Some x.
Proof.
  intros Hs Hx Hmax. destruct l as [|h t] using rev_ind; [by apply elem_of_nil in Hx|].
  rewrite last_snoc. f_equal.
  assert (h ≤ x) by (apply Hmax; set_solver).
  apply elem_of_app in Hx as [Hx|Hx%list_elem_of_singleton]; [|done].
  pose proof (StronglySorted_app_1_elem_of _ _ _ x h Hs Hx) as Hxh.
  assert (x ≤ h) by (apply Hxh; set_solver). lia.
Qed.

Lemma lower_bound_Some {V} (m : gmap Z V) k x :
  is_Some (m !! x) → k ≤ x → (∀ y, is_Some (m !! y) → k ≤ y → x ≤ y) →
  lower_bound m k = Some x.
Proof.
  intros Hx Hk Hmin. unfold lower_bound. apply sorted_head_least.
  - apply StronglySorted_filter_le, keys_asc_sorted.
  - by apply elem_of_keys_from.
  - intros y [? ?]%elem_of_keys_from. by apply Hmin.
Qed.

Lemma prev_key_Some {V} (m : gmap Z V) it x :
  is_Some (m !! x) → x < it → (∀ y, is_Some (m !! y) → y < it → y ≤ x) →
  prev_key m it = Some x.
Proof.
  intros Hx Hlt Hmax. unfold prev_key. apply sorted_last_greatest.
  - apply StronglySorted_filter_le, keys_asc_sorted.
  - apply list_elem_of_filter. split; [done|]. by apply elem_of_keys_asc.
  - intros y [? ?%elem_of_keys_asc]%list_elem_of_filter. by apply Hmax.
Qed.

(** ** Overwriting across segments *)

Lemma writeAt_reopen_Done idx st lb d :
  lower_bound (existing_changelogs st) idx = Some lb →
  (if lb =? idx then existing_changelogs st !! lb
   else prev_key (existing_changelogs st) lb ≫= (existing_changelogs st !!.)) = Some d →
  writeAt_reopen idx st
  = Done tt (set_current_writer (Some (Writer (path d) 0 (capacity d) lb))
               (set_disk (open_file (path d) Append) st)).
Proof.
  intros Hlb Hd. unfold writeAt_reopen. rewrite bind_get, Hlb, Hd. done.
Qed.

Lemma truncate_bytes_length n c : 0 ≤ n → Z.of_nat (length (truncate_bytes n c)) = n.
Proof.
  intros Hn. unfold truncate_bytes. rewrite length_app, length_take, length_replicate. lia.
Qed.

Lemma writeAt_rollback_Done idx e sync st off w lb d content :
  index_to_start_pos st !! idx = Some off →
  0 ≤ off →
  current_writer st = Some w →
  idx < w_start_index w →
  lower_bound (existing_changelogs st) idx = Some lb →
  (if lb =? idx then existing_changelogs st !! lb
   else prev_key (existing_changelogs st) lb ≫= (existing_changelogs st !!.)) = Some d →
  disk st !! path d = Some content →
  (∀ j dj, idx < j → existing_changelogs st !! j = Some dj → path dj ≠ path d) →
  is_Some (logs st !! idx) →
  is_Some (get_buf_ptr e) →
  wrap64 (capacity d - Z.of_nat (length (keys_from (logs st) idx))) ≠ rotate_interval st →
  ∃ st', writeAt idx e sync st = Done tt st'
    ∧ (∀ j, idx < j → existing_changelogs st' !! j = None)
    ∧ (∀ j, j ≤ idx → existing_changelogs st' !! j = existing_changelogs st !! j)
    ∧ (∀ j dj, idx < j → existing_changelogs st !! j = Some dj →
         disk st' !! path dj = None)
    ∧ disk st' !! path d
      = Some (truncate_bytes off content ++ encode_record (buildRecord idx e))
    ∧ (∀ j, logs st' !! j
            = if decide (j = idx) then Some e
              else if decide (idx ≤ j) then None else logs st !! j)
    ∧ index_to_start_pos st' !! idx = Some 0
    ∧ current_writer st'
      = Some (Writer (path d)
                (0 + Z.of_nat (length (encode_record (buildRecord idx e))))
                (wrap64 (wrap64 (capacity d - Z.of_nat (length (keys_from (logs st) idx))) + 1))
                lb).
Proof.
  intros Hoff Hoff0 Hw Hroll Hlb Hd Hfile Hpaths Hidx Hb Hcount.
  unfold writeAt. rewrite bind_get, Hoff.
  assert (H1 : getStartIndex st = Done (w_start_index w) st).
  { unfold getStartIndex, the_writer, bind. by rewrite Hw. }
  rewrite (bind_run _ _ _ _ _ H1). clear H1.
  apply Z.ltb_lt in Hroll as ->. unfold when.
  rewrite (bind_run _ _ _ _ _ (writeAt_reopen_Done idx st lb d Hlb Hd)).
  set (st1 := set_current_writer _ _).
  assert (H1 : getEntriesWritten st1 = Done (capacity d) st1) by done.
  rewrite (bind_run _ _ _ _ _ H1). clear H1.
  assert (H2 : truncateToLength off st1
               = Done tt (set_disk (alter (truncate_bytes off) (path d)) st1)).
  { unfold truncateToLength, the_writer, bind. simpl.
    by assert ((off <? 0) = false) as -> by lia. }
  rewrite (bind_run _ _ _ _ _ H2). clear H2.
  set (st2 := set_disk _ st1).
  destruct (remove_changelogs_after_Done idx st2)
    as (st3 & Hrm & Hdir & HR & Hl3 & Ho3 & Hs3 & Hw3 & Hgone & Hkept & Hdel & Hdisk).
  rewrite (bind_run _ _ _ _ _ Hrm). rewrite bind_get, rollback_fold, bind_modify.
  set (ks := keys_from (logs st3) idx).
  assert (Hks : ks = keys_from (logs st) idx) by (subst ks; by rewrite Hl3).
  assert (Hlen : (0 < length ks)%nat).
  { rewrite Hks. destruct (keys_from (logs st) idx) eqn:E; [|simpl; lia].
    assert (idx ∈ keys_from (logs st) idx) as Hin by (apply elem_of_keys_from; split; [lia|done]).
    rewrite E in Hin. by apply elem_of_nil in Hin. }
  rewrite iter_decrement by done.
  set (ew := wrap64 (capacity d - Z.of_nat (length ks))).
  set (st4 := set_logs _ _).
  assert (H3 : setEntriesWritten ew st4
               = Done tt (set_current_writer (Some (Writer (path d) 0 ew lb)) st4)).
  { unfold setEntriesWritten, the_writer, bind. subst st4. simpl. by rewrite Hw3. }
  rewrite (bind_run _ _ _ _ _ H3). clear H3.
  set (st5 := set_current_writer _ st4).
  assert (Hfile3 : disk st3 !! path d = Some (truncate_bytes off content)).
  { rewrite Hdisk.
    - subst st2 st1. unfold open_file. unfold_setters. simpl. rewrite Hfile.
      by rewrite lookup_alter_eq, Hfile.
    - intros j dj Hj Hdj. by apply (Hpaths j dj). }
  assert (Hfree : index_to_start_pos st5 !! idx = None).
  { subst st5 st4. unfold_setters. cbn [index_to_start_pos]. unfold ks.
    rewrite lookup_rollback_offsets.
    rewrite decide_True; [done|]. split; [lia|]. by rewrite Hl3. }
  destruct (appendEntry_Done idx e sync st5 (Writer (path d) 0 ew lb) eq_refl Hfree Hb)
    as (w' & Hw' & Hrun).
  assert (Hew : (ew =? rotate_interval st5) = false).
  { apply Z.eqb_neq. subst st5 st4 ew. unfold_setters. simpl. rewrite HR, Hks. done. }
  unfold append_target in Hw', Hrun. simpl entries_written in Hw', Hrun.
  rewrite Hew in Hw', Hrun.
  assert (w' = Writer (path d) 0 ew lb) as ->.
  { destruct (map_is_empty (logs st5)); simpl in Hw'; by simplify_eq. }
  eexists. split; [exact Hrun|]. clear Hrun Hw' Hrm.
  subst st5 st4 ew. rewrite <- Hks.
  destruct st3 as [dir3 R3 ex3 lg3 of3 si3 cw3 dk3]. simpl in *.
  unfold append_written, file_size. unfold_setters.
  assert (Hlogs : ∀ j, <[idx:=e]> (delete_keys ks lg3) !! j
                     = if decide (j = idx) then Some e
                       else if decide (idx ≤ j) then None else logs st !! j).
  { intros j. rewrite lookup_insert. destruct (decide (idx = j)) as [->|Hne].
    - by rewrite decide_True.
    - rewrite decide_False by done. unfold ks. rewrite lookup_rollback_logs.
      by rewrite Hl3. }
  destruct (map_is_empty _); simpl; split_and!; try done.
  all: try (rewrite lookup_alter_eq, Hfile3; done).
  all: try (by rewrite lookup_insert_eq).
  all: intros j dj Hj Hdj; rewrite lookup_alter_ne;
    [by apply (Hdel j dj)|intros Heq; by apply (Hpaths j dj)].
Qed.

(** The fields of the state after a successful [appendEntry], without
    or with a rotation. *)
Lemma appendEntry_fields idx e sync st w :
  current_writer st = Some w →
  index_to_start_pos st !! idx = None →
  is_Some (get_buf_ptr e) →
  ∃ st', appendEntry idx e sync st = Done tt st'
    ∧ changelogs_dir st' = changelogs_dir st
    ∧ rotate_interval st' = rotate_interval st
    ∧ logs st' = <[idx := e]> (logs st)
    ∧ if entries_written w =? rotate_interval st
      then
        let d := FileDescription DEFAULT_PREFIX idx
                   (wrap64 (idx + rotate_interval st - 1))
                   (formatChangelogPath (changelogs_dir st)
                      (FileDescription DEFAULT_PREFIX idx
                         (wrap64 (idx + rotate_interval st - 1)) "")) in
        existing_changelogs st' = <[idx := d]> (existing_changelogs st)
        ∧ disk st' = <[path d := encode_record (buildRecord idx e)]> (disk st)
        ∧ index_to_start_pos st' = <[idx := 0]> (index_to_start_pos st)
        ∧ current_writer st'
          = Some (Writer (path d) (0 + Z.of_nat (length (encode_record (buildRecord idx e))))
                    (wrap64 (0 + 1)) idx)
      else
        existing_changelogs st' = existing_changelogs st
        ∧ disk st'
          = alter (λ c, c ++ encode_record (buildRecord idx e)) (filepath w) (disk st)
        ∧ index_to_start_pos st'
          = <[idx := plain_buf_count w]> (index_to_start_pos st)
        ∧ current_writer st'
          = Some (Writer (filepath w)
                    (plain_buf_count w + Z.of_nat (length (encode_record (buildRecord idx e))))
                    (wrap64 (entries_written w + 1)) (w_start_index w)).
Proof.
  intros Hw Hfree Hb.
  destruct (appendEntry_Done idx e sync st w Hw Hfree Hb) as (w' & Hw' & Hrun).
  eexists. split; [exact Hrun|]. clear Hrun.
  unfold append_target in *.
  destruct st as [dir0 R0 ex lg ofs si cw dk]. simpl in *. subst cw.
  destruct (entries_written w =? R0), (map_is_empty lg); simpl in *; simplify_eq;
    unfold append_written, file_size; unfold_setters; simpl;
    rewrite ?lookup_insert_eq; simpl; split_and!; try done.
  all: by rewrite alter_insert_eq.
Qed.

(** [replay_full] as a computation: the results of the replays and the
    final maps when every segment is skipped or full, [None] otherwise. *)
Fixpoint replay_trace (disk_ : Disk) (from_ : Z)
    (items : list (Z * ChangelogFileDescription))
    (lg : IndexToLogEntry) (ofs : IndexToOffset)
    : option (list ChangelogReadResult * IndexToLogEntry * IndexToOffset) :=
  match items with
  | [] => Some ([], lg, ofs)
  | (_, d) :: items' =>
      if from_ <=? to_log_idx d then
        match disk_ !! path d with
        | None => None
        | Some file =>
            let '(r, lg1, ofs1) := readChangelog file lg from_ ofs in
            if entries_read r <? capacity d then None
            else
              '(rs, lg', ofs') ← replay_trace disk_ from_ items' lg1 ofs1;
              Some (r :: rs, lg', ofs')
        end
      else replay_trace disk_ from_ items' lg ofs
  end.

Lemma replay_trace_full disk_ from_ items :
  ∀ lg ofs rs lg' ofs',
    replay_trace disk_ from_ items lg ofs = Some (rs, lg', ofs') →
    replay_full disk_ from_ items lg ofs rs lg' ofs'.
Proof.
  induction items as [|[k d] items IH]; intros lg ofs rs lg' ofs'; simpl.
  { intros [= <- <- <-]. constructor. }
  destruct (from_ <=? to_log_idx d) eqn:Hto.
  - destruct (disk_ !! path d) as [file|] eqn:Hfile; [|done].
    destruct (readChangelog file lg from_ ofs) as [[r lg1] ofs1] eqn:Hread.
    destruct (entries_read r <? capacity d) eqn:Hfull; [done|].
    destruct (replay_trace disk_ from_ items lg1 ofs1) as [[[rs0 lg0] ofs0]|] eqn:Hrest;
      [|done].
    simpl. intros [= <- <- <-].
    eapply replay_full_read; [lia|done|done|lia|by apply IH].
  - intros Hrest. apply replay_full_skip; [lia|by apply IH].
Qed.

(** ** A fresh changelog filled by consecutive appends *)

Section fresh_changelog.

Context (dir_ : string) (R : Z) (sync : bool).
Hypothesis R_range : 1 ≤ R < 2 ^ 64.

(** The segment [rotate 1] creates. *)
Definition first_path : string :=
  formatChangelogPath dir_ (FileDescription DEFAULT_PREFIX 1 (wrap64 (1 + R - 1)) "").

Definition first_segment : ChangelogFileDescription :=
  FileDescription DEFAULT_PREFIX 1 (wrap64 (1 + R - 1)) first_path.

(** The state after [k] entries [es] were appended at indices [1 .. k]. *)
Record appended (k : Z) (es : list log_entry) (st : Changelog) : Prop := Appended {
  inv_dir : changelogs_dir st = dir_;
  inv_interval : rotate_interval st = R;
  inv_logs : ∀ j, logs st !! j
                  = if decide (1 ≤ j ≤ k) then es !! Z.to_nat (j - 1) else None;
  inv_offsets : ∀ j, is_Some (index_to_start_pos st !! j) ↔ 1 ≤ j ≤ k;
  inv_offsets_first : ∀ j off, index_to_start_pos st !! j = Some off → j ≤ R →
                        0 ≤ off ≤ file_size (disk st) first_path;
  inv_first : existing_changelogs st !! 1 = Some first_segment;
  inv_others : ∀ key d, existing_changelogs st !! key = Some d → key ≠ 1 →
                 R < key ∧ path d ≠ first_path;
  inv_first_file : is_Some (disk st !! first_path);
  inv_writer : ∃ w, current_writer st = Some w
                 ∧ ((k ≤ R ∧ w = Writer first_path (file_size (disk st) first_path) k 1)
                    ∨ (R < k ∧ R < w_start_index w ∧ filepath w ≠ first_path
                       ∧ is_Some (existing_changelogs st !! (R + 1))))
}.

Lemma recovered_fresh from_ :
  from_ = 0 ∨ from_ = 1 →
  ∃ st, readChangelogAndInitWriter from_ (new_Changelog dir_ R) = Done tt st
    ∧ appended 0 [] st.
Proof.
  intros Hfrom.
  assert (Hrun : readChangelogAndInitWriter from_ (new_Changelog dir_ R)
                 = Done tt (rotate_state 1 (set_start_index 1 (new_Changelog dir_ R)))).
  { destruct Hfrom as [-> | ->]; reflexivity. }
  eexists. split; [exact Hrun|]. unfold rotate_state.
  cbn [changelogs_dir rotate_interval existing_changelogs logs index_to_start_pos
       start_index current_writer disk set_start_index new_Changelog].
  fold first_path. fold first_segment.
  constructor; cbn [changelogs_dir rotate_interval existing_changelogs logs
                    index_to_start_pos start_index current_writer disk].
  - done.
  - done.
  - intros j. rewrite lookup_empty. case_decide; [lia|done].
  - intros j. rewrite lookup_empty. split; [by intros [? ?]|lia].
  - intros j off. by rewrite lookup_empty.
  - apply lookup_insert_eq.
  - intros key d. rewrite lookup_insert. case_decide; [done|]. by rewrite lookup_empty.
  - rewrite lookup_insert_eq. eauto.
  - eexists. split; [reflexivity|]. left. split; [lia|].
    unfold file_size. by rewrite lookup_insert_eq.
Qed.

Lemma file_size_nonneg d p : 0 ≤ file_size d p.
Proof. unfold file_size. lia. Qed.

Lemma file_size_alter_app_eq d p x :
  is_Some (d !! p) →
  file_size (alter (λ c, c ++ x) p d) p = file_size d p + Z.of_nat (length x).
Proof.
  intros [c Hc]. unfold file_size. rewrite lookup_alter_eq, Hc. simpl.
  rewrite length_app. lia.
Qed.

Lemma file_size_alter_app d p x :
  file_size d p ≤ file_size (alter (λ c, c ++ x) p d) p.
Proof.
  unfold file_size. rewrite lookup_alter_eq.
  destruct (d !! p); simpl; [rewrite length_app|]; lia.
Qed.

Lemma file_size_alter_ne d p q (f : list Byte.byte → list Byte.byte) :
  p ≠ q → file_size (alter f p d) q = file_size d q.
Proof. intros Hne. unfold file_size. by rewrite lookup_alter_ne. Qed.

Lemma file_size_insert_ne d p q c :
  p ≠ q → file_size (<[p := c]> d) q = file_size d q.
Proof. intros Hne. unfold file_size. by rewrite lookup_insert_ne. Qed.

Lemma rotated_path_ne st key :
  changelogs_dir st = dir_ → 0 ≤ key → key ≠ 1 →
  formatChangelogPath (changelogs_dir st)
    (FileDescription DEFAULT_PREFIX key (wrap64 (key + rotate_interval st - 1)) "")
  ≠ first_path.
Proof.
  intros -> Hkey Hne Heq. unfold first_path in Heq.
  apply formatChangelogPath_inj in Heq; lia.
Qed.

Lemma appendEntry_appended k es e st :
  appended k es st → Z.of_nat (length es) = k → is_Some (get_buf_ptr e) →
  k + 1 < 2 ^ 64 →
  ∃ st', appendEntry (k + 1) e sync st = Done tt st' ∧ appended (k + 1) (es ++ [e]) st'.
Proof.
  intros [Hdir HR Hlogs Hoffs Hfirst_off Hfirst Hothers Hfile (w & Hw & Hwriter)] Hlen Hb Hk.
  assert (Hk0 : 0 ≤ k) by lia.
  assert (Hfree : index_to_start_pos st !! (k + 1) = None).
  { apply eq_None_not_Some. rewrite Hoffs. lia. }
  destruct (appendEntry_fields (k + 1) e sync st w Hw Hfree Hb)
    as (st' & Hrun & Hdir' & HR' & Hlogs' & Hcase).
  exists st'. split; [done|].
  assert (Hlogs_new : ∀ j, logs st' !! j
                      = if decide (1 ≤ j ≤ k + 1) then (es ++ [e]) !! Z.to_nat (j - 1)
                        else None).
  { intros j. rewrite Hlogs', lookup_insert. destruct (decide (k + 1 = j)) as [<-|Hne].
    - rewrite decide_True by lia. rewrite lookup_app_r by lia.
      by replace (Z.to_nat (k + 1 - 1) - length es)%nat with 0%nat by lia.
    - rewrite Hlogs. destruct (decide (1 ≤ j ≤ k)).
      + rewrite decide_True by lia. by rewrite lookup_app_l by lia.
      + by rewrite decide_False by lia. }
  assert (Hoffs_new : ∀ off j, is_Some (<[k + 1 := off]> (index_to_start_pos st) !! j)
                         ↔ 1 ≤ j ≤ k + 1).
  { intros off j. rewrite lookup_insert. destruct (decide (k + 1 = j)) as [<-|Hne].
    - split; [lia|eauto].
    - rewrite Hoffs. lia. }
  pose proof (rotated_path_ne st (k + 1) Hdir ltac:(lia)) as Hpath.
  rewrite HR in Hcase, Hpath. cbv zeta in Hcase. simpl path in Hcase.
  set (p := formatChangelogPath _ _) in *.
  destruct (entries_written w =? R) eqn:Hfull;
    destruct Hcase as (Hex & Hdk & Hof & Hcw).
  - (* the segment of the writer is full: rotation to a segment at [k + 1] *)
    assert (Hkey : R < k + 1).
    { destruct Hwriter as [[? ->]|[? _]]; simpl in Hfull; lia. }
    assert (Hp : p ≠ first_path) by (apply Hpath; lia).
    constructor.
    + by rewrite Hdir'.
    + by rewrite HR'.
    + done.
    + intros j. rewrite Hof. apply Hoffs_new.
    + intros j off. rewrite Hof, Hdk. intros Hj HjR.
      rewrite lookup_insert_ne in Hj by lia. rewrite file_size_insert_ne by done. eauto.
    + rewrite Hex, lookup_insert_ne by lia. done.
    + intros key d. rewrite Hex, lookup_insert. case_decide.
      * intros [= <-] _. subst key. split; [lia|done].
      * apply Hothers.
    + by rewrite Hdk, lookup_insert_ne.
    + rewrite Hcw. eexists. split; [done|]. right. simpl. split_and!; [lia|lia|done|].
      rewrite Hex, lookup_insert. case_decide; [eauto|].
      destruct Hwriter as [[? ->]|(_ & _ & _ & ?)]; [simpl in Hfull; lia|done].
  - destruct Hwriter as [[HkR ->]|(HkR & Hstart & Hwpath & HR1)]; simpl in *.
    + (* the entry goes to the first segment *)
      assert (k < R) by lia.
      constructor.
      * by rewrite Hdir'.
      * by rewrite HR'.
      * done.
      * intros j. rewrite Hof. apply Hoffs_new.
      * intros j off. rewrite Hof, Hdk, lookup_insert.
        pose proof (file_size_alter_app (disk st) first_path
                      (encode_record (buildRecord (k + 1) e))).
        case_decide.
        -- intros [= <-] _. split; [apply file_size_nonneg|done].
        -- intros Hj HjR. specialize (Hfirst_off j off Hj HjR). lia.
      * by rewrite Hex.
      * intros key d. rewrite Hex. apply Hothers.
      * rewrite Hdk, lookup_alter_eq. destruct Hfile as [c ->]. simpl. eauto.
      * rewrite Hcw. eexists. split; [done|]. left. split; [lia|].
        rewrite Hdk, file_size_alter_app_eq by done.
        f_equal. apply wrap64_small. lia.
    + (* the entry goes to a later segment *)
      constructor.
      * by rewrite Hdir'.
      * by rewrite HR'.
      * done.
      * intros j. rewrite Hof. apply Hoffs_new.
      * intros j off. rewrite Hof, Hdk. intros Hj HjR.
        rewrite lookup_insert_ne in Hj by lia. rewrite file_size_alter_ne by done. eauto.
      * by rewrite Hex.
      * intros key d. rewrite Hex. apply Hothers.
      * by rewrite Hdk, lookup_alter_ne.
      * rewrite Hcw. eexists. split; [done|]. right. simpl.
        split_and!; [lia|done|done|by rewrite Hex].
Qed.

Lemma append_all_appended es' :
  ∀ k es st,
    appended k es st → Z.of_nat (length es) = k →
    Forall (λ e, is_Some (get_buf_ptr e)) es' →
    k + Z.of_nat (length es') < 2 ^ 64 →
    ∃ st', append_all (k + 1) es' sync st = Done tt st'
      ∧ appended (k + Z.of_nat (length es')) (es ++ es') st'.
Proof.
  induction es' as [|e es' IH]; intros k es st Hinv Hlen Hbufs Hk.
  { exists st. split; [done|]. simpl. rewrite app_nil_r, Z.add_0_r. done. }
  cbn [append_all]. apply Forall_cons in Hbufs as [Hb Hbufs].
  destruct (appendEntry_appended k es e st Hinv Hlen Hb) as (st1 & Hrun & Hinv1).
  { rewrite length_cons in Hk. lia. }
  rewrite (bind_run _ _ _ _ _ Hrun).
  destruct (IH (k + 1) (es ++ [e]) st1 Hinv1) as (st' & Hrun' & Hinv'); [|done| |].
  { rewrite length_app. simpl. lia. }
  { rewrite length_cons in Hk. lia. }
  exists st'. split; [done|]. rewrite <- app_assoc in Hinv'.
  replace (k + Z.of_nat (length (e :: es'))) with (k + 1 + Z.of_nat (length es'))
    by (rewrite length_cons; lia).
  exact Hinv'.
Qed.

Lemma keys_from_length_bound (lg : IndexToLogEntry) n idx :
  0 ≤ n → (∀ j, is_Some (lg !! j) → 1 ≤ j ≤ n) →
  Z.of_nat (length (keys_from lg idx)) ≤ n.
Proof.
  intros Hn Hkeys. unfold keys_from.
  pose proof (length_filter (λ x, idx ≤ x) (keys_asc lg)) as Hf.
  assert (keys_asc lg ⊆+ seqZ 1 n) as Hsub.
  { apply NoDup_submseteq; [apply keys_asc_NoDup|].
    intros j Hj%elem_of_keys_asc. apply elem_of_seqZ. specialize (Hkeys j Hj). lia. }
  apply submseteq_length in Hsub. rewrite length_seqZ in Hsub. lia.
Qed.

Lemma first_segment_capacity : capacity first_segment = R.
Proof.
  unfold capacity, first_segment. simpl.
  replace (1 + R - 1) with R by lia. rewrite (wrap64_small R) by lia.
  replace (R - 1 + 1) with R by lia. apply wrap64_small. lia.
Qed.

(** C3. In a fresh changelog with rotate interval [R], after the
    entries [e_1 .. e_n] were appended at the indices [1 .. n] with
    [n > R], the call [writeAt m e'] for an index [1 <= m <= R] (an index
    of the first segment, which holds [1 .. R]) returns; it deletes from
    the disk and from the map of segments every segment with a first
    index above that of the first segment, it cuts the file of the first
    segment at the offset recorded for [m] and writes the record of [e']
    there, and it leaves exactly the entries of the indices [1 .. m],
    the one at [m] being [e']. *)
Theorem overwrite_across_segments from_ es m e' :
  from_ = 0 ∨ from_ = 1 →
  Forall (λ e, is_Some (get_buf_ptr e)) es →
  is_Some (get_buf_ptr e') →
  R < Z.of_nat (length es) < 2 ^ 64 →
  1 ≤ m ≤ R →
  ∃ st_n st' content off,
    (readChangelogAndInitWriter from_;; append_all 1 es sync) (new_Changelog dir_ R)
    = Done tt st_n
    ∧ existing_changelogs st_n !! 1 = Some first_segment
    ∧ from_log_idx first_segment = 1
    ∧ to_log_idx first_segment = R
    ∧ disk st_n !! path first_segment = Some content
    ∧ index_to_start_pos st_n !! m = Some off
    ∧ 0 ≤ off ≤ Z.of_nat (length content)
    ∧ writeAt m e' sync st_n = Done tt st'
    ∧ (∀ k d, existing_changelogs st_n !! k = Some d → 1 < k →
         existing_changelogs st' !! k = None ∧ disk st' !! path d = None)
    ∧ existing_changelogs st' !! 1 = Some first_segment
    ∧ disk st' !! path first_segment
      = Some (take (Z.to_nat off) content ++ encode_record (buildRecord m e'))
    ∧ (∀ j, is_Some (logs st' !! j) ↔ 1 ≤ j ≤ m)
    ∧ logs st' !! m = Some e'
    ∧ (∀ j, 1 ≤ j < m → logs st' !! j = es !! Z.to_nat (j - 1)).
Proof.
  intros Hfrom Hbufs Hb' Hn Hm.
  destruct (recovered_fresh from_ Hfrom) as (st0 & Hrec & Hinv0).
  destruct (append_all_appended es 0 [] st0 Hinv0 eq_refl Hbufs) as (st_n & Happ & Hinv);
    [lia|].
  simpl in Happ, Hinv. set (n := Z.of_nat (length es)) in *.
  destruct Hinv as [Hdir HR Hlogs Hoffs Hfirst_off Hfirst Hothers [content Hfile]
                      (w & Hw & Hwriter)].
  destruct Hwriter as [[? _]|(_ & Hstart & _ & HR1)]; [lia|].
  destruct (proj2 (Hoffs m) ltac:(lia)) as [off Hoff].
  pose proof (Hfirst_off m off Hoff ltac:(lia)) as Hoffb.
  unfold file_size in Hoffb. rewrite Hfile in Hoffb. simpl in Hoffb.
  assert (Hto : to_log_idx first_segment = R).
  { simpl. replace (1 + R - 1) with R by lia. apply wrap64_small. lia. }
  assert (Hlogm : is_Some (logs st_n !! m)).
  { rewrite Hlogs, decide_True by lia. apply lookup_lt_is_Some_2. lia. }
  assert (Hdesc : ∃ lb, lower_bound (existing_changelogs st_n) m = Some lb
            ∧ (if lb =? m then existing_changelogs st_n !! lb
               else prev_key (existing_changelogs st_n) lb
                      ≫= (existing_changelogs st_n !!.)) = Some first_segment).
  { destruct (decide (m = 1)) as [->|Hm1].
    - exists 1. split.
      + apply lower_bound_Some; [by eauto|lia|]. intros y _ Hy. done.
      + by rewrite Z.eqb_refl.
    - exists (R + 1). split.
      + apply lower_bound_Some; [done|lia|]. intros y [d Hy] Hmy.
        destruct (Hothers y d Hy); lia.
      + assert ((R + 1 =? m) = false) as -> by lia.
        rewrite (prev_key_Some _ _ 1); [done|by eauto|lia|].
        intros y [d Hy] Hlt. destruct (decide (y = 1)); [lia|].
        destruct (Hothers y d Hy); [done|lia]. }
  destruct Hdesc as (lb & Hlb & Hdesc).
  assert (Hcount : wrap64 (capacity first_segment
                           - Z.of_nat (length (keys_from (logs st_n) m)))
                   ≠ rotate_interval st_n).
  { rewrite first_segment_capacity, HR.
    assert (0 < Z.of_nat (length (keys_from (logs st_n) m))).
    { destruct (keys_from (logs st_n) m) eqn:E; [|simpl; lia].
      assert (m ∈ keys_from (logs st_n) m) as Hin
        by (apply elem_of_keys_from; split; [lia|done]).
      rewrite E in Hin. by apply elem_of_nil in Hin. }
    assert (Z.of_nat (length (keys_from (logs st_n) m)) ≤ n).
    { apply keys_from_length_bound; [lia|]. intros j. rewrite Hlogs.
      case_decide; [done|]. by intros [? ?]. }
    set (len := Z.of_nat (length (keys_from (logs st_n) m))) in *.
    unfold wrap64. intros Heq. destruct (decide (len ≤ R)).
    - rewrite Z.mod_small in Heq by lia. lia.
    - assert (R - len + 2 ^ 64 = (R - len) mod 2 ^ 64) as Hmod
        by (apply (Z.mod_unique _ _ (-1)); lia).
      lia. }
  destruct (writeAt_rollback_Done m e' sync st_n off w lb first_segment content
              Hoff ltac:(lia) Hw ltac:(lia) Hlb Hdesc Hfile)
    as (st' & Hrun & Hgone & Hkept & Hdel & Hdisk & Hlogs' & _ & _); [|done|done|done|].
  { intros j dj Hj Hdj. apply (Hothers j dj Hdj). lia. }
  exists st_n, st', content, off. split_and!.
  - unfold bind. by rewrite Hrec.
  - done.
  - done.
  - done.
  - done.
  - done.
  - lia.
  - lia.
  - done.
  - intros k d Hk Hlt. destruct (Hothers k d Hk); [lia|].
    split; [apply Hgone; lia|apply (Hdel k d); [lia|done]].
  - rewrite Hkept by lia. done.
  - rewrite Hdisk. do 2 f_equal. unfold truncate_bytes.
    replace (Z.to_nat off - length content)%nat with 0%nat by lia.
    apply app_nil_r.
  - intros j. rewrite Hlogs'. destruct (decide (j = m)) as [->|?]; [split; [lia|eauto]|].
    destruct (decide (m ≤ j)); [split; [by intros [? ?]|lia]|].
    rewrite Hlogs. case_decide; [|split; [by intros [? ?]|lia]].
    split; [lia|]. intros _. apply lookup_lt_is_Some_2. lia.
  - rewrite Hlogs'. by rewrite decide_True.
  - intros j Hj. rewrite Hlogs'. rewrite decide_False by lia. rewrite decide_False by lia.
    rewrite Hlogs. by rewrite decide_True by lia.
Qed.

End fresh_changelog.

(** * Further properties of the operations *)

(** ** Version names *)

(** The two conversions of the version are inverse to each other where
    they return: [toString] returns for the version [V0] only and
    [fromString] for the string it gives only; every other argument is
    refused with [UNKNOWN_FORMAT_VERSION]. *)
Lemma version_names_round_trip :
  (∀ v s, toString v = inr s ↔ v = V0 ∧ s = "V0")
  ∧ (∀ s v, fromString s = inr v ↔ s = "V0" ∧ v = V0)
  ∧ (∀ v, v ≠ V0 → toString v = inl UNKNOWN_FORMAT_VERSION)
  ∧ (∀ s, s ≠ "V0" → fromString s = inl UNKNOWN_FORMAT_VERSION)
  ∧ (∀ v s, toString v = inr s → fromString s = inr v).
Proof.
  unfold toString, fromString. split_and!.
  - intros v s. destruct (v =? V0) eqn:Hv; split.
    + intros [= <-]. split; [lia|done].
    + by intros [_ ->].
    + done.
    + intros [-> _]. done.
  - intros s v. case_bool_decide; split.
    + intros [= <-]. done.
    + by intros [_ ->].
    + done.
    + intros [-> _]. done.
  - intros v Hv. by apply Z.eqb_neq in Hv as ->.
  - intros s Hs. by rewrite bool_decide_eq_false_2.
  - intros v s. destruct (v =? V0) eqn:Hv; [|done]. intros [= <-].
    rewrite bool_decide_eq_true_2 by done. f_equal. lia.
Qed.

(** ** Range reads over gaps *)

(** X1. For [start <= end_], on a changelog whose stored entries have
    buffers, [getLogEntriesBetween] returns [end_ - start] elements: the
    element at position [k] is the clone of the entry stored at
    [start + k], or the null pointer when no entry is stored there. A gap
    in the indices is no error, and the state is left as it was. *)
Theorem getLogEntriesBetween_range st start end_ :
  logs_have_buffers (logs st) →
  start ≤ end_ →
  ∃ l, getLogEntriesBetween start end_ st = Done l st
    ∧ Z.of_nat (length l) = end_ - start
    ∧ ∀ k, 0 ≤ k < end_ - start → l !! Z.to_nat k = Some (logs st !! (start + k)).
Proof.
  intros Hb Hle. unfold getLogEntriesBetween.
  destruct (start <? end_) eqn:Hlt.
  - rewrite entries_from_Done by done. eexists. split; [reflexivity|].
    rewrite length_fmap, length_seqZ. split; [lia|].
    intros k Hk. rewrite list_lookup_fmap, lookup_seqZ_lt by lia.
    simpl. do 2 f_equal. lia.
  - apply Z.ltb_ge in Hlt. assert (end_ = start) as -> by lia.
    rewrite Z.sub_diag. exists []. split; [done|]. split; [done|]. intros k ?. lia.
Qed.

(** ** A failed append has written its record *)

(** X2. [appendEntry] tests the index after it has rotated and written.
    When the index already has an offset, the call fails with a logical
    error, yet the record of the refused entry is in the file of the
    writer, whose counter of entries went up by one and whose count of
    bytes went up by the size of the record; when the segment was full, a
    new segment filed under the refused index was created first and holds
    that record alone. *)
Theorem duplicate_append_leaves_record st index_ e sync w content :
  current_writer st = Some w →
  disk st !! filepath w = Some content →
  is_Some (index_to_start_pos st !! index_) →
  ∃ st', appendEntry index_ e sync st = Raise LOGICAL_ERROR st'
    ∧ if entries_written w =? rotate_interval st
      then
        let d := FileDescription DEFAULT_PREFIX index_
                   (wrap64 (index_ + rotate_interval st - 1))
                   (formatChangelogPath (changelogs_dir st)
                      (FileDescription DEFAULT_PREFIX index_
                         (wrap64 (index_ + rotate_interval st - 1)) "")) in
        existing_changelogs st' = <[index_ := d]> (existing_changelogs st)
        ∧ disk st' = <[path d := encode_record (buildRecord index_ e)]> (disk st)
        ∧ current_writer st'
          = Some (Writer (path d)
                    (Z.of_nat (length (encode_record (buildRecord index_ e)))) 1 index_)
      else
        existing_changelogs st' = existing_changelogs st
        ∧ disk st'
          = <[filepath w := content ++ encode_record (buildRecord index_ e)]> (disk st)
        ∧ current_writer st'
          = Some (Writer (filepath w)
                    (plain_buf_count w
                     + Z.of_nat (length (encode_record (buildRecord index_ e))))
                    (wrap64 (entries_written w + 1)) (w_start_index w)).
Proof.
  intros Hw Hfile Hdup.
  destruct (appendEntry_unfold index_ e sync st w Hw) as (w' & Hw' & ->).
  apply has_key_true in Hdup. cbv zeta. rewrite Hdup.
  eexists. split; [reflexivity|]. clear Hdup.
  unfold append_target in *.
  destruct st as [dir0 R0 ex lg ofs si cw dk]. simpl in *. subst cw.
  destruct (entries_written w =? R0), (map_is_empty lg); simpl in *; simplify_eq;
    unfold append_written; unfold_setters; simpl; split_and!; try done.
  all: try by rewrite alter_insert_eq.
  all: apply map_eq; intros p; destruct (decide (filepath w' = p)) as [<-|Hne];
    [by rewrite lookup_alter_eq, lookup_insert_eq, Hfile
    |by rewrite lookup_alter_ne, lookup_insert_ne].
Qed.

(** ** The outcomes of recovery *)

Lemma replay_changelogs_outcome from_ items :
  ∀ v st,
    0 ≤ last_position (last_result v) →
    match replay_changelogs from_ items v st with
    | Done v' st' => same_files st st' ∧ 0 ≤ last_position (last_result v')
    | Raise e _ =>
        e = FILE_DOESNT_EXIST
        ∧ ∃ k d, (k, d) ∈ items ∧ from_ ≤ to_log_idx d ∧ disk st !! path d = None
    | Undefined => False
    end.
Proof.
  induction items as [|[k d] items IH]; intros v st Hpos; simpl; [done|].
  assert (Hnext : ∀ v' st',
    0 ≤ last_position (last_result v') → same_files st st' →
    match replay_changelogs from_ items v' st' with
    | Done v'' st'' => same_files st st'' ∧ 0 ≤ last_position (last_result v'')
    | Raise e _ =>
        e = FILE_DOESNT_EXIST
        ∧ ∃ k0 d0, (k0, d0) ∈ (k, d) :: items ∧ from_ ≤ to_log_idx d0
            ∧ disk st !! path d0 = None
    | Undefined => False
    end).
  { intros v' st' Hpos' Hsame. specialize (IH v' st' Hpos').
    destruct (replay_changelogs from_ items v' st') as [v'' st''|e st''|]; [| |done].
    - destruct IH as [Hs ?]. split; [|done].
      destruct Hsame as (?&?&?&?&?&?), Hs as (?&?&?&?&?&?).
      unfold same_files. split_and!; congruence.
    - destruct IH as (-> & k0 & d0 & Hin & Hto & Hnone). split; [done|].
      exists k0, d0. split_and!; [by apply list_elem_of_further|done|].
      destruct Hsame as (_&_&_&_&_&Hd). by rewrite <- Hd. }
  destruct (from_ <=? to_log_idx d) eqn:Hto.
  - unfold_monad. destruct (disk st !! path d) as [file|] eqn:Hfile.
    + destruct (readChangelog file (logs st) from_ (index_to_start_pos st))
        as [[r lg'] ofs'] eqn:Hread.
      pose proof (readChangelog_position_bounds _ _ _ _ _ _ _ Hread) as Hr.
      destruct (entries_read r <? _).
      * simpl. split; [done|lia].
      * apply Hnext; [simpl; lia|done].
    + split; [done|]. exists k, d. split_and!; [apply list_elem_of_here|lia|done].
  - apply Hnext; [done|done].
Qed.

Lemma rbegin_nonempty {V} (m : gmap Z V) :
  map_is_empty m = false → ∃ k v, rbegin m = Some k ∧ m !! k = Some v.
Proof.
  intros Hne. unfold rbegin.
  destruct (last (keys_asc m)) as [k|] eqn:Hlast.
  - assert (k ∈ keys_asc m) as [v Hv]%elem_of_keys_asc by by apply last_Some_elem_of.
    eauto.
  - apply last_None in Hlast.
    assert (m = ∅) as ->.
    { apply map_empty. intros k. apply eq_None_not_Some. intros Hk.
      apply elem_of_keys_asc in Hk. rewrite Hlast in Hk. by apply elem_of_nil in Hk. }
    by rewrite (proj2 (map_is_empty_true ∅)) in Hne.
Qed.

(** X3. [readChangelogAndInitWriter] either returns, and then a writer is
    open and the start index is [from_log_idx] (1 when that is 0), or it
    fails with [FILE_DOESNT_EXIST] because a segment that it has to
    replay has no file. It has no other failure, and it dereferences no
    null or end pointer, whatever the segments and the content of their
    files. *)
Theorem recovery_outcome from_ st :
  match readChangelogAndInitWriter from_ st with
  | Done _ st' =>
      is_Some (current_writer st')
      ∧ start_index st' = (if from_ =? 0 then 1 else from_)
  | Raise e _ =>
      e = FILE_DOESNT_EXIST
      ∧ ∃ k d, existing_changelogs st !! k = Some d ∧ from_ ≤ to_log_idx d
          ∧ disk st !! path d = None
  | Undefined => False
  end.
Proof.
  unfold readChangelogAndInitWriter. rewrite bind_modify, bind_get.
  set (st0 := set_start_index _ st).
  pose proof (replay_changelogs_outcome from_ (items_asc (existing_changelogs st0))
                (RecoveryVars 0 0 0 (ReadResult 0 0 false)) st0 ltac:(done)) as Hscan.
  unfold bind at 1.
  destruct (replay_changelogs _ _ _ st0) as [v st1|e st1|]; [| |done].
  2:{ destruct Hscan as (-> & k & d & Hin & Hto & Hnone). split; [done|].
      exists k, d. by apply elem_of_items_asc in Hin. }
  destruct Hscan as [(_ & _ & Hex & Hsi & _ & _) Hpos].
  assert (Hrm : ∃ st2, when (negb (incomplete_log_idx v =? 0))
                         (remove_changelogs_after (incomplete_log_idx v)) st1 = Done tt st2
                  ∧ start_index st2 = start_index st1).
  { unfold when. destruct (negb _); [|by eexists].
    destruct (remove_changelogs_after_Done (incomplete_log_idx v) st1)
      as (st2 & -> & _ & _ & _ & _ & ? & _). eauto. }
  destruct Hrm as (st2 & Hrm & Hsi2). rewrite (bind_run _ _ _ _ _ Hrm), bind_get.
  assert (Hstart : start_index st2 = (if from_ =? 0 then 1 else from_)).
  { by rewrite Hsi2, Hsi. }
  destruct (negb (map_is_empty (existing_changelogs st2))) eqn:Hne; cbn [andb].
  2:{ rewrite rotate_eq. simpl. split; [by eauto|done]. }
  destruct (entries_read (last_result v) <? entries_in_last v).
  2:{ rewrite rotate_eq. simpl. split; [by eauto|done]. }
  apply negb_true_iff in Hne.
  destruct (rbegin_nonempty _ Hne) as (k & d & -> & Hd). simpl. rewrite Hd.
  clear Hrm. destruct st2 as [dir2 R2 ex2 lg2 of2 si2 cw2 dk2]. simpl in *.
  unfold new_ChangelogWriter, truncateToLength. unfold_monad. simpl.
  destruct (error (last_result v)); simpl; [|by eauto].
  assert ((last_position (last_result v) <? 0) = false) as -> by lia.
  simpl. by eauto.
Qed.

(** ** What the reader adds *)

Lemma readChangelog_loop_adds start_log_idx :
  ∀ fuel buf pos previous_index res lg ofs r lg' ofs',
    0 ≤ pos →
    readChangelog_loop fuel buf pos previous_index res lg start_log_idx ofs = (r, lg', ofs') →
    lg ⊆ lg'
    ∧ ∀ k, (lg' !! k = lg !! k ∧ ofs' !! k = ofs !! k)
           ∨ (lg !! k = None ∧ start_log_idx ≤ k
              ∧ (∃ e, lg' !! k = Some e ∧ is_Some (get_buf_ptr e))
              ∧ ∃ off, ofs' !! k = Some off ∧ pos ≤ off).
Proof.
  induction fuel as [|fuel IH]; intros buf pos prev res lg ofs r lg' ofs' Hpos Hrun;
    simpl in Hrun.
  { injection Hrun as <- <- <-. split; [done|]. by left. }
  destruct buf as [|b0 buf'].
  { injection Hrun as <- <- <-. split; [done|]. by left. }
  destruct (read_record (b0 :: buf')) as [[[h b] rest]|] eqn:Hrec.
  2:{ injection Hrun as <- <- <-. split; [done|]. by left. }
  apply read_record_Some in Hrec as (Hbs & _ & _).
  destruct (negb (prev =? 0) && negb (wrap64 (prev + 1) =? index h)).
  { injection Hrun as <- <- <-. split; [done|]. by left. }
  destruct (bool_decide (CityHash128 b = blob_checksum h)); simpl in Hrun.
  2:{ injection Hrun as <- <- <-. split; [done|]. by left. }
  destruct (has_key lg (index h)) eqn:Hdup.
  { injection Hrun as <- <- <-. split; [done|]. by left. }
  apply has_key_false in Hdup.
  assert (Hpos' : 0 ≤ pos + HEADER_SIZE + blob_size h) by (unfold HEADER_SIZE; lia).
  destruct (index h <? start_log_idx) eqn:Hskip.
  - destruct (IH _ _ _ _ _ _ _ _ _ Hpos' Hrun) as [Hsub Hk]. split; [done|].
    intros k. destruct (Hk k) as [?|(? & ? & ? & off & ? & ?)]; [by left|right].
    split_and!; try done. exists off. split; [done|]. unfold HEADER_SIZE in *. lia.
  - destruct (IH _ _ _ _ _ _ _ _ _ Hpos' Hrun) as [Hsub Hk]. split.
    { etrans; [|exact Hsub]. by apply insert_subseteq. }
    apply Z.ltb_ge in Hskip.
    intros k. destruct (decide (k = index h)) as [->|Hne].
    + right. split; [done|]. split; [done|].
      destruct (Hk (index h)) as [[Hl Ho]|(Hl & _)].
      * rewrite lookup_insert_eq in Hl. rewrite lookup_insert_eq in Ho.
        split; [by eauto|]. exists pos. split; [done|lia].
      * by rewrite lookup_insert_eq in Hl.
    + destruct (Hk k) as [[Hl Ho]|(Hl & ? & ? & off & ? & ?)].
      * left. rewrite lookup_insert_ne in Hl by done.
        by rewrite lookup_insert_ne in Ho.
      * right. rewrite lookup_insert_ne in Hl by done. split_and!; try done.
        exists off. split; [done|]. unfold HEADER_SIZE in *. lia.
Qed.

(** X4. [readChangelog] only adds to the two maps. Every entry that was in
    the map of entries is still there, unchanged; at every index either
    both maps are as they were, or the index was not stored, is not below
    [start_log_idx], and now has an entry with a buffer and an offset
    that is not negative. *)
Theorem readChangelog_only_adds file lg start_log_idx ofs :
  ∃ r lg' ofs',
    readChangelog file lg start_log_idx ofs = (r, lg', ofs')
    ∧ lg ⊆ lg'
    ∧ ∀ k, (lg' !! k = lg !! k ∧ ofs' !! k = ofs !! k)
           ∨ (lg !! k = None ∧ start_log_idx ≤ k
              ∧ (∃ e, lg' !! k = Some e ∧ is_Some (get_buf_ptr e))
              ∧ ∃ off, ofs' !! k = Some off ∧ 0 ≤ off).
Proof.
  destruct (readChangelog file lg start_log_idx ofs) as [[r lg'] ofs'] eqn:Hrun.
  exists r, lg', ofs'. split; [done|].
  by apply (readChangelog_loop_adds start_log_idx _ _ 0 _ _ _ _ _ _ _ ltac:(done) Hrun).
Qed.

(** ** Records written and read back *)

Lemma Z_of_byte_of_Z z : Z_of_byte (byte_of_Z z) = z mod 256.
Proof.
  unfold Z_of_byte, byte_of_Z.
  assert (0 ≤ z mod 256 < 256) as Hr by (apply Z.mod_pos_bound; lia).
  destruct (Byte.of_N (Z.to_N (z mod 256))) as [b|] eqn:Hb.
  - apply Byte.to_of_N in Hb. simpl. rewrite Hb. lia.
  - apply Byte.of_N_None_iff in Hb. lia.
Qed.

Lemma length_le_encode w z : length (le_encode w z) = w.
Proof. revert z. induction w as [|w IH]; intros z; simpl; [done|]. by rewrite IH. Qed.

Lemma le_decode_encode w z : le_decode (le_encode w z) = z mod 256 ^ Z.of_nat w.
Proof.
  revert z. induction w as [|w IH]; intros z.
  - simpl. by rewrite Z.mod_1_r.
  - cbn [le_encode le_decode]. rewrite IH, Z_of_byte_of_Z.
    rewrite Nat2Z.inj_succ, Z.pow_succ_r by lia.
    rewrite Z.rem_mul_r by lia. done.
Qed.

Local Arguments le_encode : simpl never.
Local Arguments le_decode : simpl never.
Local Arguments read_int : simpl never.

Lemma read_int_encode w z buf :
  0 ≤ z < 256 ^ Z.of_nat w →
  read_int w (le_encode w z ++ buf) = Some (z, buf).
Proof.
  intros Hz. unfold read_int. rewrite decide_True.
  - rewrite take_app_length', drop_app_length' by (by rewrite length_le_encode).
    rewrite le_decode_encode, Z.mod_small by done. done.
  - rewrite length_app, length_le_encode. lia.
Qed.

(** The fields of a header fit their widths. *)
Definition header_fits (h : ChangelogRecordHeader) : Prop :=
  0 ≤ version h < 2 ^ 8 ∧ 0 ≤ index h < 2 ^ 64 ∧ 0 ≤ term h < 2 ^ 64
  ∧ 0 ≤ value_type h < 2 ^ 32 ∧ 0 ≤ blob_size h < 2 ^ 64
  ∧ 0 ≤ (blob_checksum h).1 < 2 ^ 64 ∧ 0 ≤ (blob_checksum h).2 < 2 ^ 64.

Lemma length_encode_header h : Z.of_nat (length (encode_header h)) = HEADER_SIZE.
Proof.
  unfold encode_header, encode_checksum. rewrite !length_app, !length_le_encode. done.
Qed.

Lemma read_record_encode_header h buf :
  header_fits h →
  read_record (encode_header h ++ buf)
  = if buffer_alloc_fits (blob_size h) then
      if decide (Z.to_nat (blob_size h) ≤ length buf)%nat
      then Some (h, take (Z.to_nat (blob_size h)) buf, drop (Z.to_nat (blob_size h)) buf)
      else None
    else None.
Proof.
  intros (Hv & Hi & Ht & Hvt & Hb & Hc1 & Hc2).
  unfold read_record, encode_header, encode_checksum.
  rewrite <- !(assoc_L (++)).
  do 7 (rewrite read_int_encode by (simpl; lia); cbn [mbind option_bind]).
  by destruct h as [v i t vt bs [c1 c2]].
Qed.

(** An entry that the writer and the reader carry without loss: it has
    a buffer of a size that [nuraft::buffer::alloc] accepts, and its term,
    its value type and the two halves of the checksum of its buffer fit
    the fields of the header. *)
Definition entry_fits (e : log_entry) : bool :=
  match get_buf_ptr e with
  | Some b =>
      bool_decide (0 ≤ get_term e < 2 ^ 64)
      && bool_decide (0 ≤ get_val_type e < 2 ^ 32)
      && bool_decide (Z.of_nat (length b) < 2 ^ 64)
      && buffer_alloc_fits (Z.of_nat (length b))
      && bool_decide (0 ≤ (CityHash128 b).1 < 2 ^ 64)
      && bool_decide (0 ≤ (CityHash128 b).2 < 2 ^ 64)
  | None => false
  end.

Lemma entry_fits_true e :
  entry_fits e = true →
  ∃ b, e = LogEntry (get_term e) (Some b) (get_val_type e)
    ∧ 0 ≤ get_term e < 2 ^ 64 ∧ 0 ≤ get_val_type e < 2 ^ 32
    ∧ Z.of_nat (length b) < 2 ^ 64
    ∧ buffer_alloc_fits (Z.of_nat (length b)) = true
    ∧ 0 ≤ (CityHash128 b).1 < 2 ^ 64 ∧ 0 ≤ (CityHash128 b).2 < 2 ^ 64.
Proof.
  unfold entry_fits. destruct e as [t [b|] v]; simpl; [|done].
  rewrite !andb_true_iff, !bool_decide_eq_true. intros [[[[[? ?] ?] ?] ?] ?].
  exists b. split_and!; first [done|lia].
Qed.

Lemma entry_fits_buffer e : entry_fits e = true → is_Some (get_buf_ptr e).
Proof. intros (b & -> & _)%entry_fits_true. simpl. eauto. Qed.

Definition record_size (e : log_entry) : Z :=
  HEADER_SIZE + Z.of_nat (length (default [] (get_buf_ptr e))).

Lemma length_encode_record i e :
  is_Some (get_buf_ptr e) →
  Z.of_nat (length (encode_record (buildRecord i e))) = record_size e.
Proof.
  intros [b Hb]. unfold encode_record, buildRecord, record_size. rewrite Hb.
  cbn [header blob blob_size default].
  rewrite length_app, Nat2Z.inj_add, length_encode_header.
  destruct (Z.of_nat (length b) =? 0) eqn:Hz; [|done].
  apply Z.eqb_eq in Hz. simpl. lia.
Qed.

(** One record written by [appendRecord] for [buildRecord i e], read back
    by the reads of one iteration of the reader. *)
Lemma read_record_encode_record i e buf :
  entry_fits e = true → 0 ≤ i < 2 ^ 64 →
  ∃ h, read_record (encode_record (buildRecord i e) ++ buf)
       = Some (h, default [] (get_buf_ptr e), buf)
    ∧ index h = i ∧ term h = get_term e ∧ value_type h = get_val_type e
    ∧ blob_size h = Z.of_nat (length (default [] (get_buf_ptr e)))
    ∧ blob_checksum h = CityHash128 (default [] (get_buf_ptr e)).
Proof.
  intros (b & He & Ht & Hv & Hlen & Hfits & Hc1 & Hc2)%entry_fits_true Hi.
  destruct e as [t bo v]. cbn [get_buf_ptr get_term get_val_type] in *.
  injection He as ->. unfold buildRecord, encode_record.
  cbn [get_buf_ptr get_term get_val_type header blob blob_size default from_option id].
  assert (Hblob : (if Z.of_nat (length b) =? 0 then [] else b) = b).
  { destruct (Z.of_nat (length b) =? 0) eqn:Hz; [|done].
    apply Z.eqb_eq in Hz. destruct b; [done|simpl in Hz; lia]. }
  rewrite Hblob, <- (assoc_L (++)).
  rewrite read_record_encode_header.
  2:{ unfold header_fits, CURRENT_CHANGELOG_VERSION, V0. simpl. split_and!; lia. }
  cbn [blob_size]. rewrite Hfits, Nat2Z.id.
  rewrite decide_True by (rewrite length_app; lia).
  rewrite take_app_length, drop_app_length.
  eexists. split; [reflexivity|]. by split_and!.
Qed.

(** The bytes that appends at the consecutive indices [i], [i + 1], ...
    put in a file, and their number. *)
Fixpoint encode_entries (i : Z) (es : list log_entry) : list Byte.byte :=
  match es with
  | [] => []
  | e :: es' => encode_record (buildRecord i e) ++ encode_entries (i + 1) es'
  end.

Fixpoint entries_size (es : list log_entry) : Z :=
  match es with
  | [] => 0
  | e :: es' => record_size e + entries_size es'
  end.

(** What the reader stores for the records of [es], filed from the index
    [i] on, the first of them at the offset [pos]: the entries below
    [start_log_idx] are left out. *)
Fixpoint store_entries (start_log_idx i pos : Z) (es : list log_entry)
    (lg : IndexToLogEntry) (ofs : IndexToOffset) : IndexToLogEntry * IndexToOffset :=
  match es with
  | [] => (lg, ofs)
  | e :: es' =>
      if i <? start_log_idx
      then store_entries start_log_idx (i + 1) (pos + record_size e) es' lg ofs
      else store_entries start_log_idx (i + 1) (pos + record_size e) es'
             (<[i := e]> lg) (<[i := pos]> ofs)
  end.

(** The result of the reader after the records of [es], the first of
    them at the offset [pos]. *)
Definition read_entries_result (res : ChangelogReadResult) (pos : Z) (es : list log_entry)
    : ChangelogReadResult :=
  match es with
  | [] => res
  | _ :: _ =>
      ReadResult (wrap64 (entries_read res + Z.of_nat (length es)))
        (pos + entries_size (removelast es)) (error res)
  end.

Lemma record_size_pos e : HEADER_SIZE ≤ record_size e.
Proof. unfold record_size. lia. Qed.

Lemma entries_size_nonneg es : 0 ≤ entries_size es.
Proof.
  induction es as [|e es IH]; simpl; [done|].
  pose proof (record_size_pos e). unfold HEADER_SIZE in *. lia.
Qed.

Lemma entries_size_length es : HEADER_SIZE * Z.of_nat (length es) ≤ entries_size es.
Proof.
  induction es as [|e es IH]; [done|]. cbn [entries_size length].
  pose proof (record_size_pos e). unfold HEADER_SIZE in *. lia.
Qed.

Lemma entries_size_app es1 es2 :
  entries_size (es1 ++ es2) = entries_size es1 + entries_size es2.
Proof. induction es1 as [|e es1 IH]; simpl; [done|]. lia. Qed.

Lemma length_encode_entries i es :
  Forall (λ e, is_Some (get_buf_ptr e)) es →
  Z.of_nat (length (encode_entries i es)) = entries_size es.
Proof.
  intros Hb. revert i. induction Hb as [|e es He _ IH]; intros i; [done|].
  cbn [encode_entries entries_size].
  by rewrite length_app, Nat2Z.inj_add, length_encode_record, IH.
Qed.

Lemma encode_entries_app i es1 es2 :
  encode_entries i (es1 ++ es2)
  = encode_entries i es1 ++ encode_entries (i + Z.of_nat (length es1)) es2.
Proof.
  revert i. induction es1 as [|e es1 IH]; intros i.
  - simpl. by rewrite Z.add_0_r.
  - cbn [app encode_entries length]. rewrite IH, <- (assoc_L (++)).
    do 3 f_equal. lia.
Qed.

Lemma Forall_entry_fits_buffers es :
  Forall (λ e, entry_fits e = true) es → Forall (λ e, is_Some (get_buf_ptr e)) es.
Proof. intros H. eapply Forall_impl; [exact H|]. intros e. apply entry_fits_buffer. Qed.

Local Arguments encode_record : simpl never.
Local Arguments buildRecord : simpl never.
Local Arguments read_record : simpl never.

(** One iteration of the loop of the reader on a record that decodes and
    passes the three checks. *)
Lemma readChangelog_loop_step fuel buf pos prev res lg s ofs h b rest :
  read_record buf = Some (h, b, rest) →
  prev = 0 ∨ wrap64 (prev + 1) = index h →
  CityHash128 b = blob_checksum h →
  lg !! index h = None →
  readChangelog_loop (S fuel) buf pos prev res lg s ofs
  = let res' := ReadResult (wrap64 (entries_read res + 1)) pos (error res) in
    if index h <? s
    then readChangelog_loop fuel rest (pos + HEADER_SIZE + blob_size h) (index h) res'
           lg s ofs
    else readChangelog_loop fuel rest (pos + HEADER_SIZE + blob_size h) (index h) res'
           (<[index h := LogEntry (term h) (Some b) (value_type h)]> lg) s
           (<[index h := pos]> ofs).
Proof.
  intros Hrec Hprev Hsum Hfree.
  pose proof (read_record_Some _ _ _ _ Hrec) as (Hbs & Hlen & _).
  destruct buf as [|b0 buf']; [simpl in Hlen; unfold HEADER_SIZE in Hlen; lia|].
  cbn [readChangelog_loop]. rewrite Hrec.
  assert (negb (prev =? 0) && negb (wrap64 (prev + 1) =? index h) = false) as ->.
  { apply andb_false_iff. destruct Hprev as [->|<-].
    - by left.
    - right. by rewrite Z.eqb_refl. }
  rewrite bool_decide_eq_true_2 by done. cbn [negb].
  apply has_key_false in Hfree as ->. done.
Qed.

Lemma readChangelog_loop_entries s es :
  ∀ i fuel tail pos prev res lg ofs,
    Forall (λ e, entry_fits e = true) es →
    0 ≤ i → i + Z.of_nat (length es) < 2 ^ 64 →
    prev = 0 ∨ wrap64 (prev + 1) = i →
    (∀ j, i ≤ j < i + Z.of_nat (length es) → lg !! j = None) →
    readChangelog_loop (length es + fuel) (encode_entries i es ++ tail) pos prev res lg s ofs
    = readChangelog_loop fuel tail (pos + entries_size es)
        (match es with [] => prev | _ :: _ => i + Z.of_nat (length es) - 1 end)
        (read_entries_result res pos es)
        (store_entries s i pos es lg ofs).1 s (store_entries s i pos es lg ofs).2.
Proof.
  induction es as [|e es IH]; intros i fuel tail pos prev res lg ofs Hfit Hi Hn Hprev Hfree.
  { simpl. by rewrite Z.add_0_r. }
  apply Forall_cons in Hfit as [He Hfit].
  cbn [length] in Hn, Hfree. rewrite Nat2Z.inj_succ in Hn, Hfree.
  destruct (read_record_encode_record i e (encode_entries (i + 1) es ++ tail) He)
    as (h & Hrec & Hidx & Hterm & Hvt & Hbs & Hsum); [lia|].
  cbn [encode_entries length Nat.add]. rewrite <- (assoc_L (++)).
  rewrite (readChangelog_loop_step _ _ _ _ _ _ _ _ h _ _ Hrec);
    [|by rewrite Hidx|done|rewrite Hidx; apply Hfree; lia].
  cbv zeta. rewrite Hidx, Hterm, Hvt, Hbs.
  assert (Hsize : pos + HEADER_SIZE + Z.of_nat (length (default [] (get_buf_ptr e)))
                  = pos + record_size e) by (unfold record_size; lia).
  rewrite Hsize.
  assert (Hentry : LogEntry (get_term e) (Some (default [] (get_buf_ptr e))) (get_val_type e)
                   = e).
  { apply entry_fits_buffer in He as [b Hb]. destruct e as [t bo v]. simpl in *.
    by subst bo. }
  rewrite Hentry.
  assert (Hnext : wrap64 (i + 1) = i + 1) by (apply wrap64_small; lia).
  assert (Hres :
    read_entries_result (ReadResult (wrap64 (entries_read res + 1)) pos (error res))
      (pos + record_size e) es
    = read_entries_result res pos (e :: es)).
  { unfold read_entries_result. destruct es as [|e' es'].
    - simpl. by rewrite Z.add_0_r.
    - cbn [entries_read error]. rewrite wrap64_add_l.
      cbn [removelast entries_size length]. f_equal; [f_equal|]; lia. }
  assert (Hprev' : match es with
                   | [] => i
                   | _ :: _ => i + 1 + Z.of_nat (length es) - 1
                   end
                   = i + Z.succ (Z.of_nat (length es)) - 1).
  { destruct es; simpl; lia. }
  cbn [store_entries entries_size].
  destruct (i <? s) eqn:Hskip.
  - rewrite IH; [|done|lia|lia|by right|intros j Hj; apply Hfree; lia].
    rewrite Hres, Hprev'. f_equal; lia.
  - rewrite IH; [|done|lia|lia|by right|].
    + rewrite Hres, Hprev'. f_equal; lia.
    + intros j Hj. rewrite lookup_insert_ne by lia. apply Hfree. lia.
Qed.

Lemma store_entries_lookup s es :
  ∀ i pos lg ofs j,
    (store_entries s i pos es lg ofs).1 !! j
    = (if decide (i ≤ j < i + Z.of_nat (length es) ∧ s ≤ j)
       then es !! Z.to_nat (j - i) else lg !! j)
    ∧ (store_entries s i pos es lg ofs).2 !! j
      = (if decide (i ≤ j < i + Z.of_nat (length es) ∧ s ≤ j)
         then Some (pos + entries_size (take (Z.to_nat (j - i)) es)) else ofs !! j).
Proof.
  induction es as [|e es IH]; intros i pos lg ofs j.
  { cbn [store_entries length]. split; (case_decide; [lia|done]). }
  cbn [store_entries length]. rewrite Nat2Z.inj_succ.
  destruct (i <? s) eqn:Hskip.
  - destruct (IH (i + 1) (pos + record_size e) lg ofs j) as [-> ->].
    destruct (decide (i + 1 ≤ j < i + 1 + Z.of_nat (length es) ∧ s ≤ j)).
    + rewrite !decide_True by lia.
      replace (Z.to_nat (j - i)) with (S (Z.to_nat (j - (i + 1)))) by lia.
      cbn [lookup list_lookup take entries_size]. split; [done|]. f_equal. lia.
    + rewrite !decide_False by lia. done.
  - destruct (IH (i + 1) (pos + record_size e) (<[i := e]> lg) (<[i := pos]> ofs) j)
      as [-> ->].
    destruct (decide (i + 1 ≤ j < i + 1 + Z.of_nat (length es) ∧ s ≤ j)).
    + rewrite !decide_True by lia.
      replace (Z.to_nat (j - i)) with (S (Z.to_nat (j - (i + 1)))) by lia.
      cbn [lookup list_lookup take entries_size]. split; [done|]. f_equal. lia.
    + destruct (decide (j = i)) as [->|Hne].
      * rewrite !decide_True by lia. rewrite !lookup_insert_eq, Z.sub_diag. simpl.
        split; [done|]. f_equal. lia.
      * rewrite !decide_False by lia. by rewrite !lookup_insert_ne.
Qed.

Lemma readChangelog_entries_eq i es lg s ofs :
  Forall (λ e, entry_fits e = true) es →
  0 ≤ i → i + Z.of_nat (length es) < 2 ^ 64 →
  (∀ j, i ≤ j < i + Z.of_nat (length es) → lg !! j = None) →
  readChangelog (encode_entries i es) lg s ofs
  = (read_entries_result (ReadResult 0 0 false) 0 es,
     (store_entries s i 0 es lg ofs).1, (store_entries s i 0 es lg ofs).2).
Proof.
  intros Hfit Hi Hn Hfree. unfold readChangelog.
  pose proof (length_encode_entries i es (Forall_entry_fits_buffers es Hfit)) as Hlen.
  pose proof (entries_size_length es) as Hsz. unfold HEADER_SIZE in Hsz.
  replace (S (length (encode_entries i es)))
    with (length es + (S (length (encode_entries i es)) - length es))%nat by lia.
  rewrite <- (app_nil_r (encode_entries i es)) at 2.
  rewrite readChangelog_loop_entries by (done || by left).
  by destruct (S _ - _)%nat.
Qed.

Lemma readChangelog_entries_tail i es tail lg s ofs :
  Forall (λ e, entry_fits e = true) es →
  0 ≤ i → i + Z.of_nat (length es) < 2 ^ 64 →
  (∀ j, i ≤ j < i + Z.of_nat (length es) → lg !! j = None) →
  tail ≠ [] → read_record tail = None →
  readChangelog (encode_entries i es ++ tail) lg s ofs
  = (ReadResult (entries_read (read_entries_result (ReadResult 0 0 false) 0 es))
       (entries_size es) true,
     (store_entries s i 0 es lg ofs).1, (store_entries s i 0 es lg ofs).2).
Proof.
  intros Hfit Hi Hn Hfree Htail Hnone. unfold readChangelog.
  pose proof (length_encode_entries i es (Forall_entry_fits_buffers es Hfit)) as Hlen.
  pose proof (entries_size_length es) as Hsz. unfold HEADER_SIZE in Hsz.
  destruct tail as [|b0 tail]; [done|].
  rewrite length_app. cbn [length].
  replace (S (length (encode_entries i es) + S (length tail)))
    with (length es + S (S (length (encode_entries i es)) + length tail - length es))%nat
    by lia.
  rewrite readChangelog_loop_entries by (done || by left).
  cbn [readChangelog_loop]. rewrite Hnone. unfold with_error. cbn [entries_read last_position].
  by rewrite Z.add_0_l.
Qed.

(** A record cut short does not decode. *)
Lemma read_record_torn i e cut :
  entry_fits e = true → 0 ≤ i < 2 ^ 64 → 0 ≤ cut < record_size e →
  read_record (take (Z.to_nat cut) (encode_record (buildRecord i e))) = None.
Proof.
  intros He Hi Hcut.
  destruct (read_record (take _ _)) as [[[h b] rest]|] eqn:Hrec; [exfalso|done].
  pose proof (read_record_Some _ _ _ _ Hrec) as (Hbs & Hlen & _).
  pose proof (length_encode_record i e (entry_fits_buffer e He)) as Hsize.
  rewrite length_take in Hlen.
  apply entry_fits_true in He as (b' & He & Ht & Hv & Hb & Hfits & Hc1 & Hc2).
  destruct e as [t bo v]. cbn [get_buf_ptr get_term get_val_type] in *. injection He as ->.
  unfold record_size in *. cbn [get_buf_ptr default from_option id] in *.
  revert Hrec. unfold buildRecord, encode_record.
  cbn [get_buf_ptr get_term get_val_type header blob blob_size default from_option id].
  assert (Hblob : (if Z.of_nat (length b') =? 0 then [] else b') = b').
  { destruct (Z.of_nat (length b') =? 0) eqn:Hz; [|done].
    apply Z.eqb_eq in Hz. destruct b'; [done|simpl in Hz; lia]. }
  rewrite Hblob.
  match goal with |- context [encode_header ?h0] => set (h' := h0) end.
  pose proof (length_encode_header h') as Hh. unfold HEADER_SIZE in *.
  rewrite take_app_ge by lia.
  rewrite read_record_encode_header.
  2:{ subst h'. unfold header_fits, CURRENT_CHANGELOG_VERSION, V0. simpl. split_and!; lia. }
  subst h'. cbn [blob_size]. rewrite Hfits, Nat2Z.id.
  rewrite decide_False; [done|]. rewrite length_take. lia.
Qed.

(** X5. Round trip of the writer and the reader. A file that holds the
    records written for the entries [es] at the consecutive indices from
    [i] is read back in full: the reader counts every record, reports no
    error and the start of the last record, and stores under each index
    that is not below [start_log_idx] the entry that was written and the
    offset of its record. The entries are such that their fields fit the
    header, and their indices are not yet in the map. *)
Theorem readChangelog_written_entries i es lg s ofs :
  Forall (λ e, entry_fits e = true) es →
  0 ≤ i → i + Z.of_nat (length es) < 2 ^ 64 →
  (∀ j, i ≤ j < i + Z.of_nat (length es) → lg !! j = None) →
  ∃ r lg' ofs',
    readChangelog (encode_entries i es) lg s ofs = (r, lg', ofs')
    ∧ entries_read r = Z.of_nat (length es)
    ∧ error r = false
    ∧ last_position r = entries_size (removelast es)
    ∧ (∀ j, lg' !! j
            = if decide (i ≤ j < i + Z.of_nat (length es) ∧ s ≤ j)
              then es !! Z.to_nat (j - i) else lg !! j)
    ∧ (∀ j, ofs' !! j
            = if decide (i ≤ j < i + Z.of_nat (length es) ∧ s ≤ j)
              then Some (entries_size (take (Z.to_nat (j - i)) es)) else ofs !! j).
Proof.
  intros Hfit Hi Hn Hfree. rewrite readChangelog_entries_eq by done.
  eexists _, _, _. split; [reflexivity|]. split_and!.
  - destruct es as [|e es]; [done|]. cbn [read_entries_result entries_read].
    rewrite Z.add_0_l. apply wrap64_small. lia.
  - by destruct es.
  - destruct es as [|e es]; [done|]. cbn [read_entries_result last_position]. lia.
  - intros j. apply store_entries_lookup.
  - intros j. destruct (store_entries_lookup s es i 0 lg ofs j) as [_ ->].
    case_decide; [|done]. by rewrite Z.add_0_l.
Qed.

(** X6. Torn tail. When the records of [es] are followed by a record that
    was cut short (any number of its bytes but not all of them), the
    reader stores the entries of [es] as if the file ended there, counts
    them, and reports an error with [last_position] at the start of the
    torn record: cutting the file at that offset leaves whole records
    only. *)
Theorem readChangelog_torn_tail i es e cut lg s ofs :
  Forall (λ e, entry_fits e = true) es →
  entry_fits e = true →
  0 ≤ i → i + Z.of_nat (length es) + 1 < 2 ^ 64 →
  (∀ j, i ≤ j < i + Z.of_nat (length es) → lg !! j = None) →
  0 < cut < record_size e →
  ∃ r r0 lg' ofs',
    readChangelog
      (encode_entries i es
         ++ take (Z.to_nat cut) (encode_record (buildRecord (i + Z.of_nat (length es)) e)))
      lg s ofs
    = (r, lg', ofs')
    ∧ readChangelog (encode_entries i es) lg s ofs = (r0, lg', ofs')
    ∧ entries_read r = Z.of_nat (length es)
    ∧ error r = true
    ∧ last_position r = Z.of_nat (length (encode_entries i es)).
Proof.
  intros Hfit He Hi Hn Hfree Hcut.
  pose proof (length_encode_record (i + Z.of_nat (length es)) e (entry_fits_buffer e He))
    as Hsize.
  rewrite readChangelog_entries_tail; [|done|done|lia|done| |].
  - rewrite readChangelog_entries_eq by (done || lia).
    eexists _, _, _, _. split; [reflexivity|]. split; [reflexivity|].
    cbn [entries_read error last_position]. split_and!; [|done|].
    + destruct es as [|e0 es]; [done|]. cbn [read_entries_result entries_read].
      rewrite Z.add_0_l. apply wrap64_small. lia.
    + by rewrite length_encode_entries by by apply Forall_entry_fits_buffers.
  - intros Hnil. apply (f_equal length) in Hnil. rewrite length_take in Hnil.
    simpl in Hnil. lia.
  - apply read_record_torn; [done|lia|lia].
Qed.

(** ** Names of segment files, written and parsed *)

Fixpoint char_free (c : ascii) (s : string) : Prop :=
  match s with
  | EmptyString => True
  | String a s' => a ≠ c ∧ char_free c s'
  end.

Lemma char_free_app c s1 s2 :
  char_free c (s1 +:+ s2) ↔ char_free c s1 ∧ char_free c s2.
Proof. induction s1 as [|a s1 IH]; simpl; [tauto|]. rewrite IH. tauto. Qed.

Lemma underscore_free_char_free s : underscore_free s ↔ char_free "_" s.
Proof. induction s as [|a s IH]; simpl; [done|]. by rewrite IH. Qed.

Lemma eqb_false_of_ne (a c : ascii) : a ≠ c → Ascii.eqb a c = false.
Proof. intros Hne. by apply Ascii.eqb_neq. Qed.

Lemma after_last_free c s : char_free c s → after_last c s = None.
Proof.
  induction s as [|a s IH]; simpl; [done|]. intros [Hne Hs].
  by rewrite IH, eqb_false_of_ne.
Qed.

Lemma after_last_app c s1 s2 :
  char_free c s2 → after_last c (s1 +:+ String c s2) = Some s2.
Proof.
  intros Hs2. induction s1 as [|a s1 IH]; simpl.
  - by rewrite after_last_free, Ascii.eqb_refl.
  - by rewrite IH.
Qed.

Lemma before_last_free c s : char_free c s → before_last c s = None.
Proof.
  induction s as [|a s IH]; simpl; [done|]. intros [Hne Hs].
  by rewrite IH, eqb_false_of_ne.
Qed.

Lemma before_last_app c s1 s2 :
  char_free c s2 → before_last c (s1 +:+ String c s2) = Some s1.
Proof.
  intros Hs2. induction s1 as [|a s1 IH]; simpl.
  - by rewrite before_last_free, Ascii.eqb_refl.
  - by rewrite IH.
Qed.

Lemma split_on_free c s : char_free c s → split_on c s = [s].
Proof.
  induction s as [|a s IH]; simpl; [done|]. intros [Hne Hs].
  by rewrite eqb_false_of_ne, IH.
Qed.

Lemma split_on_app c s1 s2 :
  char_free c s1 → split_on c (s1 +:+ String c s2) = s1 :: split_on c s2.
Proof.
  induction s1 as [|a s1 IH]; simpl.
  - intros _. by rewrite Ascii.eqb_refl.
  - intros [Hne Hs]. by rewrite eqb_false_of_ne, IH.
Qed.

Lemma pretty_N_go_char_free c x s :
  (∀ d, pretty_N_char d ≠ c) → char_free c s → char_free c (pretty_N_go x s).
Proof.
  intros Hc. revert s. induction (N.lt_wf_0 x) as [x _ IH]; intros s Hs.
  assert (x = 0 ∨ 0 < x)%N as [->|?] by lia.
  - by rewrite pretty_N_go_0.
  - rewrite pretty_N_go_step by done. apply IH; [by apply N.div_lt|]. by split.
Qed.

Lemma to_string_char_free c z :
  (∀ d, pretty_N_char d ≠ c) → char_free c (to_string z).
Proof.
  intros Hc. unfold to_string, pretty, pretty_N. case_decide.
  - split; [|done]. apply (Hc 0%N).
  - by apply pretty_N_go_char_free.
Qed.

Lemma pretty_N_char_no_slash d : pretty_N_char d ≠ "/"%char.
Proof. unfold pretty_N_char. by repeat case_match. Qed.

Lemma pretty_N_char_no_dot d : pretty_N_char d ≠ "."%char.
Proof. unfold pretty_N_char. by repeat case_match. Qed.

Lemma digit_of_pretty_N_char d :
  (d < 10)%N → digit_of (pretty_N_char d) = Some (Z.of_N d).
Proof.
  intros Hd.
  assert (d = 0 ∨ d = 1 ∨ d = 2 ∨ d = 3 ∨ d = 4 ∨ d = 5 ∨ d = 6 ∨ d = 7 ∨ d = 8 ∨ d = 9)%N
    as Hcases by lia.
  repeat (destruct Hcases as [->|Hcases]; [done|]). by subst d.
Qed.

(** Reading the digits that [pretty] wrote before [s]: [p] is the power
    of ten by which they shift what was read before. *)
Lemma read_digits_pretty_N_go x :
  ∃ p, 1 ≤ p ∧ ∀ s res,
    0 ≤ res → res * p + Z.of_N x < 2 ^ 64 →
    read_digits (pretty_N_go x s) res = read_digits s (res * p + Z.of_N x).
Proof.
  induction (N.lt_wf_0 x) as [x _ IH].
  assert (x = 0 ∨ 0 < x)%N as [->|Hx] by lia.
  { exists 1. split; [done|]. intros s res _ _. rewrite pretty_N_go_0. f_equal. lia. }
  destruct (IH (x `div` 10)%N) as (p & Hp & Hread); [by apply N.div_lt|].
  exists (p * 10). split; [lia|]. intros s res Hres Hlt.
  rewrite pretty_N_go_step by done.
  pose proof (N.div_mod x 10 ltac:(done)) as Hdm.
  pose proof (N.mod_lt x 10 ltac:(done)) as Hm.
  assert (Hx' : Z.of_N x = 10 * Z.of_N (x `div` 10) + Z.of_N (x `mod` 10)).
  { rewrite Hdm at 1. by rewrite N2Z.inj_add, N2Z.inj_mul. }
  assert (Hq : 0 ≤ Z.of_N (x `div` 10)) by apply N2Z.is_nonneg.
  assert (Hr : 0 ≤ Z.of_N (x `mod` 10) < 10).
  { split; [apply N2Z.is_nonneg|]. by apply (N2Z.inj_lt _ 10). }
  rewrite Hread; [|done|].
  - cbn [read_digits]. rewrite digit_of_pretty_N_char by done. f_equal.
    set (q := Z.of_N (x `div` 10)) in *. set (r := Z.of_N (x `mod` 10)) in *.
    clearbody q r. rewrite Hx' in *. rewrite wrap64_small by nia. nia.
  - set (q := Z.of_N (x `div` 10)) in *. set (r := Z.of_N (x `mod` 10)) in *.
    clearbody q r. rewrite Hx' in *. nia.
Qed.

Lemma pretty_N_go_nonempty x c s : pretty_N_go x (String c s) ≠ "".
Proof.
  revert c s. induction (N.lt_wf_0 x) as [x _ IH]; intros c s.
  assert (x = 0 ∨ 0 < x)%N as [->|Hx] by lia.
  - by rewrite pretty_N_go_0.
  - rewrite pretty_N_go_step by done. apply IH. by apply N.div_lt.
Qed.

Lemma parse_size_t_to_string n :
  0 ≤ n < 2 ^ 64 → parse_size_t (to_string n) = inr n.
Proof.
  intros Hn. unfold to_string, pretty, pretty_N. case_decide as Hz.
  - assert (n = 0) as -> by lia. by vm_compute.
  - destruct (read_digits_pretty_N_go (Z.to_N n)) as (p & Hp & Hread).
    specialize (Hread "" 0 ltac:(done)). rewrite Z2N.id in Hread by lia.
    specialize (Hread ltac:(lia)). simpl in Hread.
    destruct (pretty_N_go (Z.to_N n) "") as [|c s] eqn:Hs.
    + rewrite pretty_N_go_step in Hs by lia. by apply pretty_N_go_nonempty in Hs.
    + unfold parse_size_t. by rewrite Hread.
Qed.

Lemma last_list_ascii_of_string p c :
  last (String.list_ascii_of_string p) = Some c → ∃ p', p = p' +:+ String c "".
Proof.
  induction p as [|a p IH]; [done|].
  cbn [String.list_ascii_of_string]. destruct p as [|a' p'].
  - simpl. intros [= ->]. by exists "".
  - cbn [String.list_ascii_of_string] in *. rewrite last_cons_cons.
    intros Hl. destruct (IH Hl) as [q Hq]. exists (String a q).
    by rewrite Hq.
Qed.

Lemma ends_with_slash_app p :
  ends_with_slash p = true → ∃ p', p = p' +:+ "/".
Proof.
  unfold ends_with_slash.
  destruct (last (String.list_ascii_of_string p)) as [c|] eqn:Hl; [|done].
  intros Hc. apply bool_decide_eq_true in Hc. injection Hc as ->.
  by apply last_list_ascii_of_string.
Qed.

Lemma string_app_assoc (s1 s2 s3 : string) : (s1 +:+ s2) +:+ s3 = s1 +:+ s2 +:+ s3.
Proof.
  induction s1 as [|a s1 IH]; [reflexivity|].
  change (String a ((s1 +:+ s2) +:+ s3) = String a (s1 +:+ s2 +:+ s3)). by f_equal.
Qed.

Lemma path_filename_path_append dir_ name :
  char_free "/" name → path_filename (path_append dir_ name) = name.
Proof.
  intros Hname. unfold path_filename, path_append.
  case_bool_decide.
  - by rewrite after_last_free.
  - destruct (ends_with_slash dir_) eqn:Hs.
    + apply ends_with_slash_app in Hs as [p' ->].
      rewrite string_app_assoc.
      change ("/" +:+ name) with (String "/" name). by rewrite after_last_app.
    + change (dir_ +:+ "/" +:+ name) with (dir_ +:+ String "/" name).
      by rewrite after_last_app.
Qed.

Lemma parse_formatted_path dir_ d :
  char_free "_" (prefix d) → char_free "/" (prefix d) →
  0 ≤ from_log_idx d < 2 ^ 64 → 0 ≤ to_log_idx d < 2 ^ 64 →
  getChangelogFileDescription (formatChangelogPath dir_ d)
  = inr (FileDescription (prefix d) (from_log_idx d) (to_log_idx d)
           (formatChangelogPath dir_ d)).
Proof.
  intros Hu Hs Hfrom Hto. unfold getChangelogFileDescription.
  set (stem_ := prefix d +:+ "_" +:+ to_string (from_log_idx d) +:+ "_"
                  +:+ to_string (to_log_idx d)).
  assert (Hname : prefix d +:+ "_" +:+ to_string (from_log_idx d) +:+ "_"
                    +:+ to_string (to_log_idx d) +:+ ".bin"
                  = stem_ +:+ String "." "bin").
  { unfold stem_. by rewrite !string_app_assoc. }
  assert (Hstem : path_stem (formatChangelogPath dir_ d) = stem_).
  { unfold path_stem, formatChangelogPath. rewrite path_filename_path_append.
    2:{ rewrite !char_free_app. split_and!; try done.
        all: apply to_string_char_free, pretty_N_char_no_slash. }
    rewrite Hname.
    assert (Hund : ¬ char_free "_" (stem_ +:+ String "." "bin")).
    { intros [H _]%char_free_app. unfold stem_ in H.
      apply char_free_app in H as [_ H]. hnf in H. by destruct H. }
    rewrite bool_decide_eq_false_2.
    2:{ intros [Heq|Heq]; rewrite Heq in Hund; apply Hund; by repeat split. }
    rewrite before_last_app by by repeat split.
    clearbody stem_. destruct stem_ as [|a s]; [|done].
    exfalso. apply Hund. by repeat split. }
  rewrite Hstem. unfold stem_.
  change (prefix d +:+ "_" +:+ to_string (from_log_idx d) +:+ "_"
            +:+ to_string (to_log_idx d))
    with (prefix d +:+ String "_"
            (to_string (from_log_idx d) +:+ String "_" (to_string (to_log_idx d)))).
  rewrite split_on_app by done.
  rewrite split_on_app by apply to_string_char_free, pretty_N_char_no_underscore.
  rewrite split_on_free by apply to_string_char_free, pretty_N_char_no_underscore.
  by rewrite !parse_size_t_to_string.
Qed.

(** X7. Round trip of the names of segments. The path that
    [formatChangelogPath] builds in a directory for a description is
    parsed back by [getChangelogFileDescription] into the same prefix,
    first index and last index, with the path itself in the [path]
    field. The prefix contains no underscore and no slash (as [changelog]
    does) and the two indices are 64-bit numbers. *)
Theorem getChangelogFileDescription_formatChangelogPath dir_ d :
  char_free "_" (prefix d) → char_free "/" (prefix d) →
  0 ≤ from_log_idx d < 2 ^ 64 → 0 ≤ to_log_idx d < 2 ^ 64 →
  getChangelogFileDescription (formatChangelogPath dir_ d)
  = inr (FileDescription (prefix d) (from_log_idx d) (to_log_idx d)
           (formatChangelogPath dir_ d)).
Proof. apply parse_formatted_path. Qed.

(** ** The segments found by the constructor *)

#[local] Instance char_free_dec c s : Decision (char_free c s).
Proof. induction s as [|a s IH]; simpl; apply _. Defined.

(** The segments are named as [rotate] names them: each is filed under
    its first index, its path is the one [formatChangelogPath] gives for
    it in the directory, its prefix has no underscore and no slash, and
    its indices are 64-bit numbers. *)
Definition segments_named (dir_ : string) (m : gmap Z ChangelogFileDescription) : Prop :=
  map_Forall (λ k d,
    from_log_idx d = k
    ∧ char_free "_" (prefix d) ∧ char_free "/" (prefix d)
    ∧ 0 ≤ from_log_idx d < 2 ^ 64 ∧ 0 ≤ to_log_idx d < 2 ^ 64
    ∧ path d = formatChangelogPath dir_ d) m.

Lemma scan_directory_segments dir_ (m : gmap Z ChangelogFileDescription) entries :
  segments_named dir_ m →
  (∀ p, p ∈ entries → ∃ k d, m !! k = Some d ∧ path d = p) →
  ∀ acc, acc ⊆ m →
    ∃ m', scan_directory entries acc = inr m'
      ∧ acc ⊆ m' ∧ m' ⊆ m
      ∧ ∀ k d, m !! k = Some d → path d ∈ entries → m' !! k = Some d.
Proof.
  intros Hnamed. induction entries as [|p entries IH]; intros Hin acc Hacc.
  { exists acc. split_and!; try done. intros k d _ Hp. by apply elem_of_nil in Hp. }
  destruct (Hin p (list_elem_of_here _ _)) as (k & d & Hd & Hp).
  destruct (Hnamed k d Hd) as (Hk & Hu & Hs & Hfrom & Hto & Hpath).
  cbn [scan_directory]. rewrite <- Hp, Hpath.
  rewrite parse_formatted_path by done.
  cbn [from_log_idx]. rewrite <- Hpath.
  assert (Hd' : FileDescription (prefix d) (from_log_idx d) (to_log_idx d) (path d) = d)
    by by destruct d.
  rewrite Hd', Hk.
  destruct (IH (λ q Hq, Hin q (list_elem_of_further _ _ _ Hq)) (<[k := d]> acc))
    as (m' & Hrun & Hsub & Hsub' & Hall).
  { by apply insert_subseteq_l. }
  exists m'. split; [done|]. split_and!; [|done|].
  - intros j. specialize (Hsub j). specialize (Hacc j). specialize (Hsub' j).
    destruct (decide (j = k)) as [->|Hne].
    + rewrite lookup_insert_eq in Hsub. rewrite Hd in *.
      destruct (acc !! k) as [x|] eqn:Hx; [|by destruct (m' !! k)].
      simpl in Hacc. subst x. done.
    + by rewrite lookup_insert_ne in Hsub.
  - intros k' d' Hd'' [Heq|Hq]%elem_of_cons.
    + assert (k' = k) as ->.
      { destruct (Hnamed k' d' Hd'') as (Hk' & Hu' & Hs' & Hfrom' & Hto' & Hpath').
        rewrite Hpath', Hpath in Heq.
        apply (f_equal getChangelogFileDescription) in Heq.
        rewrite !parse_formatted_path in Heq by done.
        injection Heq as _ Hf _ _. lia. }
      assert (d' = d) as -> by congruence.
      eapply lookup_weaken; [|exact Hsub]. apply lookup_insert_eq.
    + by apply Hall.
Qed.

Lemma Changelog_new_segments dir_ R m entries disk_ :
  segments_named dir_ m →
  entries ≡ₚ (λ kd, path kd.2) <$> items_asc m →
  Changelog_new dir_ R entries disk_ = inr (Changelog_ dir_ R m ∅ ∅ 0 None disk_).
Proof.
  intros Hnamed Hperm.
  assert (Hin : ∀ p, p ∈ entries ↔ ∃ k d, m !! k = Some d ∧ path d = p).
  { intros p. rewrite Hperm, list_elem_of_fmap. split.
    - intros ([k d] & -> & Hkd). exists k, d. by apply elem_of_items_asc in Hkd.
    - intros (k & d & Hd & <-). exists (k, d). split; [done|]. by apply elem_of_items_asc. }
  destruct (scan_directory_segments dir_ m entries Hnamed (λ p Hp, proj1 (Hin p) Hp) ∅)
    as (m' & Hrun & _ & Hsub & Hall).
  { apply map_empty_subseteq. }
  unfold Changelog_new. rewrite Hrun. do 2 f_equal.
  apply map_eq. intros k. destruct (m !! k) as [d|] eqn:Hd.
  - apply Hall; [done|]. apply Hin. eauto.
  - by eapply lookup_weaken_None.
Qed.

(** X8. Restart. When the directory holds the files of the segments of a
    changelog, named as [rotate] names them, the constructor rebuilds the
    same map of segments, in whatever order the directory yields the
    files; the two in-memory maps are empty and no writer is open. *)
Theorem Changelog_new_finds_segments dir_ R m entries disk_ :
  segments_named dir_ m →
  entries ≡ₚ (λ kd, path kd.2) <$> items_asc m →
  Changelog_new dir_ R entries disk_ = inr (Changelog_ dir_ R m ∅ ∅ 0 None disk_).
Proof. apply Changelog_new_segments. Qed.

(** X9. A file whose stem has fewer than three fields between underscores
    makes the constructor fail with [CORRUPTED_DATA], when the files that
    the directory yields before it were accepted. *)
Theorem Changelog_new_rejects_foreign_file dir_ R before p after disk_ :
  Forall (λ q, is_Some (match getChangelogFileDescription q with
                        | inr d => Some d
                        | inl _ => None
                        end)) before →
  (length (split_on "_" (path_stem p)) < 3)%nat →
  Changelog_new dir_ R (before ++ p :: after) disk_ = inl (Thrown CORRUPTED_DATA).
Proof.
  intros Hbefore Hp. unfold Changelog_new.
  assert (Hscan : ∀ acc, scan_directory (before ++ p :: after) acc
                         = inl (Thrown CORRUPTED_DATA)).
  { induction Hbefore as [|q before Hq _ IH]; intros acc.
    - cbn [app scan_directory]. unfold getChangelogFileDescription.
      destruct (split_on "_" (path_stem p)) as [|p0 [|p1 [|p2 ps]]]; try done.
      simpl in Hp. lia.
    - cbn [app scan_directory].
      destruct (getChangelogFileDescription q) as [e|d]; [by destruct Hq|]. apply IH. }
  by rewrite Hscan.
Qed.

(** ** Appending, restarting and recovering *)

Lemma sorted_keys_NoDup {V} (l : list (Z * V)) :
  StronglySorted (λ a b, a.1 < b.1) l → NoDup l.
Proof.
  induction 1 as [|x l _ IH Hx]; constructor; [|done].
  intros Hin. rewrite Forall_forall in Hx. specialize (Hx x Hin). lia.
Qed.

Lemma items_asc_unique {V} (m : gmap Z V) l :
  StronglySorted (λ a b, a.1 < b.1) l →
  (∀ k v, (k, v) ∈ l ↔ m !! k = Some v) →
  items_asc m = l.
Proof.
  intros Hsorted Hl.
  apply (StronglySorted_unique_strong (λ a b : Z * V, a.1 < b.1)).
  - intros x1 x2 _ _ ? ?. lia.
  - apply items_asc_sorted.
  - done.
  - apply NoDup_Permutation.
    + apply sorted_keys_NoDup, items_asc_sorted.
    + by apply sorted_keys_NoDup.
    + intros [k v]. by rewrite elem_of_items_asc, Hl.
Qed.

Lemma appendEntry_start_index idx e sync st st' :
  appendEntry idx e sync st = Done tt st' →
  start_index st' = if map_is_empty (logs st) then idx else start_index st.
Proof.
  destruct (current_writer st) as [w|] eqn:Hw.
  2:{ by rewrite appendEntry_no_writer. }
  destruct (appendEntry_unfold idx e sync st w Hw) as (w' & _ & ->). cbv zeta.
  destruct (has_key _ _); [done|]. destruct (makeClone e); [|done].
  intros [= <-]. unfold append_written, append_target. unfold_setters. simpl.
  by destruct (entries_written w =? rotate_interval st), (map_is_empty (logs st)).
Qed.

Lemma store_entries_snoc s es :
  ∀ i pos e lg ofs,
    store_entries s i pos (es ++ [e]) lg ofs
    = if i + Z.of_nat (length es) <? s then store_entries s i pos es lg ofs
      else (<[i + Z.of_nat (length es) := e]> (store_entries s i pos es lg ofs).1,
            <[i + Z.of_nat (length es) := pos + entries_size es]>
              (store_entries s i pos es lg ofs).2).
Proof.
  induction es as [|e0 es IH]; intros i pos e lg ofs.
  - cbn [app store_entries length entries_size]. rewrite !Z.add_0_r.
    by destruct (i <? s).
  - cbn [app store_entries length entries_size]. rewrite Nat2Z.inj_succ.
    replace (i + Z.succ (Z.of_nat (length es))) with (i + 1 + Z.of_nat (length es)) by lia.
    replace (pos + (record_size e0 + entries_size es))
      with (pos + record_size e0 + entries_size es) by lia.
    destruct (i <? s); apply IH.
Qed.

(** ** Compacting twice *)

Lemma items_asc_delete_head {V} (m : gmap Z V) k v rest :
  items_asc m = (k, v) :: rest → items_asc (delete k m) = rest.
Proof.
  intros Hitems. pose proof (items_asc_sorted m) as Hsorted. rewrite Hitems in Hsorted.
  apply StronglySorted_cons in Hsorted as [Hhd Hrest]. rewrite Forall_forall in Hhd.
  apply items_asc_unique; [done|].
  intros k' v'. rewrite lookup_delete_Some. split.
  - intros Hin. specialize (Hhd _ Hin). simpl in Hhd. split; [lia|].
    apply elem_of_items_asc. rewrite Hitems. by apply list_elem_of_further.
  - intros [Hne Hl]. apply elem_of_items_asc in Hl. rewrite Hitems in Hl.
    apply elem_of_cons in Hl as [[= -> ->]|Hl]; done.
Qed.

Lemma compact_changelogs_prefix a b items :
  a ≤ b →
  ∀ st, items_asc (existing_changelogs st) = items →
    ∃ st_a, compact_changelogs a items st = Done tt st_a
      ∧ compact_changelogs b items st
        = compact_changelogs b (items_asc (existing_changelogs st_a)) st_a.
Proof.
  intros Hab. induction items as [|[k d] items IH]; intros st Hitems.
  { exists st. split; [done|]. by rewrite Hitems. }
  cbn [compact_changelogs]. destruct (to_log_idx d <=? a) eqn:Hto.
  - assert ((to_log_idx d <=? b) = true) as -> by lia.
    rewrite !bind_modify.
    match goal with |- ∃ st_a, compact_changelogs a items ?s = _ ∧ _ =>
      destruct (IH s) as (st_a & Hrun & Heq) end.
    { unfold_setters. cbn [existing_changelogs]. by eapply items_asc_delete_head. }
    exists st_a. split; [done|]. by rewrite Heq.
  - exists st. split; [done|]. by rewrite Hitems.
Qed.

Lemma compact_changelogs_frame up f s items :
  ∀ st, ∃ st',
    compact_changelogs up items st = Done tt st'
    ∧ compact_changelogs up items (set_start_index s (set_logs f st))
      = Done tt (set_start_index s (set_logs f st')).
Proof.
  induction items as [|[k d] items IH]; intros st; cbn [compact_changelogs].
  { by exists st. }
  destruct (to_log_idx d <=? up); [|by exists st].
  rewrite !bind_modify.
  match goal with |- ∃ st', compact_changelogs up items ?s1 = _ ∧ _ =>
    destruct (IH s1) as (st' & Hrun & Hrun') end.
  exists st'. split; [done|]. by rewrite <- Hrun'.
Qed.

(** X10. Compacting up to [a] and then up to [b], with [a <= b], leaves the
    state that compacting up to [b] alone leaves; in particular
    compacting twice up to the same index is the same as once. *)
Theorem compact_twice st a b :
  a ≤ b → (compact a;; compact b) st = compact b st.
Proof.
  intros Hab.
  destruct (compact_changelogs_prefix a b (items_asc (existing_changelogs st)) Hab st eq_refl)
    as (st_a & Hrun_a & Heq).
  set (f := filter (λ kv : Z * log_entry, a < kv.1) : IndexToLogEntry → IndexToLogEntry).
  destruct (compact_changelogs_frame b f (wrap64 (a + 1))
              (items_asc (existing_changelogs st_a)) st_a) as (st_b & Hrun_b & Hrun_b').
  assert (Hcompact_a : compact a st = Done tt (set_start_index (wrap64 (a + 1)) (set_logs f st_a))).
  { unfold compact. rewrite bind_get, (bind_run _ _ _ _ _ Hrun_a). done. }
  rewrite (bind_run _ _ _ _ _ Hcompact_a).
  rewrite <- Heq in Hrun_b.
  unfold compact. rewrite !bind_get.
  change (existing_changelogs (set_start_index (wrap64 (a + 1)) (set_logs f st_a)))
    with (existing_changelogs st_a).
  rewrite (bind_run _ _ _ _ _ Hrun_b'), (bind_run _ _ _ _ _ Hrun_b).
  rewrite !bind_modify. unfold modify. f_equal.
  destruct st_b as [dir0 R0 ex lg ofs si cw dk]. unfold_setters.
  cbn [changelogs_dir rotate_interval existing_changelogs logs index_to_start_pos
       start_index current_writer disk].
  f_equal. subst f. rewrite map_filter_filter.
  apply map_filter_ext. intros k e _. simpl. lia.
Qed.

Section restart.

Context (dir_ : string) (R : Z) (sync : bool) (from_ : Z).
Hypothesis R_range : 1 ≤ R < 2 ^ 64.
Hypothesis from_range : from_ = 0 ∨ from_ = 1.

(** The first index of the segment number [j], counted from 0, and the
    segment that [rotate] creates at an index. *)
Definition chunk_key (j : nat) : Z := 1 + Z.of_nat j * R.

Definition segment_at (key : Z) : ChangelogFileDescription :=
  FileDescription DEFAULT_PREFIX key (wrap64 (key + R - 1))
    (formatChangelogPath dir_
       (FileDescription DEFAULT_PREFIX key (wrap64 (key + R - 1)) "")).

Fixpoint segments_upto (j : nat) : gmap Z ChangelogFileDescription :=
  match j with
  | O => {[ chunk_key 0 := segment_at (chunk_key 0) ]}
  | S j' => <[ chunk_key j := segment_at (chunk_key j) ]> (segments_upto j')
  end.

(** What the replay of the segments from number [j] on stores, [cs]
    being the entries of these segments. *)
Fixpoint store_chunks (j : nat) (cs : list (list log_entry))
    (lg : IndexToLogEntry) (ofs : IndexToOffset) : IndexToLogEntry * IndexToOffset :=
  match cs with
  | [] => (lg, ofs)
  | c :: cs' =>
      store_chunks (S j) cs'
        (store_entries from_ (chunk_key j) 0 c lg ofs).1
        (store_entries from_ (chunk_key j) 0 c lg ofs).2
  end.

(** The state after appends at the consecutive indices from 1 on:
    [init] lists the entries of the segments that are full, [last_] those
    of the segment of the writer, which wrote all the bytes of its
    file. *)
Record stored (init : list (list log_entry)) (last_ : list log_entry)
    (st : Changelog) : Prop := Stored {
  stored_dir : changelogs_dir st = dir_;
  stored_interval : rotate_interval st = R;
  stored_start : start_index st = 1;
  stored_full : Forall (λ c, Z.of_nat (length c) = R) init;
  stored_last : Z.of_nat (length last_) ≤ R;
  stored_bound : chunk_key (length init) + R < 2 ^ 64;
  stored_fits : Forall (Forall (λ e, entry_fits e = true)) (init ++ [last_]);
  stored_segments : existing_changelogs st = segments_upto (length init);
  stored_files : ∀ j c, (init ++ [last_]) !! j = Some c →
                   disk st !! path (segment_at (chunk_key j))
                   = Some (encode_entries (chunk_key j) c);
  stored_logs : logs st = (store_chunks 0 (init ++ [last_]) ∅ ∅).1;
  stored_offsets : index_to_start_pos st = (store_chunks 0 (init ++ [last_]) ∅ ∅).2;
  stored_writer : current_writer st
                  = Some (Writer (path (segment_at (chunk_key (length init))))
                            (entries_size last_)
                            (Z.of_nat (length last_)) (chunk_key (length init)))
}.

Lemma chunk_key_S j : chunk_key (S j) = chunk_key j + R.
Proof. unfold chunk_key. lia. Qed.

Lemma chunk_key_mono j1 j2 : (j1 < j2)%nat → chunk_key j1 + R ≤ chunk_key j2.
Proof. unfold chunk_key. nia. Qed.

Lemma chunk_key_pos j : 1 ≤ chunk_key j.
Proof. unfold chunk_key. nia. Qed.

Lemma store_chunks_snoc cs :
  ∀ j c lg ofs,
    store_chunks j (cs ++ [c]) lg ofs
    = store_entries from_ (chunk_key (j + length cs)) 0 c
        (store_chunks j cs lg ofs).1 (store_chunks j cs lg ofs).2.
Proof.
  induction cs as [|c0 cs IH]; intros j c lg ofs.
  - cbn [app store_chunks length]. rewrite Nat.add_0_r.
    by destruct (store_entries _ _ _ _ _ _).
  - cbn [app store_chunks length]. rewrite IH. by rewrite Nat.add_succ_r.
Qed.

Lemma store_chunks_above cs :
  ∀ j lg ofs i,
    Forall (λ c, Z.of_nat (length c) ≤ R) cs →
    chunk_key (j + length cs) ≤ i →
    (store_chunks j cs lg ofs).1 !! i = lg !! i
    ∧ (store_chunks j cs lg ofs).2 !! i = ofs !! i.
Proof.
  induction cs as [|c cs IH]; intros j lg ofs i Hlen Hi; [done|].
  apply Forall_cons in Hlen as [Hc Hlen]. cbn [store_chunks length] in *.
  rewrite Nat.add_succ_r in Hi.
  destruct (IH (S j) (store_entries from_ (chunk_key j) 0 c lg ofs).1
              (store_entries from_ (chunk_key j) 0 c lg ofs).2 i Hlen Hi) as [-> ->].
  destruct (store_entries_lookup from_ c (chunk_key j) 0 lg ofs i) as [-> ->].
  pose proof (chunk_key_mono j (S (j + length cs)) ltac:(lia)).
  rewrite !decide_False by lia. done.
Qed.

Lemma stored_free init last_ st i :
  stored init last_ st →
  chunk_key (length init) + Z.of_nat (length last_) ≤ i →
  logs st !! i = None ∧ index_to_start_pos st !! i = None.
Proof.
  intros Hst Hi. rewrite (stored_logs _ _ _ Hst), (stored_offsets _ _ _ Hst).
  rewrite store_chunks_snoc. cbn [Nat.add].
  destruct (store_entries_lookup from_ last_ (chunk_key (length init)) 0
              (store_chunks 0 init ∅ ∅).1 (store_chunks 0 init ∅ ∅).2 i) as [-> ->].
  rewrite !decide_False by lia.
  destruct (store_chunks_above init 0 ∅ ∅ i) as [-> ->]; [|by cbn [Nat.add]; lia|done].
  eapply Forall_impl; [apply (stored_full _ _ _ Hst)|]. intros c Hc. simpl in Hc. lia.
Qed.

Lemma segments_upto_lookup_key j i :
  (i ≤ j)%nat → segments_upto j !! chunk_key i = Some (segment_at (chunk_key i)).
Proof.
  intros Hi. induction j as [|j IH]; cbn [segments_upto].
  - assert (i = 0)%nat as -> by lia. apply lookup_singleton_eq.
  - destruct (decide (i = S j)) as [->|Hne]; [apply lookup_insert_eq|].
    rewrite lookup_insert_ne; [apply IH; lia|].
    unfold chunk_key. nia.
Qed.

Lemma segments_upto_lookup_Some j key d :
  segments_upto j !! key = Some d →
  ∃ i, (i ≤ j)%nat ∧ key = chunk_key i ∧ d = segment_at key.
Proof.
  induction j as [|j IH]; cbn [segments_upto].
  - intros [<- <-]%lookup_singleton_Some. exists 0%nat. split_and!; [lia|done|done].
  - intros [[<- <-]|[Hne Hl]]%lookup_insert_Some.
    + exists (S j). split_and!; [lia|done|done].
    + destruct (IH Hl) as (i & Hi & -> & ->). exists i. split_and!; [lia|done|done].
Qed.

Lemma segment_at_path_inj k1 k2 :
  0 ≤ k1 → 0 ≤ k2 → path (segment_at k1) = path (segment_at k2) → k1 = k2.
Proof. unfold segment_at. cbn [path]. apply formatChangelogPath_inj. Qed.

Lemma chunk_key_inj j1 j2 : chunk_key j1 = chunk_key j2 → j1 = j2.
Proof. unfold chunk_key. nia. Qed.

Lemma chunk_path_ne j1 j2 :
  j1 ≠ j2 → path (segment_at (chunk_key j1)) ≠ path (segment_at (chunk_key j2)).
Proof.
  intros Hne Heq. apply segment_at_path_inj in Heq.
  - by apply chunk_key_inj in Heq.
  - pose proof (chunk_key_pos j1). lia.
  - pose proof (chunk_key_pos j2). lia.
Qed.

Lemma stored_initial from0 :
  from0 = 0 ∨ from0 = 1 → 1 + R < 2 ^ 64 →
  ∃ st, readChangelogAndInitWriter from0 (new_Changelog dir_ R) = Done tt st
    ∧ stored [] [] st
    ∧ logs st = ∅.
Proof.
  intros Hfrom HR.
  assert (Hrun : readChangelogAndInitWriter from0 (new_Changelog dir_ R)
                 = Done tt (rotate_state 1 (set_start_index 1 (new_Changelog dir_ R)))).
  { destruct Hfrom as [-> | ->]; reflexivity. }
  eexists. split; [exact Hrun|]. split; [|done].
  assert (Hkey : chunk_key 0 = 1) by (unfold chunk_key; lia).
  constructor; cbn [length app]; rewrite ?Hkey;
    cbn [rotate_state set_start_index new_Changelog changelogs_dir rotate_interval
         existing_changelogs logs index_to_start_pos start_index current_writer disk].
  - done.
  - done.
  - done.
  - constructor.
  - simpl. lia.
  - lia.
  - by repeat constructor.
  - cbn [segments_upto]. rewrite Hkey. by rewrite insert_empty.
  - intros [|j] c Hc; [|done]. cbn in Hc. injection Hc as <-.
    rewrite Hkey. cbn [encode_entries]. apply lookup_insert_eq.
  - done.
  - done.
  - done.
Qed.

Lemma appendEntry_stored init last_ e st :
  stored init last_ st →
  (logs st = ∅ → init = [] ∧ last_ = []) →
  entry_fits e = true →
  chunk_key (length init) + Z.of_nat (length last_) + R < 2 ^ 64 →
  ∃ st',
    appendEntry (chunk_key (length init) + Z.of_nat (length last_)) e sync st = Done tt st'
    ∧ logs st' ≠ ∅
    ∧ if Z.of_nat (length last_) =? R
      then stored (init ++ [last_]) [e] st'
      else stored init (last_ ++ [e]) st'.
Proof.
  intros Hst Hempty He Hbound.
  set (key := chunk_key (length init)) in *.
  set (idx := key + Z.of_nat (length last_)) in *.
  pose proof (chunk_key_pos (length init)) as Hkey1. fold key in Hkey1.
  destruct (stored_free init last_ st idx Hst ltac:(subst idx key; lia)) as [_ Hfree].
  pose proof (entry_fits_buffer e He) as Hb.
  destruct (appendEntry_fields idx e sync st _ (stored_writer _ _ _ Hst) Hfree Hb)
    as (st' & Hrun & Hdir' & HR' & Hlogs' & Hcase).
  pose proof (appendEntry_start_index _ _ _ _ _ Hrun) as Hstart.
  exists st'. split; [done|].
  assert (Hne : logs st' ≠ ∅).
  { rewrite Hlogs'. apply insert_non_empty. }
  split; [done|].
  destruct Hst as [Hdir HR Hsi Hfull Hlast Hb0 Hfits Hseg Hfiles Hlogs Hoffs Hw].
  assert (Hstart' : start_index st' = 1).
  { rewrite Hstart. destruct (map_is_empty (logs st)) eqn:Hemp; [|done].
    apply map_is_empty_true in Hemp. destruct (Hempty Hemp) as [-> ->].
    subst idx key. unfold chunk_key. simpl. lia. }
  rewrite HR, Hdir in Hcase.
  cbn [entries_written filepath w_start_index plain_buf_count] in Hcase.
  cbv zeta in Hcase. fold (segment_at idx) in Hcase.
  rewrite (length_encode_record idx e Hb) in Hcase.
  apply Forall_app in Hfits as [Hfits_init Hfits_last].
  rewrite Forall_singleton in Hfits_last.
  destruct (Z.of_nat (length last_) =? R) eqn:Hfull_last.
  - (* the segment of the writer is full: a new segment starts at [idx] *)
    apply Z.eqb_eq in Hfull_last.
    destruct Hcase as (Hex & Hdk & Hof & Hcw).
    assert (Hidx : idx = chunk_key (S (length init))).
    { rewrite chunk_key_S. subst idx key. lia. }
    assert (Hlen : length (init ++ [last_]) = S (length init)).
    { rewrite length_app. simpl. lia. }
    constructor; rewrite ?Hlen.
    + by rewrite Hdir'.
    + by rewrite HR'.
    + done.
    + apply Forall_app. split; [done|]. by apply Forall_singleton.
    + simpl. lia.
    + rewrite <- Hidx. lia.
    + apply Forall_app. split; [|by repeat constructor].
      apply Forall_app. split; [done|by apply Forall_singleton].
    + rewrite Hex, Hseg. cbn [segments_upto]. by rewrite <- Hidx.
    + intros j c Hc. rewrite Hdk.
      destruct (decide (j = S (length init))) as [->|Hj].
      * rewrite lookup_app_r in Hc by lia. rewrite Hlen, Nat.sub_diag in Hc.
        injection Hc as <-. rewrite <- Hidx, lookup_insert_eq.
        cbn [encode_entries]. by rewrite app_nil_r.
      * rewrite lookup_insert_ne.
        2:{ rewrite Hidx. by apply chunk_path_ne. }
        apply Hfiles. rewrite lookup_app_l in Hc; [done|].
        apply lookup_lt_Some in Hc. rewrite length_app, Hlen in Hc. simpl in Hc. lia.
    + rewrite store_chunks_snoc, Hlen, Hlogs', Hlogs. cbn [Nat.add store_entries].
      rewrite <- Hidx.
      assert ((idx <? from_) = false) as -> by (destruct from_range; lia). done.
    + rewrite store_chunks_snoc, Hlen, Hof, Hoffs. cbn [Nat.add store_entries].
      rewrite <- Hidx.
      assert ((idx <? from_) = false) as -> by (destruct from_range; lia). done.
    + rewrite Hcw, <- Hidx. cbn [entries_size].
      by replace (record_size e + 0) with (0 + record_size e) by lia.
  - (* the entry goes to the segment of the writer *)
    apply Z.eqb_neq in Hfull_last.
    destruct Hcase as (Hex & Hdk & Hof & Hcw).
    assert (Hfile : disk st !! path (segment_at key) = Some (encode_entries key last_)).
    { apply Hfiles. rewrite lookup_app_r by lia. by rewrite Nat.sub_diag. }
    constructor.
    + by rewrite Hdir'.
    + by rewrite HR'.
    + done.
    + done.
    + rewrite length_app. simpl. lia.
    + done.
    + apply Forall_app. split; [done|]. apply Forall_singleton.
      apply Forall_app. split; [done|by apply Forall_singleton].
    + by rewrite Hex.
    + intros j c Hc. rewrite Hdk.
      destruct (decide (j = length init)) as [->|Hj].
      * rewrite lookup_app_r in Hc by lia. rewrite Nat.sub_diag in Hc.
        injection Hc as <-. fold key. rewrite lookup_alter_eq, Hfile.
        cbn [fmap option_fmap option_map]. f_equal.
        rewrite encode_entries_app. cbn [encode_entries]. by rewrite app_nil_r.
      * rewrite lookup_alter_ne by by apply chunk_path_ne.
        apply Hfiles.
        assert (j < length init)%nat.
        { apply lookup_lt_Some in Hc. rewrite length_app in Hc. simpl in Hc. lia. }
        rewrite lookup_app_l in Hc by done. by rewrite lookup_app_l.
    + rewrite store_chunks_snoc, Hlogs', Hlogs, store_chunks_snoc. cbn [Nat.add].
      rewrite store_entries_snoc. fold key. fold idx.
      assert ((idx <? from_) = false) as -> by (destruct from_range; lia). done.
    + rewrite store_chunks_snoc, Hof, Hoffs, store_chunks_snoc. cbn [Nat.add].
      rewrite store_entries_snoc. fold key. fold idx.
      assert ((idx <? from_) = false) as -> by (destruct from_range; lia).
      cbn [snd]. by rewrite Z.add_0_l.
    + rewrite Hcw, entries_size_app, length_app. cbn [entries_size length]. fold key.
      rewrite wrap64_small by lia.
      replace (record_size e + 0) with (record_size e) by lia.
      by replace (Z.of_nat (length last_ + 1)) with (Z.of_nat (length last_) + 1) by lia.
Qed.

Lemma append_all_stored es :
  ∀ init last_ st,
    stored init last_ st →
    (logs st = ∅ → init = [] ∧ last_ = []) →
    Forall (λ e, entry_fits e = true) es →
    chunk_key (length init) + Z.of_nat (length last_) + Z.of_nat (length es) + R
      ≤ 2 ^ 64 →
    ∃ init' last' st',
      append_all (chunk_key (length init) + Z.of_nat (length last_)) es sync st
      = Done tt st'
      ∧ stored init' last' st'
      ∧ (logs st' = ∅ → init' = [] ∧ last' = [])
      ∧ chunk_key (length init') + Z.of_nat (length last')
        = chunk_key (length init) + Z.of_nat (length last_) + Z.of_nat (length es).
Proof.
  induction es as [|e es IH]; intros init last_ st Hst Hempty Hfits Hbound.
  { exists init, last_, st. split_and!; try done. simpl. lia. }
  apply Forall_cons in Hfits as [He Hfits]. cbn [length] in Hbound.
  destruct (appendEntry_stored init last_ e st Hst Hempty He ltac:(lia))
    as (st1 & Hrun & Hne & Hst1).
  cbn [append_all]. rewrite (bind_run _ _ _ _ _ Hrun).
  destruct (Z.of_nat (length last_) =? R) eqn:Hfull.
  - apply Z.eqb_eq in Hfull.
    destruct (IH (init ++ [last_]) [e] st1 Hst1) as (init' & last' & st' & Hrun' & ? & ? & Hn);
      [done|done| |].
    { rewrite length_app. cbn [length]. rewrite Nat.add_1_r, chunk_key_S. lia. }
    rewrite length_app in Hrun', Hn. cbn [length] in Hrun', Hn.
    rewrite Nat.add_1_r, chunk_key_S in Hrun', Hn.
    replace (chunk_key (length init) + R + Z.of_nat 1)
      with (chunk_key (length init) + Z.of_nat (length last_) + 1) in Hrun' by lia.
    exists init', last', st'. split_and!; try done. cbn [length]. lia.
  - destruct (IH init (last_ ++ [e]) st1 Hst1) as (init' & last' & st' & Hrun' & ? & ? & Hn);
      [done|done| |].
    { rewrite length_app. cbn [length]. lia. }
    rewrite length_app in Hrun', Hn. cbn [length] in Hrun', Hn.
    replace (chunk_key (length init) + Z.of_nat (length last_ + 1))
      with (chunk_key (length init) + Z.of_nat (length last_) + 1) in Hrun' by lia.
    exists init', last', st'. split_and!; try done. cbn [length]. lia.
Qed.

Definition chunk_item (i : nat) : Z * ChangelogFileDescription :=
  (chunk_key i, segment_at (chunk_key i)).

Lemma chunk_items_sorted j n :
  StronglySorted (λ a b : Z * ChangelogFileDescription, a.1 < b.1)
    (chunk_item <$> seq j n).
Proof.
  revert j. induction n as [|n IH]; intros j; [constructor|].
  cbn [seq fmap list_fmap]. constructor; [apply IH|].
  apply Forall_fmap, Forall_forall. intros i Hi%elem_of_seq. simpl.
  pose proof (chunk_key_mono j i ltac:(lia)). lia.
Qed.

Lemma items_asc_segments_upto j :
  items_asc (segments_upto j) = chunk_item <$> seq 0 (S j).
Proof.
  apply items_asc_unique; [apply chunk_items_sorted|].
  intros k d. rewrite list_elem_of_fmap. split.
  - intros (i & [= -> ->] & Hi%elem_of_seq). apply segments_upto_lookup_key. lia.
  - intros (i & Hi & -> & ->)%segments_upto_lookup_Some.
    exists i. split; [done|]. apply elem_of_seq. lia.
Qed.

Lemma segment_at_capacity key :
  0 ≤ key → key + R ≤ 2 ^ 64 →
  to_log_idx (segment_at key) = key + R - 1 ∧ capacity (segment_at key) = R.
Proof.
  intros Hkey Hb. unfold capacity, segment_at. cbn [to_log_idx from_log_idx].
  rewrite (wrap64_small (key + R - 1)) by lia. split; [done|].
  replace (key + R - 1 - key + 1) with R by lia. apply wrap64_small. lia.
Qed.

Lemma read_entries_result_fields es :
  Z.of_nat (length es) < 2 ^ 64 →
  entries_read (read_entries_result (ReadResult 0 0 false) 0 es) = Z.of_nat (length es)
  ∧ error (read_entries_result (ReadResult 0 0 false) 0 es) = false.
Proof.
  intros Hlen. destruct es as [|e es]; [done|].
  cbn [read_entries_result entries_read error]. split; [|done].
  rewrite Z.add_0_l. apply wrap64_small. lia.
Qed.

(** The replay of the segments that are full. *)
Lemma replay_full_chunks disk_ init :
  ∀ j lg ofs,
    Forall (λ c, Z.of_nat (length c) = R) init →
    Forall (Forall (λ e, entry_fits e = true)) init →
    chunk_key (j + length init) < 2 ^ 64 →
    (∀ i c, init !! i = Some c →
       disk_ !! path (segment_at (chunk_key (j + i)))
       = Some (encode_entries (chunk_key (j + i)) c)) →
    (∀ i, chunk_key j ≤ i → lg !! i = None) →
    ∃ rs,
      replay_full disk_ from_ (chunk_item <$> seq j (length init)) lg ofs rs
        (store_chunks j init lg ofs).1 (store_chunks j init lg ofs).2
      ∧ sum_entries_read rs = Z.of_nat (length init) * R
      ∧ Forall (λ r, entries_read r = R) rs
      ∧ length rs = length init.
Proof.
  induction init as [|c init IH]; intros j lg ofs Hfull Hfits Hbound Hfiles Hfree.
  { exists []. split_and!; try done. constructor. }
  apply Forall_cons in Hfull as [Hc Hfull]. apply Forall_cons in Hfits as [Hcfits Hfits].
  cbn [length] in Hbound. rewrite Nat.add_succ_r in Hbound.
  pose proof (chunk_key_pos j) as Hj1.
  pose proof (chunk_key_mono j (S (j + length init)) ltac:(lia)) as Hmono.
  destruct (segment_at_capacity (chunk_key j)) as [Hto Hcap]; [lia|lia|].
  assert (Hread : readChangelog (encode_entries (chunk_key j) c) lg from_ ofs
                  = (read_entries_result (ReadResult 0 0 false) 0 c,
                     (store_entries from_ (chunk_key j) 0 c lg ofs).1,
                     (store_entries from_ (chunk_key j) 0 c lg ofs).2)).
  { apply readChangelog_entries_eq; [done|lia|lia|]. intros i Hi. apply Hfree. lia. }
  destruct (read_entries_result_fields c ltac:(lia)) as [Hcount _].
  destruct (IH (S j) (store_entries from_ (chunk_key j) 0 c lg ofs).1
              (store_entries from_ (chunk_key j) 0 c lg ofs).2)
    as (rs & Hrs & Hsum & Hall & Hlen); [done|done| | | |].
  { by rewrite Nat.add_succ_l. }
  { intros i c' Hc'. rewrite Nat.add_succ_l, <- Nat.add_succ_r. by apply Hfiles. }
  { intros i Hi. destruct (store_entries_lookup from_ c (chunk_key j) 0 lg ofs i) as [-> _].
    rewrite chunk_key_S in Hi. rewrite decide_False by lia. apply Hfree. lia. }
  exists (read_entries_result (ReadResult 0 0 false) 0 c :: rs).
  cbn [length seq fmap list_fmap store_chunks sum_entries_read]. split_and!.
  - eapply replay_full_read; [| |exact Hread| |exact Hrs].
    + cbn [chunk_item snd]. rewrite Hto. destruct from_range; lia.
    + specialize (Hfiles 0%nat c eq_refl). by rewrite Nat.add_0_r in Hfiles.
    + cbn [chunk_item snd]. rewrite Hcap, Hcount. lia.
  - rewrite Hsum, Hcount. lia.
  - constructor; [|done]. rewrite Hcount. lia.
  - by rewrite Hlen.
Qed.

Lemma remove_changelogs_after_none k st :
  (∀ j, k < j → existing_changelogs st !! j = None) →
  remove_changelogs_after k st = Done tt st.
Proof.
  intros Hnone. unfold remove_changelogs_after. rewrite bind_get.
  destruct (keys_after (existing_changelogs st) k) as [|x l] eqn:Hkeys; [done|].
  assert (x ∈ keys_after (existing_changelogs st) k) as [Hx [d Hd]]%elem_of_keys_after
    by (rewrite Hkeys; apply list_elem_of_here).
  by rewrite Hnone in Hd.
Qed.

Lemma segments_upto_nonempty j : map_is_empty (segments_upto j) = false.
Proof.
  apply not_true_iff_false. rewrite map_is_empty_true. intros Hemp.
  pose proof (segments_upto_lookup_key j 0 ltac:(lia)) as Hl.
  by rewrite Hemp, lookup_empty in Hl.
Qed.

(** The state [st] with its writer constructed anew on the same file:
    the count of the bytes written through it is 0. *)
Definition writer_reopened (st : Changelog) : Changelog :=
  set_current_writer
    ((λ w, Writer (filepath w) 0 (entries_written w) (w_start_index w))
       <$> current_writer st) st.

(** Recovery in a new instance on the files of a state of [stored]. *)
Lemma recover_stored init last_ st :
  stored init last_ st →
  readChangelogAndInitWriter from_
    (Changelog_ dir_ R (existing_changelogs st) ∅ ∅ 0 None (disk st))
  = if Z.of_nat (length last_) =? R
    then rotate (chunk_key (length init) + R) st
    else Done tt (writer_reopened st).
Proof.
  intros [Hdir HR Hsi Hfull Hlast Hb0 Hfits Hseg Hfiles Hlogs Hoffs Hw].
  set (key := chunk_key (length init)) in *.
  pose proof (chunk_key_pos (length init)) as Hkey1. fold key in Hkey1.
  apply Forall_app in Hfits as [Hfits_init Hfits_last].
  rewrite Forall_singleton in Hfits_last.
  unfold readChangelogAndInitWriter. rewrite bind_modify, bind_get.
  assert ((if from_ =? 0 then 1 else from_) = 1) as ->
    by (destruct from_range as [H|H]; by rewrite H).
  set (st0 := set_start_index 1 _).
  change (existing_changelogs st0) with (existing_changelogs st).
  rewrite Hseg, items_asc_segments_upto, seq_S, fmap_app. cbn [Nat.add fmap list_fmap].
  destruct (replay_full_chunks (disk st) init 0 ∅ ∅) as (rs & Hrs & Hsum & Hall & Hlen);
    [done|done|cbn [Nat.add]; fold key; lia| |done|].
  { intros i c Hc. cbn [Nat.add]. apply Hfiles. by apply lookup_app_l_Some. }
  destruct (replay_changelogs_full _ _ _ _ _ _ _ _ Hrs st0 [chunk_item (length init)]
              (RecoveryVars 0 0 0 (ReadResult 0 0 false)) eq_refl eq_refl eq_refl)
    as (v' & Hrun & Htotal & Hinc & _ & _).
  cbn [total_read incomplete_log_idx] in Htotal, Hinc.
  set (lg1 := (store_chunks 0 init ∅ ∅).1) in *.
  set (ofs1 := (store_chunks 0 init ∅ ∅).2) in *.
  destruct (segment_at_capacity key) as [Hto Hcap]; [lia|lia|].
  assert (Hfile : disk st !! path (segment_at key) = Some (encode_entries key last_)).
  { apply Hfiles. rewrite lookup_app_r by lia. by rewrite Nat.sub_diag. }
  assert (Hread : readChangelog (encode_entries key last_) lg1 from_ ofs1
                  = (read_entries_result (ReadResult 0 0 false) 0 last_,
                     logs st, index_to_start_pos st)).
  { rewrite Hlogs, Hoffs, store_chunks_snoc. cbn [Nat.add]. fold key lg1 ofs1.
    apply readChangelog_entries_eq; [done|lia|lia|].
    intros i Hi. subst lg1.
    destruct (store_chunks_above init 0 ∅ ∅ i) as [-> _]; [|cbn [Nat.add]; fold key; lia|done].
    eapply Forall_impl; [exact Hfull|]. intros c Hc. simpl in Hc. lia. }
  destruct (read_entries_result_fields last_ ltac:(lia)) as [Hcount Herr].
  set (r := read_entries_result (ReadResult 0 0 false) 0 last_) in *.
  set (st1 := Changelog_ dir_ R (existing_changelogs st) (logs st) (index_to_start_pos st)
                1 None (disk st)).
  assert (Hkey_max : ∀ j, is_Some (segments_upto (length init) !! j) → j ≤ key).
  { intros j [d' Hd]. apply segments_upto_lookup_Some in Hd as (i & Hi & -> & _).
    subst key. pose proof (chunk_key_mono i (length init)).
    destruct (decide (i = length init)) as [->|]; lia. }
  assert (Hscan : replay_changelogs from_
                    ((chunk_item <$> seq 0 (length init)) ++ [chunk_item (length init)])
                    (RecoveryVars 0 0 0 (ReadResult 0 0 false)) st0
                  = Done (RecoveryVars (wrap64 (total_read v' + Z.of_nat (length last_))) R
                            (if Z.of_nat (length last_) <? R then key else 0) r) st1).
  { rewrite Hrun. unfold chunk_item. fold key. set (d := segment_at key) in *.
    cbn [replay_changelogs]. rewrite Hto.
    assert ((from_ <=? key + R - 1) = true) as ->.
    { destruct from_range as [H|H]; rewrite H; lia. }
    unfold bind at 1. unfold get at 1.
    cbn [with_maps disk set_logs set_index_to_start_pos st0 set_start_index
         logs index_to_start_pos].
    rewrite Hfile, Hread, bind_modify. rewrite <- Hto. fold (capacity d).
    rewrite Hcap, Hcount.
    destruct (Z.of_nat (length last_) <? R); cbn [replay_changelogs]; unfold ret;
      rewrite ?Hinc; done. }
  rewrite (bind_run _ _ _ _ _ Hscan). clear Hscan Hrun.
  cbn [incomplete_log_idx last_result entries_in_last total_read]. rewrite Hcount.
  destruct (Z.of_nat (length last_) =? R) eqn:Hfull_last.
  - (* every segment is full: rotation *)
    apply Z.eqb_eq in Hfull_last.
    assert ((Z.of_nat (length last_) <? R) = false) as -> by lia.
    cbn [Z.eqb negb when]. rewrite bind_ret, bind_get.
    cbn [st1 existing_changelogs start_index].
    rewrite Hseg, segments_upto_nonempty. cbn [negb andb].
    assert (wrap64 (1 + wrap64 (total_read v' + Z.of_nat (length last_))) = key + R) as ->.
    { rewrite wrap64_add_r, Z.add_assoc, (Z.add_comm 1), <- Z.add_assoc.
      rewrite <- wrap64_add_l, Htotal, wrap64_add_l, Hsum.
      rewrite wrap64_small; [subst key; unfold chunk_key; lia|].
      subst key. unfold chunk_key in *. lia. }
    rewrite !rotate_eq. f_equal. unfold rotate_state.
    cbn [st1 changelogs_dir rotate_interval existing_changelogs logs index_to_start_pos
         start_index disk].
    by rewrite Hdir, HR, Hsi.
  - (* the last segment is short: it is reopened *)
    apply Z.eqb_neq in Hfull_last.
    assert ((Z.of_nat (length last_) <? R) = true) as -> by lia.
    assert ((key =? 0) = false) as -> by lia. cbn [negb when].
    assert (Hrm : remove_changelogs_after key st1 = Done tt st1).
    { apply remove_changelogs_after_none. intros j Hj. cbn [st1 existing_changelogs].
      rewrite Hseg. apply eq_None_not_Some. intros Hd. apply Hkey_max in Hd. lia. }
    rewrite (bind_run _ _ _ _ _ Hrm). clear Hrm.
    rewrite bind_get. cbn [st1 existing_changelogs].
    rewrite Hseg, segments_upto_nonempty. cbn [negb andb].
    rewrite (rbegin_greatest _ key); [|subst key; rewrite segments_upto_lookup_key by lia; eauto
                                       |done].
    cbn [mbind option_bind]. subst key. rewrite segments_upto_lookup_key by lia.
    unfold new_ChangelogWriter, setEntriesWritten, the_writer, when.
    rewrite Herr. unfold bind, modify, ret. unfold_setters. subst st1.
    cbn [changelogs_dir rotate_interval existing_changelogs logs
      index_to_start_pos start_index current_writer disk filepath w_start_index].
    unfold open_file. rewrite Hfile.
    f_equal. unfold writer_reopened. unfold_setters.
    destruct st as [dir1 R1 ex1 lg ofs si cw dk].
    cbn [changelogs_dir rotate_interval start_index current_writer existing_changelogs
         logs index_to_start_pos disk] in *.
    by rewrite Hdir, HR, Hsi, Hw.
Qed.

Lemma segments_upto_named j :
  chunk_key j + R ≤ 2 ^ 64 → segments_named dir_ (segments_upto j).
Proof.
  intros Hb k d Hd. apply segments_upto_lookup_Some in Hd as (i & Hi & -> & ->).
  pose proof (chunk_key_pos i).
  assert (chunk_key i ≤ chunk_key j).
  { destruct (decide (i = j)) as [->|]; [done|].
    pose proof (chunk_key_mono i j ltac:(lia)). lia. }
  destruct (segment_at_capacity (chunk_key i)) as [Hto _]; [lia|lia|].
  rewrite Hto. unfold segment_at. cbn [from_log_idx prefix path to_log_idx].
  split_and!; try done; try lia.
Qed.

Lemma segments_upto_ordered j :
  chunk_key j + R ≤ 2 ^ 64 →
  segments_ordered (segments_upto j) ∧ paths_distinct (segments_upto j).
Proof.
  intros Hb.
  assert (Hin : ∀ k d, segments_upto j !! k = Some d →
            ∃ i, k = chunk_key i ∧ d = segment_at k ∧ from_log_idx d = k
                 ∧ to_log_idx d = k + R - 1).
  { intros k d (i & Hi & -> & ->)%segments_upto_lookup_Some.
    pose proof (chunk_key_pos i).
    assert (chunk_key i ≤ chunk_key j).
    { destruct (decide (i = j)) as [->|]; [done|].
      pose proof (chunk_key_mono i j ltac:(lia)). lia. }
    destruct (segment_at_capacity (chunk_key i)) as [Hto _]; [lia|lia|]. eauto. }
  split; [split|].
  - intros k d (i & -> & -> & Hfrom & Hto)%Hin. rewrite Hfrom, Hto. lia.
  - intros k1 k2 d1 d2 (i1 & -> & -> & Hfrom1 & Hto1)%Hin (i2 & -> & -> & Hfrom2 & Hto2)%Hin
      Hlt.
    rewrite Hto1, Hfrom2.
    assert (i1 < i2)%nat by (unfold chunk_key in Hlt; nia).
    pose proof (chunk_key_mono i1 i2 ltac:(done)). lia.
  - intros k1 k2 d1 d2 (i1 & -> & -> & _)%Hin (i2 & -> & -> & _)%Hin Hpath.
    apply segment_at_path_inj in Hpath; [done| |].
    + pose proof (chunk_key_pos i1). lia.
    + pose proof (chunk_key_pos i2). lia.
Qed.

Lemma appended_stored from0 es :
  from0 = 0 ∨ from0 = 1 →
  Forall (λ e, entry_fits e = true) es →
  Z.of_nat (length es) + R + 1 < 2 ^ 64 →
  ∃ init last_ st_n,
    (readChangelogAndInitWriter from0;; append_all 1 es sync) (new_Changelog dir_ R)
    = Done tt st_n
    ∧ stored init last_ st_n
    ∧ chunk_key (length init) + Z.of_nat (length last_) = 1 + Z.of_nat (length es).
Proof.
  intros Hfrom Hfits Hn.
  destruct (stored_initial from0 Hfrom ltac:(lia)) as (st0 & Hrec & Hst0 & Hempty).
  destruct (append_all_stored es [] [] st0 Hst0) as (init & last_ & st_n & Hrun & Hst & _ & Hlen);
    [done|done| |].
  { cbn [length]. unfold chunk_key. lia. }
  cbn [length] in Hrun, Hlen.
  replace (chunk_key 0 + Z.of_nat 0) with 1 in Hrun, Hlen by (unfold chunk_key; lia).
  exists init, last_, st_n. split_and!; [|done|done].
  by rewrite (bind_run _ _ _ _ _ Hrec).
Qed.

(** X11. Durability across a restart. A changelog is recovered in an empty
    directory and the entries [es] are appended at the indices from 1 on,
    segments being rotated as they fill up; the writer has then written
    every byte of its file. A new instance is then constructed on the
    files that are in the directory and recovered. It reaches the state
    at the end of the appends as far as the entries, the offsets, the
    segments, the files and the counter and start index of the writer
    go, but its writer was constructed anew, so that its count of bytes
    is 0 whatever the length of the file; if the segment of the writer
    was full, recovery has instead rotated to the next index, as the
    next append would have done. *)
Theorem restart_recovers_appended from0 es entries :
  from0 = 0 ∨ from0 = 1 →
  Forall (λ e, entry_fits e = true) es →
  Z.of_nat (length es) + R + 1 < 2 ^ 64 →
  ∃ st_n w content,
    (readChangelogAndInitWriter from0;; append_all 1 es sync) (new_Changelog dir_ R)
    = Done tt st_n
    ∧ current_writer st_n = Some w
    ∧ disk st_n !! filepath w = Some content
    ∧ plain_buf_count w = Z.of_nat (length content)
    ∧ (entries ≡ₚ (λ kd, path kd.2) <$> items_asc (existing_changelogs st_n) →
       ∃ st_r,
         Changelog_new dir_ R entries (disk st_n) = inr st_r
         ∧ readChangelogAndInitWriter from_ st_r
           = if entries_written w =? R
             then rotate (Z.of_nat (length es) + 1) st_n
             else Done tt (writer_reopened st_n)).
Proof.
  intros Hfrom Hfits Hn.
  destruct (appended_stored from0 es Hfrom Hfits Hn) as (init & last_ & st_n & Hrun & Hst & Hlen).
  exists st_n, (Writer (path (segment_at (chunk_key (length init)))) (entries_size last_)
                  (Z.of_nat (length last_)) (chunk_key (length init))),
         (encode_entries (chunk_key (length init)) last_).
  split; [done|]. split; [apply (stored_writer _ _ _ Hst)|].
  split.
  { cbn [filepath]. apply (stored_files _ _ _ Hst).
    rewrite lookup_app_r by lia. by rewrite Nat.sub_diag. }
  split.
  { cbn [plain_buf_count]. symmetry. apply length_encode_entries.
    apply Forall_entry_fits_buffers.
    pose proof (stored_fits _ _ _ Hst) as Hf. apply Forall_app in Hf as [_ Hf].
    by rewrite Forall_singleton in Hf. }
  intros Hperm. eexists. split.
  - apply Changelog_new_segments; [|done].
    rewrite (stored_segments _ _ _ Hst). apply segments_upto_named.
    pose proof (stored_bound _ _ _ Hst). lia.
  - rewrite (recover_stored init last_ st_n Hst). cbn [entries_written].
    destruct (Z.of_nat (length last_) =? R) eqn:Hfull; [|done].
    apply Z.eqb_eq in Hfull. f_equal. lia.
Qed.

(** X12. The segments that appends create are well formed: after the entries
    [es] were appended at the indices from 1 on in a fresh changelog,
    every segment is filed under its first index, holds the range of [R]
    indices from there, the ranges are disjoint and in the order of the
    keys, no two segments share a file, and the files are named after
    the segments. *)
Theorem appended_segments_well_formed from0 es :
  from0 = 0 ∨ from0 = 1 →
  Forall (λ e, entry_fits e = true) es →
  Z.of_nat (length es) + R + 1 < 2 ^ 64 →
  ∃ st_n,
    (readChangelogAndInitWriter from0;; append_all 1 es sync) (new_Changelog dir_ R)
    = Done tt st_n
    ∧ segments_ordered (existing_changelogs st_n)
    ∧ paths_distinct (existing_changelogs st_n)
    ∧ segments_named dir_ (existing_changelogs st_n)
    ∧ ∀ k d, existing_changelogs st_n !! k = Some d →
        to_log_idx d = k + R - 1 ∧ disk st_n !! path d ≠ None.
Proof.
  intros Hfrom Hfits Hn.
  destruct (appended_stored from0 es Hfrom Hfits Hn) as (init & last_ & st_n & Hrun & Hst & Hlen).
  exists st_n. split; [done|].
  pose proof (stored_bound _ _ _ Hst) as Hb.
  rewrite (stored_segments _ _ _ Hst).
  destruct (segments_upto_ordered (length init)) as [Hord Hpaths]; [lia|].
  split_and!; [done|done|apply segments_upto_named; lia|].
  intros k d (i & Hi & -> & ->)%segments_upto_lookup_Some.
  pose proof (chunk_key_pos i).
  assert (chunk_key i ≤ chunk_key (length init)).
  { destruct (decide (i = length init)) as [->|]; [done|].
    pose proof (chunk_key_mono i (length init) ltac:(lia)). lia. }
  destruct (segment_at_capacity (chunk_key i)) as [Hto _]; [lia|lia|].
  split; [done|].
  assert (is_Some ((init ++ [last_]) !! i)) as [c Hc].
  { apply lookup_lt_is_Some. rewrite length_app. simpl. lia. }
  by rewrite (stored_files _ _ _ Hst i c Hc).
Qed.

(** ** The last entry *)

Lemma size_of_range (m : IndexToLogEntry) n :
  0 ≤ n → (∀ j, is_Some (m !! j) ↔ 1 ≤ j ≤ n) → Z.of_nat (size m) = n.
Proof.
  intros Hn Hm. rewrite <- size_dom.
  assert (dom m = list_to_set (seqZ 1 n)) as ->.
  { apply set_eq. intros j. rewrite elem_of_dom, Hm, elem_of_list_to_set, elem_of_seqZ. lia. }
  rewrite size_list_to_set by apply NoDup_seqZ. rewrite length_seqZ. lia.
Qed.

Lemma append_all_start_index es' :
  ∀ k es st,
    appended dir_ R k es st → Z.of_nat (length es) = k → start_index st = 1 →
    Forall (λ e, is_Some (get_buf_ptr e)) es' →
    k + Z.of_nat (length es') < 2 ^ 64 →
    ∃ st', append_all (k + 1) es' sync st = Done tt st'
      ∧ appended dir_ R (k + Z.of_nat (length es')) (es ++ es') st'
      ∧ start_index st' = 1.
Proof.
  induction es' as [|e es' IH]; intros k es st Hinv Hlen Hsi Hbufs Hk.
  { exists st. split; [done|]. simpl. rewrite app_nil_r, Z.add_0_r. done. }
  cbn [append_all]. apply Forall_cons in Hbufs as [Hb Hbufs].
  rewrite length_cons in Hk.
  destruct (appendEntry_appended dir_ R sync R_range k es e st Hinv Hlen Hb)
    as (st1 & Hrun & Hinv1); [lia|].
  rewrite (bind_run _ _ _ _ _ Hrun).
  assert (Hsi1 : start_index st1 = 1).
  { rewrite (appendEntry_start_index _ _ _ _ _ Hrun).
    destruct (map_is_empty (logs st)) eqn:Hemp; [|done].
    apply map_is_empty_true in Hemp.
    destruct (decide (k = 0)) as [->|Hne]; [done|].
    pose proof (inv_logs _ _ _ _ _ Hinv 1) as Hl. rewrite Hemp, lookup_empty in Hl.
    rewrite decide_True in Hl by lia. symmetry in Hl.
    apply lookup_ge_None in Hl. simpl in Hl. lia. }
  destruct (IH (k + 1) (es ++ [e]) st1 Hinv1) as (st' & Hrun' & Hinv' & Hsi'); [|done|done| |].
  { rewrite length_app. simpl. lia. }
  { lia. }
  exists st'. split; [done|]. rewrite <- app_assoc in Hinv'.
  replace (k + Z.of_nat (length (e :: es'))) with (k + 1 + Z.of_nat (length es'))
    by (rewrite length_cons; lia).
  done.
Qed.

(** X13. After the entries [es] were appended at the indices from 1 on in a
    fresh changelog, the next index is their number plus one and
    [getLastEntry] returns a clone of the last of them; when nothing was
    appended it returns the fake entry, whose term is 0. The state is
    left as it was. *)
Theorem getLastEntry_after_appends from0 es :
  from0 = 0 ∨ from0 = 1 →
  Forall (λ e, is_Some (get_buf_ptr e)) es →
  Z.of_nat (length es) + 1 < 2 ^ 64 →
  ∃ st_n,
    (readChangelogAndInitWriter from0;; append_all 1 es sync) (new_Changelog dir_ R)
    = Done tt st_n
    ∧ getNextEntryIndex st_n = Done (Z.of_nat (length es) + 1) st_n
    ∧ getLastEntry st_n = Done (default fake_entry (last es)) st_n
    ∧ get_term fake_entry = 0.
Proof.
  intros Hfrom Hbufs Hn.
  destruct (recovered_fresh dir_ R R_range from0 Hfrom) as (st0 & Hrec & Hinv0).
  assert (Hsi0 : start_index st0 = 1).
  { assert (readChangelogAndInitWriter from0 (new_Changelog dir_ R)
            = Done tt (rotate_state 1 (set_start_index 1 (new_Changelog dir_ R)))) as Heq
      by (destruct Hfrom as [-> | ->]; reflexivity).
    rewrite Heq in Hrec. by injection Hrec as <-. }
  destruct (append_all_start_index es 0 [] st0 Hinv0 eq_refl Hsi0 Hbufs ltac:(lia))
    as (st_n & Hrun & Hinv & Hsi).
  cbn [app] in Hinv. rewrite Z.add_0_l in Hinv. cbn [Z.add] in Hrun.
  exists st_n. split; [by rewrite (bind_run _ _ _ _ _ Hrec)|].
  set (n := Z.of_nat (length es)) in *.
  assert (Hsize : Z.of_nat (size (logs st_n)) = n).
  { apply size_of_range; [lia|]. intros j. rewrite (inv_logs _ _ _ _ _ Hinv j).
    case_decide as Hj.
    - split; [done|]. intros _. apply lookup_lt_is_Some. lia.
    - split; [by intros [? ?]|done]. }
  assert (Hnext : getNextEntryIndex st_n = Done (n + 1) st_n).
  { unfold getNextEntryIndex. rewrite bind_get. unfold ret. f_equal.
    rewrite Hsi, Hsize. rewrite wrap64_small by lia. lia. }
  split; [done|]. split; [|done].
  unfold getLastEntry. rewrite (bind_run _ _ _ _ _ Hnext), bind_get.
  replace (n + 1 - 1) with n by lia. rewrite wrap64_small by lia.
  rewrite (inv_logs _ _ _ _ _ Hinv n).
  destruct (decide (1 ≤ n ≤ n)) as [Hn1|Hn0].
  - rewrite last_lookup.
    replace (Z.to_nat (n - 1)) with (Nat.pred (length es)) by lia.
    destruct (es !! Nat.pred (length es)) as [e|] eqn:He.
    + simpl. rewrite makeClone_Some; [done|].
      rewrite Forall_forall in Hbufs. apply Hbufs. by eapply list_elem_of_lookup_2.
    + apply lookup_ge_None in He. lia.
  - assert (es = []) as -> by (destruct es; [done|simpl in *; lia]). done.
Qed.

(** ** A crash in the middle of a write *)

Lemma rotate_stored init last_ st :
  stored init last_ st →
  Z.of_nat (length last_) = R →
  chunk_key (length init) + R + R < 2 ^ 64 →
  stored (init ++ [last_]) [] (rotate_state (chunk_key (length init) + R) st).
Proof.
  intros [Hdir HR Hsi Hfull Hlast Hb0 Hfits Hseg Hfiles Hlogs Hoffs Hw] Hfull_last Hbound.
  assert (Hlen : length (init ++ [last_]) = S (length init)).
  { rewrite length_app. simpl. lia. }
  assert (Hidx : chunk_key (length init) + R = chunk_key (S (length init)))
    by by rewrite chunk_key_S.
  unfold rotate_state. rewrite Hdir, HR, Hidx. fold (segment_at (chunk_key (S (length init)))).
  constructor; rewrite ?Hlen;
    cbn [changelogs_dir rotate_interval existing_changelogs logs index_to_start_pos
         start_index current_writer disk length].
  - done.
  - done.
  - done.
  - apply Forall_app. split; [done|]. by apply Forall_singleton.
  - lia.
  - rewrite <- Hidx. lia.
  - apply Forall_app. split; [done|]. by repeat constructor.
  - by rewrite Hseg.
  - intros j c Hc.
    destruct (decide (j = S (length init))) as [->|Hj].
    + rewrite lookup_app_r in Hc by lia. rewrite Hlen, Nat.sub_diag in Hc.
      injection Hc as <-. by rewrite lookup_insert_eq.
    + rewrite lookup_insert_ne by by apply chunk_path_ne.
      apply Hfiles. rewrite lookup_app_l in Hc; [done|].
      apply lookup_lt_Some in Hc. rewrite length_app, Hlen in Hc. simpl in Hc. lia.
  - by rewrite store_chunks_snoc, Hlogs.
  - by rewrite store_chunks_snoc, Hoffs.
  - done.
Qed.

(** Recovery when the file of the writer ends in a record cut short. *)
Lemma recover_torn_stored init last_ st e cut :
  stored init last_ st →
  Z.of_nat (length last_) < R →
  entry_fits e = true →
  0 < cut < record_size e →
  readChangelogAndInitWriter from_
    (Changelog_ dir_ R (existing_changelogs st) ∅ ∅ 0 None
       (<[path (segment_at (chunk_key (length init)))
          := encode_entries (chunk_key (length init)) last_
             ++ take (Z.to_nat cut)
                  (encode_record
                     (buildRecord (chunk_key (length init) + Z.of_nat (length last_)) e))]>
          (disk st)))
  = Done tt (writer_reopened st).
Proof.
  intros [Hdir HR Hsi Hfull Hlast Hb0 Hfits Hseg Hfiles Hlogs Hoffs Hw] Hshort He Hcut.
  set (key := chunk_key (length init)) in *.
  pose proof (chunk_key_pos (length init)) as Hkey1. fold key in Hkey1.
  apply Forall_app in Hfits as [Hfits_init Hfits_last].
  rewrite Forall_singleton in Hfits_last.
  set (torn := take _ _). set (disk' := <[_ := _]> (disk st)).
  unfold readChangelogAndInitWriter. rewrite bind_modify, bind_get.
  assert ((if from_ =? 0 then 1 else from_) = 1) as ->
    by (destruct from_range as [H|H]; by rewrite H).
  set (st0 := set_start_index 1 _).
  change (existing_changelogs st0) with (existing_changelogs st).
  rewrite Hseg, items_asc_segments_upto, seq_S, fmap_app. cbn [Nat.add fmap list_fmap].
  destruct (replay_full_chunks disk' init 0 ∅ ∅) as (rs & Hrs & Hsum & Hall & Hlen);
    [done|done|cbn [Nat.add]; fold key; lia| |done|].
  { intros i c Hc. cbn [Nat.add]. subst disk'.
    rewrite lookup_insert_ne.
    2:{ apply chunk_path_ne. apply lookup_lt_Some in Hc. lia. }
    apply Hfiles. by apply lookup_app_l_Some. }
  destruct (replay_changelogs_full _ _ _ _ _ _ _ _ Hrs st0 [chunk_item (length init)]
              (RecoveryVars 0 0 0 (ReadResult 0 0 false)) eq_refl eq_refl eq_refl)
    as (v' & Hrun & Htotal & Hinc & _ & _).
  cbn [total_read incomplete_log_idx] in Htotal, Hinc.
  set (lg1 := (store_chunks 0 init ∅ ∅).1) in *.
  set (ofs1 := (store_chunks 0 init ∅ ∅).2) in *.
  destruct (segment_at_capacity key) as [Hto Hcap]; [lia|lia|].
  assert (Hfile : disk st !! path (segment_at key) = Some (encode_entries key last_)).
  { apply Hfiles. rewrite lookup_app_r by lia. by rewrite Nat.sub_diag. }
  assert (Hfile' : disk' !! path (segment_at key) = Some (encode_entries key last_ ++ torn))
    by apply lookup_insert_eq.
  destruct (read_entries_result_fields last_ ltac:(lia)) as [Hcount _].
  assert (Hread : readChangelog (encode_entries key last_ ++ torn) lg1 from_ ofs1
                  = (ReadResult (Z.of_nat (length last_)) (entries_size last_) true,
                     logs st, index_to_start_pos st)).
  { rewrite Hlogs, Hoffs, store_chunks_snoc. cbn [Nat.add]. fold key lg1 ofs1.
    rewrite <- Hcount.
    apply readChangelog_entries_tail; [done|lia|lia| | |].
    - intros i Hi. subst lg1.
      destruct (store_chunks_above init 0 ∅ ∅ i) as [-> _];
        [|cbn [Nat.add]; fold key; lia|done].
      eapply Forall_impl; [exact Hfull|]. intros c Hc. simpl in Hc. lia.
    - intros Hnil. apply (f_equal length) in Hnil. subst torn.
      rewrite length_take in Hnil.
      pose proof (length_encode_record (key + Z.of_nat (length last_)) e
                    (entry_fits_buffer e He)).
      simpl in Hnil. lia.
    - apply read_record_torn; [done|lia|lia]. }
  set (r := ReadResult (Z.of_nat (length last_)) (entries_size last_) true) in *.
  set (st1 := Changelog_ dir_ R (existing_changelogs st) (logs st) (index_to_start_pos st)
                1 None disk').
  assert (Hkey_max : ∀ j, is_Some (segments_upto (length init) !! j) → j ≤ key).
  { intros j [d' Hd]. apply segments_upto_lookup_Some in Hd as (i & Hi & -> & _).
    subst key. pose proof (chunk_key_mono i (length init)).
    destruct (decide (i = length init)) as [->|]; lia. }
  assert (Hscan : replay_changelogs from_
                    ((chunk_item <$> seq 0 (length init)) ++ [chunk_item (length init)])
                    (RecoveryVars 0 0 0 (ReadResult 0 0 false)) st0
                  = Done (RecoveryVars (wrap64 (total_read v' + Z.of_nat (length last_))) R
                            key r) st1).
  { rewrite Hrun. unfold chunk_item. fold key. set (d := segment_at key) in *.
    cbn [replay_changelogs]. rewrite Hto.
    assert ((from_ <=? key + R - 1) = true) as ->.
    { destruct from_range as [H|H]; rewrite H; lia. }
    unfold bind at 1. unfold get at 1.
    cbn [with_maps disk set_logs set_index_to_start_pos st0 set_start_index
         logs index_to_start_pos].
    fold disk'. rewrite Hfile', Hread, bind_modify. rewrite <- Hto. fold (capacity d).
    rewrite Hcap. cbn [entries_read r].
    assert ((Z.of_nat (length last_) <? R) = true) as -> by lia.
    cbn [replay_changelogs]. by unfold ret. }
  rewrite (bind_run _ _ _ _ _ Hscan). clear Hscan Hrun.
  cbn [incomplete_log_idx last_result entries_in_last total_read entries_read error
       last_position r].
  assert ((key =? 0) = false) as -> by lia. cbn [negb when].
  assert (Hrm : remove_changelogs_after key st1 = Done tt st1).
  { apply remove_changelogs_after_none. intros j Hj. cbn [st1 existing_changelogs].
    rewrite Hseg. apply eq_None_not_Some. intros Hd. apply Hkey_max in Hd. lia. }
  rewrite (bind_run _ _ _ _ _ Hrm). clear Hrm.
  rewrite bind_get. cbn [st1 existing_changelogs].
  rewrite Hseg, segments_upto_nonempty. cbn [negb andb].
  assert ((Z.of_nat (length last_) <? R) = true) as -> by lia.
  rewrite (rbegin_greatest _ key); [|subst key; rewrite segments_upto_lookup_key by lia; eauto
                                     |done].
  cbn [mbind option_bind]. subst key. rewrite segments_upto_lookup_key by lia.
  pose proof (length_encode_entries (chunk_key (length init)) last_
                (Forall_entry_fits_buffers last_ Hfits_last)) as Hsize.
  pose proof (entries_size_length last_) as Hsz. unfold HEADER_SIZE in Hsz.
  unfold new_ChangelogWriter, setEntriesWritten, truncateToLength, the_writer, when.
  unfold bind, modify, ret. unfold_setters. subst st1.
  cbn [changelogs_dir rotate_interval existing_changelogs logs
    index_to_start_pos start_index current_writer disk filepath w_start_index].
  assert ((entries_size last_ <? 0) = false) as -> by lia.
  unfold open_file. rewrite Hfile'.
  cbn [changelogs_dir rotate_interval existing_changelogs logs
    index_to_start_pos start_index current_writer disk filepath w_start_index from_log_idx
    segment_at path].
  fold (segment_at (chunk_key (length init))).
  assert (Hdisk : alter (truncate_bytes (entries_size last_))
                    (path (segment_at (chunk_key (length init)))) disk' = disk st).
  { subst disk'. rewrite alter_insert_eq. unfold truncate_bytes.
    rewrite <- Hsize, Nat2Z.id, take_app_length.
    replace (_ - _)%nat with 0%nat by (rewrite length_app; lia).
    cbn [replicate]. rewrite app_nil_r. by apply insert_id. }
  unfold writer_reopened. unfold_setters. f_equal.
  destruct st as [dir1 R1 ex1 lg ofs si cw dk].
  cbn [changelogs_dir rotate_interval start_index current_writer disk
       existing_changelogs logs index_to_start_pos] in *.
  cbn [segment_at path] in Hdisk. rewrite Hdisk. by rewrite Hdir, HR, Hsi, Hw.
Qed.

(** X14. Crash in the middle of a write. A changelog is recovered in an
    empty directory and the entries [es] are appended at the indices from
    1 on. The next [appendEntry] first rotates if the segment of the
    writer is full, and then appends the bytes of its record to the file
    of the writer; [st_w] is the state in which it does so. If the
    process stops when only a part of these bytes is in the file (at
    least one and not all of them), a new instance constructed on the
    directory and recovered reaches [st_w] with its writer constructed
    anew: the same entries, offsets and segments, the file cut back to
    the end of its last whole record, and a writer on that file with the
    same counter of entries and start index, whose count of bytes is
    0. *)
Theorem restart_after_torn_write from0 es e cut entries :
  from0 = 0 ∨ from0 = 1 →
  Forall (λ e, entry_fits e = true) es →
  entry_fits e = true →
  Z.of_nat (length es) + R + R + 1 < 2 ^ 64 →
  0 < cut < record_size e →
  ∃ st_n w_n st_w w content,
    (readChangelogAndInitWriter from0;; append_all 1 es sync) (new_Changelog dir_ R)
    = Done tt st_n
    ∧ current_writer st_n = Some w_n
    ∧ (if entries_written w_n =? rotate_interval st_n
       then rotate (Z.of_nat (length es) + 1) st_n else Done tt st_n) = Done tt st_w
    ∧ current_writer st_w = Some w
    ∧ disk st_w !! filepath w = Some content
    ∧ (entries ≡ₚ (λ kd, path kd.2) <$> items_asc (existing_changelogs st_w) →
       ∃ st_r,
         Changelog_new dir_ R entries
           (<[filepath w
              := content ++ take (Z.to_nat cut)
                              (encode_record
                                 (buildRecord (Z.of_nat (length es) + 1) e))]> (disk st_w))
         = inr st_r
         ∧ readChangelogAndInitWriter from_ st_r = Done tt (writer_reopened st_w)).
Proof.
  intros Hfrom Hfits He Hn Hcut.
  destruct (appended_stored from0 es Hfrom Hfits ltac:(lia))
    as (init & last_ & st_n & Hrun & Hst & Hlen).
  pose proof (stored_last _ _ _ Hst) as Hlast.
  assert (Hgen : ∀ init' last' st_w,
            stored init' last' st_w → Z.of_nat (length last') < R →
            chunk_key (length init') + Z.of_nat (length last') = Z.of_nat (length es) + 1 →
            ∃ w content,
              current_writer st_w = Some w
              ∧ disk st_w !! filepath w = Some content
              ∧ (entries ≡ₚ (λ kd, path kd.2) <$> items_asc (existing_changelogs st_w) →
                 ∃ st_r,
                   Changelog_new dir_ R entries
                     (<[filepath w
                        := content ++ take (Z.to_nat cut)
                             (encode_record
                                (buildRecord (Z.of_nat (length es) + 1) e))]> (disk st_w))
                   = inr st_r
                   ∧ readChangelogAndInitWriter from_ st_r
                     = Done tt (writer_reopened st_w))).
  { intros init' last' st_w Hst' Hshort Hidx.
    exists (Writer (path (segment_at (chunk_key (length init')))) (entries_size last')
              (Z.of_nat (length last')) (chunk_key (length init'))),
           (encode_entries (chunk_key (length init')) last').
    split; [apply (stored_writer _ _ _ Hst')|]. split.
    { cbn [filepath]. apply (stored_files _ _ _ Hst').
      rewrite lookup_app_r by lia. by rewrite Nat.sub_diag. }
    intros Hperm. eexists. split.
    - apply Changelog_new_segments; [|done].
      rewrite (stored_segments _ _ _ Hst'). apply segments_upto_named.
      pose proof (stored_bound _ _ _ Hst'). lia.
    - cbn [filepath]. rewrite <- Hidx.
      by apply (recover_torn_stored init' last' st_w e cut). }
  exists st_n, (Writer (path (segment_at (chunk_key (length init)))) (entries_size last_)
                  (Z.of_nat (length last_)) (chunk_key (length init))).
  rewrite (stored_interval _ _ _ Hst). cbn [entries_written].
  destruct (Z.of_nat (length last_) =? R) eqn:Hfull.
  - apply Z.eqb_eq in Hfull.
    pose proof (rotate_stored init last_ st_n Hst Hfull ltac:(lia)) as Hst'.
    destruct (Hgen _ _ _ Hst') as (w & content & Hw & Hc & Hrec).
    { simpl. lia. }
    { rewrite length_app. cbn [length]. rewrite Nat.add_1_r, chunk_key_S. lia. }
    exists (rotate_state (chunk_key (length init) + R) st_n), w, content.
    split_and!; try done; [apply (stored_writer _ _ _ Hst)|].
    rewrite rotate_eq. do 2 f_equal. lia.
  - apply Z.eqb_neq in Hfull.
    destruct (Hgen _ _ _ Hst) as (w & content & Hw & Hc & Hrec); [lia|lia|].
    exists st_n, w, content. split_and!; try done. apply (stored_writer _ _ _ Hst).
Qed.

(** ** Overwriting inside the segment of the writer *)

(** The files on the disk are those of the segments. *)
Definition disk_only_segments (st : Changelog) : Prop :=
  ∀ p, is_Some (disk st !! p) →
    ∃ k d, existing_changelogs st !! k = Some d ∧ path d = p.

Lemma stored_lookup_last init last_ st i :
  stored init last_ st →
  chunk_key (length init) ≤ i →
  logs st !! i = last_ !! Z.to_nat (i - chunk_key (length init))
  ∧ index_to_start_pos st !! i
    = (λ _, entries_size (take (Z.to_nat (i - chunk_key (length init))) last_))
        <$> last_ !! Z.to_nat (i - chunk_key (length init)).
Proof.
  intros [Hdir HR Hsi Hfull Hlast Hb0 Hfits Hseg Hfiles Hlogs Hoffs Hw] Hi.
  set (key := chunk_key (length init)) in *.
  pose proof (chunk_key_pos (length init)) as Hkey1. fold key in Hkey1.
  rewrite Hlogs, Hoffs, store_chunks_snoc. cbn [Nat.add]. fold key.
  destruct (store_entries_lookup from_ last_ key 0 (store_chunks 0 init ∅ ∅).1
              (store_chunks 0 init ∅ ∅).2 i) as [-> ->].
  destruct (store_chunks_above init 0 ∅ ∅ i) as [Habove1 Habove2];
    [|cbn [Nat.add]; fold key; lia|].
  { eapply Forall_impl; [exact Hfull|]. intros c Hc. simpl in Hc. lia. }
  rewrite Habove1, Habove2, !lookup_empty.
  case_decide as Hc.
  - destruct (last_ !! Z.to_nat (i - key)) eqn:E; [by rewrite Z.add_0_l|].
    apply lookup_ge_None in E. lia.
  - rewrite lookup_ge_None_2; [done|]. destruct from_range; lia.
Qed.

Lemma stored_unique init last_ st1 st2 :
  stored init last_ st1 → stored init last_ st2 →
  disk_only_segments st1 → disk_only_segments st2 →
  st1 = st2.
Proof.
  intros H1 H2 Hd1 Hd2.
  assert (Hsame : ∀ sta stb, stored init last_ sta → stored init last_ stb →
            disk_only_segments sta → ∀ p, is_Some (disk sta !! p) →
            disk sta !! p = disk stb !! p).
  { intros sta stb Ha Hb Hda p Hp.
    destruct (Hda p Hp) as (k & d & Hd & <-).
    rewrite (stored_segments _ _ _ Ha) in Hd.
    apply segments_upto_lookup_Some in Hd as (i & Hi & -> & ->).
    destruct (lookup_lt_is_Some_2 (init ++ [last_]) i) as [c Hc].
    { rewrite length_app. simpl. lia. }
    by rewrite (stored_files _ _ _ Ha i c Hc), (stored_files _ _ _ Hb i c Hc). }
  assert (Hdisk : disk st1 = disk st2).
  { apply map_eq. intros p.
    destruct (disk st1 !! p) as [c1|] eqn:E1.
    - rewrite <- E1. apply (Hsame st1 st2); [done..|]. rewrite E1. eauto.
    - destruct (disk st2 !! p) as [c2|] eqn:E2; [|done].
      rewrite <- E1, <- E2. symmetry. apply (Hsame st2 st1); [done..|]. rewrite E2. eauto. }
  destruct H1 as [Hdir1 HR1 Hsi1 _ _ _ _ Hseg1 _ Hlogs1 Hoffs1 Hw1].
  destruct H2 as [Hdir2 HR2 Hsi2 _ _ _ _ Hseg2 _ Hlogs2 Hoffs2 Hw2].
  destruct st1, st2. simpl in *. congruence.
Qed.

Lemma chunks_unique (init1 init2 : list (list log_entry)) last1 last2 :
  Forall (λ c, Z.of_nat (length c) = R) init1 →
  Forall (λ c, Z.of_nat (length c) = R) init2 →
  0 < Z.of_nat (length last1) ≤ R → 0 < Z.of_nat (length last2) ≤ R →
  concat init1 ++ last1 = concat init2 ++ last2 →
  init1 = init2 ∧ last1 = last2.
Proof.
  intros H1. revert init2. induction H1 as [|c1 init1 Hc1 _ IH]; intros init2 H2 Hl1 Hl2 Heq.
  - destruct H2 as [|c2 init2 Hc2 _]; [done|].
    simpl in Heq. apply (f_equal length) in Heq. rewrite !length_app in Heq. lia.
  - destruct H2 as [|c2 init2 Hc2 H2].
    + simpl in Heq. apply (f_equal length) in Heq. rewrite !length_app in Heq. lia.
    + simpl in Heq. rewrite <- !(assoc_L (++)) in Heq.
      apply app_inj_1 in Heq as [-> Heq]; [|lia].
      destruct (IH init2 H2 Hl1 Hl2 Heq) as [-> ->]. done.
Qed.

(** The state [st] in which the offset recorded for [index_] is [offset_]
    and the writer has written [count_] bytes. *)
Definition overwritten (index_ offset_ count_ : Z) (st : Changelog) : Changelog :=
  set_index_to_start_pos <[index_ := offset_]>
    (set_current_writer
       ((λ w, Writer (filepath w) count_ (entries_written w) (w_start_index w))
          <$> current_writer st) st).

Lemma writeAt_stored init last_ st j e' :
  stored init last_ st →
  (j < length last_)%nat →
  entry_fits e' = true →
  (∀ i, 1 ≤ i < chunk_key (length init) + Z.of_nat (length last_) → is_Some (logs st !! i)) →
  ∃ st' st_a,
    writeAt (chunk_key (length init) + Z.of_nat j) e' sync st = Done tt st'
    ∧ stored init (take j last_ ++ [e']) st_a
    ∧ st' = overwritten (chunk_key (length init) + Z.of_nat j) (entries_size last_)
              (entries_size last_ + record_size e') st_a
    ∧ existing_changelogs st_a = existing_changelogs st
    ∧ (∀ p, is_Some (disk st_a !! p) ↔ is_Some (disk st !! p)).
Proof.
  intros Hst Hj He' Hall.
  assert (Hlook := λ i, stored_lookup_last init last_ st i Hst).
  pose proof Hst as [Hdir HR Hsi Hfull Hlast Hb0 Hfits Hseg Hfiles Hlogs Hoffs Hw].
  set (key := chunk_key (length init)) in *. set (idx := key + Z.of_nat j).
  set (p := path (segment_at key)) in *.
  pose proof (chunk_key_pos (length init)) as Hkey1. fold key in Hkey1.
  apply Forall_app in Hfits as [Hfits_init Hfits_last].
  rewrite Forall_singleton in Hfits_last.
  pose proof (entry_fits_buffer e' He') as Hb'.
  destruct (lookup_lt_is_Some_2 last_ j Hj) as [ej Hej].
  set (off := entries_size (take j last_)).
  set (c := entries_size last_) in *.
  assert (Hoff0 : 0 ≤ off) by apply entries_size_nonneg.
  assert (Hoff : index_to_start_pos st !! idx = Some off).
  { destruct (Hlook idx ltac:(subst idx; lia)) as [_ ->].
    replace (Z.to_nat (idx - key)) with j by (subst idx; lia). by rewrite Hej. }
  assert (Hfile : disk st !! p = Some (encode_entries key last_)).
  { apply Hfiles. rewrite lookup_app_r by lia. by rewrite Nat.sub_diag. }
  assert (Hcut : truncate_bytes off (encode_entries key last_)
                 = encode_entries key (take j last_)).
  { rewrite <- (take_drop j last_) at 1. rewrite encode_entries_app.
    unfold truncate_bytes, off.
    rewrite <- (length_encode_entries key (take j last_))
      by (apply Forall_entry_fits_buffers; by apply Forall_take).
    rewrite Nat2Z.id, take_app_length.
    replace (_ - _)%nat with 0%nat by (rewrite length_app; lia).
    cbn [replicate]. by rewrite app_nil_r. }
  unfold writeAt. rewrite bind_get, Hoff.
  assert (H1 : getStartIndex st = Done key st).
  { unfold getStartIndex, the_writer, bind. by rewrite Hw. }
  rewrite (bind_run _ _ _ _ _ H1). clear H1.
  assert ((idx <? key) = false) as -> by (subst idx; lia).
  unfold when. rewrite bind_ret.
  assert (H1 : getEntriesWritten st = Done (Z.of_nat (length last_)) st).
  { unfold getEntriesWritten, the_writer, bind. by rewrite Hw. }
  rewrite (bind_run _ _ _ _ _ H1). clear H1.
  assert (H2 : truncateToLength off st
               = Done tt (set_disk (alter (truncate_bytes off) p) st)).
  { unfold truncateToLength, the_writer, bind. rewrite Hw. cbn [filepath].
    by assert ((off <? 0) = false) as -> by lia. }
  rewrite (bind_run _ _ _ _ _ H2). clear H2.
  rewrite bind_ret, bind_get, rollback_fold, bind_modify.
  set (st2 := set_disk _ st).
  change (logs st2) with (logs st). change (index_to_start_pos st2) with (index_to_start_pos st).
  set (ks := keys_from (logs st) idx).
  assert (Hks : ks ≡ₚ seqZ idx (Z.of_nat (length last_) - Z.of_nat j)).
  { apply NoDup_Permutation.
    - unfold ks, keys_from. apply NoDup_filter, keys_asc_NoDup.
    - apply NoDup_seqZ.
    - intros i. unfold ks. rewrite elem_of_keys_from, elem_of_seqZ. split.
      + intros [Hi Hs]. destruct (Hlook i ltac:(subst idx; lia)) as [Hl _].
        rewrite Hl in Hs. apply lookup_lt_is_Some in Hs. subst idx. lia.
      + intros Hi. split; [lia|]. apply Hall. subst idx. lia. }
  assert (Hlen : Z.of_nat (length ks) = Z.of_nat (length last_) - Z.of_nat j).
  { rewrite Hks, length_seqZ. lia. }
  rewrite iter_decrement by lia. rewrite Hlen.
  replace (Z.of_nat (length last_) - (Z.of_nat (length last_) - Z.of_nat j))
    with (Z.of_nat j) by lia.
  rewrite (wrap64_small (Z.of_nat j)) by lia.
  set (st4 := set_logs _ _).
  assert (H3 : setEntriesWritten (Z.of_nat j) st4
               = Done tt (set_current_writer (Some (Writer p c (Z.of_nat j) key)) st4)).
  { unfold setEntriesWritten, the_writer, bind. subst st4 st2. unfold_setters.
    cbn [current_writer]. by rewrite Hw. }
  rewrite (bind_run _ _ _ _ _ H3). clear H3.
  set (st5 := set_current_writer _ st4).
  assert (Hlogs5 : ∀ i, logs st5 !! i = if decide (idx ≤ i) then None else logs st !! i).
  { intros i. subst st5 st4 st2. unfold_setters. cbn [logs]. apply lookup_rollback_logs. }
  assert (Hoffs5 : ∀ i, index_to_start_pos st5 !! i
                        = if decide (idx ≤ i) then None else index_to_start_pos st !! i).
  { intros i. subst st5 st4 st2. unfold_setters. cbn [index_to_start_pos].
    unfold ks. rewrite lookup_rollback_offsets.
    destruct (decide (idx ≤ i)) as [Hi|Hi].
    - destruct (Hlook i ltac:(subst idx; lia)) as [Hl Ho].
      case_decide as Hc; [done|]. rewrite Ho.
      destruct (last_ !! Z.to_nat (i - key)) eqn:E; [|done].
      exfalso. apply Hc. split; [done|]. rewrite Hl. eauto.
    - rewrite decide_False; [done|]. intros [? _]. done. }
  assert (Hfile5 : disk st5 !! p = Some (encode_entries key (take j last_))).
  { subst st5 st4 st2. unfold_setters. cbn [disk].
    by rewrite lookup_alter_eq, Hfile, <- Hcut. }
  destruct (appendEntry_fields idx e' sync st5 (Writer p c (Z.of_nat j) key) eq_refl)
    as (st' & Hrun & Hdir' & HR' & Hlogs' & Hcase); [|done|].
  { rewrite Hoffs5. by rewrite decide_True. }
  pose proof (appendEntry_start_index _ _ _ _ _ Hrun) as Hstart.
  cbn [entries_written filepath w_start_index plain_buf_count] in Hcase.
  rewrite (length_encode_record idx e' Hb') in Hcase.
  assert ((Z.of_nat j =? rotate_interval st5) = false) as Hnr.
  { subst st5 st4 st2. unfold_setters. cbn [rotate_interval]. lia. }
  rewrite Hnr in Hcase. destruct Hcase as (Hex & Hdk & Hof & Hcw).
  rewrite (wrap64_small (Z.of_nat j + 1)) in Hcw by lia.
  assert (Hlen_new : length (take j last_ ++ [e']) = S j).
  { rewrite length_app, length_take. simpl. lia. }
  assert (Hsize_new : entries_size (take j last_ ++ [e']) = off + record_size e').
  { rewrite entries_size_app. cbn [entries_size]. subst off. lia. }
  set (st_a := set_index_to_start_pos <[idx := off]>
                 (set_current_writer
                    (Some (Writer p (off + record_size e') (Z.of_nat j + 1) key)) st')).
  exists st', st_a. split; [exact Hrun|].
  split; [|split; [|split]].
  - constructor; subst st_a; unfold_setters;
      cbn [changelogs_dir rotate_interval existing_changelogs logs index_to_start_pos
           start_index current_writer disk].
    + rewrite Hdir'. exact Hdir.
    + rewrite HR'. exact HR.
    + rewrite Hstart. destruct (map_is_empty (logs st5)) eqn:Hemp; [|exact Hsi].
      apply map_is_empty_true in Hemp.
      destruct (decide (idx = 1)) as [|Hne]; [done|].
      destruct (Hall 1 ltac:(subst idx; lia)) as [x Hx].
      pose proof (Hlogs5 1) as H1. rewrite decide_False in H1 by lia.
      rewrite Hemp, lookup_empty, Hx in H1. done.
    + done.
    + rewrite Hlen_new. lia.
    + done.
    + apply Forall_app. split; [done|]. apply Forall_singleton.
      apply Forall_app. split; [by apply Forall_take|by apply Forall_singleton].
    + rewrite Hex. exact Hseg.
    + intros i c0 Hc. rewrite Hdk.
      destruct (decide (i = length init)) as [->|Hi].
      * rewrite lookup_app_r in Hc by lia. rewrite Nat.sub_diag in Hc.
        injection Hc as <-. fold key p. rewrite lookup_alter_eq, Hfile5.
        cbn [fmap option_fmap option_map]. f_equal.
        rewrite encode_entries_app. cbn [encode_entries]. rewrite app_nil_r.
        rewrite length_take. do 3 f_equal. subst idx. lia.
      * assert (i < length init)%nat.
        { apply lookup_lt_Some in Hc. rewrite length_app in Hc. simpl in Hc. lia. }
        rewrite lookup_alter_ne by (subst p key; by apply chunk_path_ne).
        subst st5 st4 st2. unfold_setters. cbn [disk].
        rewrite lookup_alter_ne by (subst p key; by apply chunk_path_ne).
        apply Hfiles. rewrite lookup_app_l in Hc by done. by rewrite lookup_app_l.
    + rewrite Hlogs', store_chunks_snoc. cbn [Nat.add]. fold key.
      rewrite store_entries_snoc, length_take.
      replace (key + Z.of_nat (j `min` length last_)) with idx by (subst idx; lia).
      assert ((idx <? from_) = false) as ->
        by (destruct from_range; subst idx; lia).
      cbn [fst]. f_equal. apply map_eq. intros i. rewrite Hlogs5.
      destruct (store_entries_lookup from_ (take j last_) key 0 (store_chunks 0 init ∅ ∅).1
                  (store_chunks 0 init ∅ ∅).2 i) as [-> _].
      rewrite length_take.
      destruct (decide (idx ≤ i)) as [Hi|Hi].
      * rewrite decide_False by (subst idx; lia).
        destruct (store_chunks_above init 0 ∅ ∅ i) as [-> _];
          [|cbn [Nat.add]; fold key; subst idx; lia|done].
        eapply Forall_impl; [exact Hfull|]. intros c0 Hc. simpl in Hc. lia.
      * rewrite Hlogs, store_chunks_snoc. cbn [Nat.add]. fold key.
        destruct (store_entries_lookup from_ last_ key 0 (store_chunks 0 init ∅ ∅).1
                    (store_chunks 0 init ∅ ∅).2 i) as [-> _].
        destruct (decide (key ≤ i)) as [Hk|Hk].
        -- rewrite !decide_True by (destruct from_range; subst idx; lia).
           rewrite lookup_take_lt; [done|]. subst idx. lia.
        -- by rewrite !decide_False by lia.
    + rewrite Hof, insert_insert_eq, store_chunks_snoc. cbn [Nat.add]. fold key.
      rewrite store_entries_snoc, length_take.
      replace (key + Z.of_nat (j `min` length last_)) with idx by (subst idx; lia).
      assert ((idx <? from_) = false) as ->
        by (destruct from_range; subst idx; lia).
      cbn [snd]. fold off. rewrite Z.add_0_l. f_equal.
      apply map_eq. intros i. rewrite Hoffs5.
      destruct (store_entries_lookup from_ (take j last_) key 0 (store_chunks 0 init ∅ ∅).1
                  (store_chunks 0 init ∅ ∅).2 i) as [_ ->].
      rewrite length_take.
      destruct (decide (idx ≤ i)) as [Hi|Hi].
      * rewrite decide_False by (subst idx; lia).
        destruct (store_chunks_above init 0 ∅ ∅ i) as [_ ->];
          [|cbn [Nat.add]; fold key; subst idx; lia|done].
        eapply Forall_impl; [exact Hfull|]. intros c0 Hc. simpl in Hc. lia.
      * rewrite Hoffs, store_chunks_snoc. cbn [Nat.add]. fold key.
        destruct (store_entries_lookup from_ last_ key 0 (store_chunks 0 init ∅ ∅).1
                    (store_chunks 0 init ∅ ∅).2 i) as [_ ->].
        destruct (decide (key ≤ i)) as [Hk|Hk].
        -- rewrite !decide_True by (destruct from_range; subst idx; lia).
           rewrite take_take.
           by replace (Z.to_nat (i - key) `min` j)%nat with (Z.to_nat (i - key))
             by (subst idx; lia).
        -- by rewrite !decide_False by lia.
    + rewrite Hlen_new, Hsize_new. fold key p. do 2 f_equal. lia.
  - subst st_a. unfold overwritten. unfold_setters.
    destruct st' as [dir' R' ex' lg' of' si' cw' dk'].
    cbn [changelogs_dir rotate_interval existing_changelogs logs index_to_start_pos
         start_index current_writer disk fmap option_fmap option_map
         filepath entries_written w_start_index] in *.
    rewrite insert_insert_eq, Hof, insert_insert_eq, Hcw. fold idx. done.
  - subst st_a. unfold_setters. cbn [existing_changelogs]. rewrite Hex. done.
  - intros q. subst st_a. unfold_setters. cbn [disk]. rewrite Hdk.
    subst st5 st4 st2. unfold_setters. cbn [disk].
    destruct (decide (q = p)) as [->|Hq].
    + rewrite !lookup_alter_eq, Hfile. cbn. split; eauto.
    + by rewrite !lookup_alter_ne.
Qed.

(** The state after the appends of [es] at the consecutive indices from
    1 on, with the entries of the segments and nothing on the disk but
    their files. *)
Record tracked (es : list log_entry) (init : list (list log_entry))
    (last_ : list log_entry) (st : Changelog) : Prop := Tracked {
  tracked_stored : stored init last_ st;
  tracked_entries : concat init ++ last_ = es;
  tracked_last : es ≠ [] → last_ ≠ [];
  tracked_present : ∀ i, 1 ≤ i < chunk_key (length init) + Z.of_nat (length last_) →
                      is_Some (logs st !! i);
  tracked_disk : disk_only_segments st
}.

Lemma length_concat_full (init : list (list log_entry)) :
  Forall (λ c, Z.of_nat (length c) = R) init →
  1 + Z.of_nat (length (concat init)) = chunk_key (length init).
Proof.
  unfold chunk_key. induction 1 as [|c init Hc _ IH]; [simpl; lia|].
  cbn [concat length]. rewrite length_app. lia.
Qed.

Lemma tracked_initial from0 :
  from0 = 0 ∨ from0 = 1 → 1 + R < 2 ^ 64 →
  ∃ st, readChangelogAndInitWriter from0 (new_Changelog dir_ R) = Done tt st
    ∧ tracked [] [] [] st.
Proof.
  intros Hfrom HR.
  destruct (stored_initial from0 Hfrom HR) as (st & Hrun & Hst & Hempty).
  exists st. split; [done|]. constructor; try done.
  - cbn [length]. unfold chunk_key. intros i Hi. lia.
  - assert (Hrun' : readChangelogAndInitWriter from0 (new_Changelog dir_ R)
                    = Done tt (rotate_state 1 (set_start_index 1 (new_Changelog dir_ R)))).
    { destruct Hfrom as [-> | ->]; reflexivity. }
    rewrite Hrun' in Hrun. injection Hrun as <-.
    intros p. unfold rotate_state.
    cbn [set_start_index new_Changelog changelogs_dir rotate_interval
         existing_changelogs disk].
    intros Hp. destruct (decide (p = formatChangelogPath dir_
                (FileDescription DEFAULT_PREFIX 1 (wrap64 (1 + R - 1)) ""))) as [->|Hne].
    + eexists 1, _. split; [apply lookup_insert_eq|done].
    + rewrite lookup_insert_ne, lookup_empty in Hp by done. by destruct Hp.
Qed.

Lemma appendEntry_tracked es init last_ e st :
  tracked es init last_ st →
  entry_fits e = true →
  chunk_key (length init) + Z.of_nat (length last_) + R < 2 ^ 64 →
  ∃ st',
    appendEntry (chunk_key (length init) + Z.of_nat (length last_)) e sync st = Done tt st'
    ∧ if Z.of_nat (length last_) =? R
      then tracked (es ++ [e]) (init ++ [last_]) [e] st'
      else tracked (es ++ [e]) init (last_ ++ [e]) st'.
Proof.
  intros [Hst Hes Hlast Hpresent Hdisk] He Hbound.
  set (key := chunk_key (length init)) in *.
  set (idx := key + Z.of_nat (length last_)) in *.
  pose proof (chunk_key_pos (length init)) as Hkey1. fold key in Hkey1.
  assert (Hempty : logs st = ∅ → init = [] ∧ last_ = []).
  { intros Hemp.
    assert (idx ≤ 1) as Hidx.
    { destruct (decide (idx ≤ 1)); [done|].
      destruct (Hpresent 1 ltac:(lia)) as [x Hx]. by rewrite Hemp, lookup_empty in Hx. }
    assert (length last_ = 0%nat) as Hl by (subst idx; lia).
    assert (length init = 0%nat) as Hi.
    { subst idx key. unfold chunk_key in *. nia. }
    by destruct init, last_. }
  destruct (appendEntry_stored init last_ e st Hst Hempty He Hbound)
    as (st' & Hrun & Hne & Hst').
  destruct (stored_free init last_ st idx Hst ltac:(subst idx key; lia)) as [_ Hfree].
  destruct (appendEntry_fields idx e sync st _ (stored_writer _ _ _ Hst) Hfree
              (entry_fits_buffer e He))
    as (st'' & Hrun'' & _ & _ & Hlogs' & Hcase).
  unfold idx, key in Hrun''. rewrite Hrun in Hrun''. injection Hrun'' as <-.
  exists st'. split; [done|].
  rewrite (stored_interval _ _ _ Hst) in Hcase.
  cbn [entries_written filepath w_start_index] in Hcase.
  assert (Hpresent' : ∀ i, 1 ≤ i < idx + 1 → is_Some (logs st' !! i)).
  { intros i Hi. rewrite Hlogs'. destruct (decide (i = idx)) as [->|Hne'].
    - rewrite lookup_insert_eq. eauto.
    - rewrite lookup_insert_ne by done. apply Hpresent. lia. }
  destruct (Z.of_nat (length last_) =? R) eqn:Hfull.
  - apply Z.eqb_eq in Hfull. cbv zeta in Hcase. destruct Hcase as (Hex & Hdk & _ & _).
    constructor.
    + done.
    + rewrite concat_app. cbn [concat]. by rewrite app_nil_r, <- Hes.
    + done.
    + intros i Hi. apply Hpresent'. rewrite length_app in Hi. cbn [length] in Hi.
      rewrite Nat.add_1_r, chunk_key_S in Hi. subst idx. fold key in Hi. lia.
    + intros p. rewrite Hdk, Hex. intros Hp.
      match type of Hp with
      | is_Some (<[?q := _]> _ !! _) => destruct (decide (p = q)) as [->|Hq]
      end.
      * eexists idx, _. split; [apply lookup_insert_eq|done].
      * rewrite lookup_insert_ne in Hp by done.
        destruct (Hdisk p Hp) as (k & d & Hd & Hpath).
        exists k, d. split; [|done]. rewrite lookup_insert_ne; [done|].
        intros <-. rewrite (stored_segments _ _ _ Hst) in Hd.
        apply segments_upto_lookup_Some in Hd as (i & Hi & Hk & _).
        pose proof (chunk_key_mono i (S (length init)) ltac:(lia)) as Hm.
        rewrite chunk_key_S in Hm. subst idx key. lia.
  - destruct Hcase as (Hex & Hdk & _ & _).
    constructor.
    + done.
    + by rewrite (assoc_L (++)), Hes.
    + intros _ Hnil. by apply app_eq_nil in Hnil as [_ ?].
    + intros i Hi. apply Hpresent'. rewrite length_app in Hi. cbn [length] in Hi.
      subst idx. lia.
    + intros p. rewrite Hdk, Hex, lookup_alter_is_Some. apply Hdisk.
Qed.

Lemma append_all_tracked es' :
  ∀ es init last_ st,
    tracked es init last_ st →
    Forall (λ e, entry_fits e = true) es' →
    chunk_key (length init) + Z.of_nat (length last_) + Z.of_nat (length es') + R
      ≤ 2 ^ 64 →
    ∃ init' last' st',
      append_all (chunk_key (length init) + Z.of_nat (length last_)) es' sync st
      = Done tt st'
      ∧ tracked (es ++ es') init' last' st'.
Proof.
  induction es' as [|e es' IH]; intros es init last_ st Hst Hfits Hbound.
  { exists init, last_, st. split; [done|]. by rewrite app_nil_r. }
  apply Forall_cons in Hfits as [He Hfits]. cbn [length] in Hbound.
  destruct (appendEntry_tracked es init last_ e st Hst He ltac:(lia)) as (st1 & Hrun & Hst1).
  cbn [append_all]. rewrite (bind_run _ _ _ _ _ Hrun).
  pose proof (stored_last _ _ _ (tracked_stored _ _ _ _ Hst)) as Hlast.
  destruct (Z.of_nat (length last_) =? R) eqn:Hfull.
  - apply Z.eqb_eq in Hfull.
    destruct (IH _ (init ++ [last_]) [e] st1 Hst1) as (init' & last' & st' & Hrun' & Hst');
      [done| |].
    { rewrite length_app. cbn [length]. rewrite Nat.add_1_r, chunk_key_S. lia. }
    rewrite length_app in Hrun'. cbn [length] in Hrun'.
    rewrite Nat.add_1_r, chunk_key_S in Hrun'.
    replace (chunk_key (length init) + R + Z.of_nat 1)
      with (chunk_key (length init) + Z.of_nat (length last_) + 1) in Hrun' by lia.
    exists init', last', st'. split; [done|]. by rewrite <- (assoc_L (++)) in Hst'.
  - destruct (IH _ init (last_ ++ [e]) st1 Hst1) as (init' & last' & st' & Hrun' & Hst');
      [done| |].
    { rewrite length_app. cbn [length]. lia. }
    rewrite length_app in Hrun'. cbn [length] in Hrun'.
    replace (chunk_key (length init) + Z.of_nat (length last_ + 1))
      with (chunk_key (length init) + Z.of_nat (length last_) + 1) in Hrun' by lia.
    exists init', last', st'. split; [done|]. by rewrite <- (assoc_L (++)) in Hst'.
Qed.

Lemma appended_tracked from0 es :
  from0 = 0 ∨ from0 = 1 →
  Forall (λ e, entry_fits e = true) es →
  Z.of_nat (length es) + R + 1 < 2 ^ 64 →
  ∃ init last_ st_n,
    (readChangelogAndInitWriter from0;; append_all 1 es sync) (new_Changelog dir_ R)
    = Done tt st_n
    ∧ tracked es init last_ st_n.
Proof.
  intros Hfrom Hfits Hn.
  destruct (tracked_initial from0 Hfrom ltac:(lia)) as (st0 & Hrec & Hst0).
  destruct (append_all_tracked es [] [] [] st0 Hst0 Hfits) as (init & last_ & st_n & Hrun & Hst).
  { cbn [length]. unfold chunk_key. lia. }
  cbn [length] in Hrun.
  replace (chunk_key 0 + Z.of_nat 0) with 1 in Hrun by (unfold chunk_key; lia).
  exists init, last_, st_n. split; [|done].
  by rewrite (bind_run _ _ _ _ _ Hrec).
Qed.

(** X17. Overwriting inside the segment of the writer rewinds the log, but
    not the byte count of the writer. After the entries [es] were appended
    at the indices from 1 on in a fresh changelog, the writer has written
    as many bytes as its file holds. [writeAt m e'] for an index [m] that
    is stored and not below the start index of the writer returns. The
    state it leaves has the entries, segments, files, start index and
    writer counters of the state [st_a] that the appends of the first
    [m - 1] entries followed by the append of [e'] reach, with two
    differences: the offset recorded for [m] is the number of bytes the
    writer had written before the call, which is the length its file had
    then, and the byte count of the writer is that number plus the length
    of the new record. In [st_a] the offset of [m] is the position of the
    record in the file, and the file ends where that record ends. *)
Theorem overwrite_in_writer_segment from0 es m e' :
  from0 = 0 ∨ from0 = 1 →
  Forall (λ e, entry_fits e = true) es →
  entry_fits e' = true →
  Z.of_nat (length es) + R + 1 < 2 ^ 64 →
  1 ≤ m ≤ Z.of_nat (length es) →
  ∃ st_n w,
    (readChangelogAndInitWriter from0;; append_all 1 es sync) (new_Changelog dir_ R)
    = Done tt st_n
    ∧ current_writer st_n = Some w
    ∧ plain_buf_count w = file_size (disk st_n) (filepath w)
    ∧ (w_start_index w ≤ m →
       ∃ st' st_a offset_a,
         writeAt m e' sync st_n = Done tt st'
         ∧ (readChangelogAndInitWriter from0;;
            append_all 1 (take (Z.to_nat (m - 1)) es ++ [e']) sync) (new_Changelog dir_ R)
           = Done tt st_a
         ∧ st' = overwritten m (plain_buf_count w)
                   (plain_buf_count w + Z.of_nat (length (encode_record (buildRecord m e'))))
                   st_a
         ∧ index_to_start_pos st_a !! m = Some offset_a
         ∧ offset_a < plain_buf_count w
         ∧ file_size (disk st') (filepath w)
           = offset_a + Z.of_nat (length (encode_record (buildRecord m e')))).
Proof.
  intros Hfrom Hfits He' Hn Hm.
  destruct (appended_tracked from0 es Hfrom Hfits Hn)
    as (init & last_ & st_n & Hrun & [Hst Hes Hlast Hpresent Hdisk]).
  set (key := chunk_key (length init)) in *.
  pose proof (chunk_key_pos (length init)) as Hkey1. fold key in Hkey1.
  pose proof (length_concat_full init (stored_full _ _ _ Hst)) as Hlen_init. fold key in Hlen_init.
  assert (Hlen : key + Z.of_nat (length last_) = 1 + Z.of_nat (length es)).
  { rewrite <- Hes, length_app. lia. }
  assert (Hfits_last : Forall (λ e, entry_fits e = true) last_).
  { rewrite <- Hes in Hfits. by apply Forall_app in Hfits as [_ ?]. }
  assert (Hfile : disk st_n !! path (segment_at key) = Some (encode_entries key last_)).
  { apply (stored_files _ _ _ Hst). rewrite lookup_app_r by lia. by rewrite Nat.sub_diag. }
  exists st_n, (Writer (path (segment_at key)) (entries_size last_)
                  (Z.of_nat (length last_)) key).
  split; [done|]. split; [apply (stored_writer _ _ _ Hst)|].
  cbn [w_start_index plain_buf_count filepath]. split.
  { unfold file_size. rewrite Hfile. cbn [default from_option id].
    by rewrite length_encode_entries by by apply Forall_entry_fits_buffers. }
  intros Hkm.
  set (j := Z.to_nat (m - key)).
  assert (Hj : (j < length last_)%nat) by (subst j; lia).
  destruct (writeAt_stored init last_ st_n j e' Hst Hj He' Hpresent)
    as (st' & st_a & Hwrite & Hst' & Heq & Hex' & Hdom').
  fold key in Hwrite, Heq. replace (key + Z.of_nat j) with m in Hwrite, Heq by (subst j; lia).
  assert (Hfits1 : Forall (λ e, entry_fits e = true) (take (Z.to_nat (m - 1)) es ++ [e'])).
  { apply Forall_app. split; [by apply Forall_take|by apply Forall_singleton]. }
  destruct (appended_tracked from0 (take (Z.to_nat (m - 1)) es ++ [e']) Hfrom Hfits1)
    as (init1 & last1 & st_a1 & Hrun1 & [Hst1 Hes1 Hlast1 _ Hdisk1]).
  { rewrite length_app, length_take. cbn [length]. lia. }
  assert (Hprefix : take (Z.to_nat (m - 1)) es = concat init ++ take j last_).
  { rewrite <- Hes.
    replace (Z.to_nat (m - 1)) with (length (concat init) + j)%nat by (subst j; lia).
    apply take_app_add. }
  assert (Hsame : st_a1 = st_a).
  { destruct (chunks_unique init1 init last1 (take j last_ ++ [e'])) as [-> ->].
    - apply (stored_full _ _ _ Hst1).
    - apply (stored_full _ _ _ Hst).
    - pose proof (stored_last _ _ _ Hst1).
      assert (last1 ≠ []) as Hne1 by (apply Hlast1; by destruct (take _ es)).
      destruct last1; [done|]. cbn [length] in *. lia.
    - pose proof (stored_last _ _ _ Hst). rewrite length_app, length_take. cbn [length]. lia.
    - by rewrite Hes1, Hprefix, (assoc_L (++)).
    - apply (stored_unique init (take j last_ ++ [e'])); try done.
      intros p Hp. apply Hdom' in Hp. destruct (Hdisk p Hp) as (k & d & Hd & Hpath).
      exists k, d. by rewrite Hex'. }
  subst st_a1.
  pose proof (entry_fits_buffer e' He') as Hb'.
  rewrite (length_encode_record m e' Hb').
  assert (Hlen_new : length (take j last_ ++ [e']) = S j).
  { rewrite length_app, length_take. simpl. lia. }
  assert (Hoff_a : index_to_start_pos st_a !! m = Some (entries_size (take j last_))).
  { destruct (stored_lookup_last init (take j last_ ++ [e']) st_a m Hst') as [_ ->];
      [fold key; lia|].
    fold key. replace (Z.to_nat (m - key)) with j by done.
    rewrite lookup_app_r by (rewrite length_take; lia).
    rewrite length_take. replace (j - j `min` length last_)%nat with 0%nat by lia.
    cbn [lookup list_lookup]. f_equal.
    rewrite take_app_le by (rewrite length_take; lia).
    rewrite take_take. by replace (j `min` j)%nat with j by lia. }
  exists st', st_a, (entries_size (take j last_)).
  split; [done|]. split; [done|]. split; [done|]. split; [done|]. split.
  - rewrite <- (take_drop j last_) at 2. rewrite entries_size_app.
    destruct (drop j last_) as [|x l] eqn:Hdrop.
    { apply (f_equal length) in Hdrop. rewrite length_drop in Hdrop. simpl in Hdrop. lia. }
    cbn [entries_size]. pose proof (entries_size_nonneg l).
    unfold record_size, HEADER_SIZE. lia.
  - rewrite Heq. unfold overwritten, file_size. unfold_setters. cbn [disk].
    unfold key.
    rewrite (stored_files _ _ _ Hst' (length init) (take j last_ ++ [e']))
      by (rewrite lookup_app_r by lia; by rewrite Nat.sub_diag).
    cbn [default from_option id].
    rewrite length_encode_entries, entries_size_app.
    + cbn [entries_size]. lia.
    + apply Forall_entry_fits_buffers, Forall_app. split; [by apply Forall_take|].
      by apply Forall_singleton.
Qed.

End restart.

(** * Batches of entries *)

Section serialization.

(** [nuraft::log_entry::serialize], which lives outside the repository. *)
Variable log_entry_serialize : log_entry → list Byte.byte.

(** A buffer obtained from [nuraft::buffer::alloc] and written from its
    start: its size and the bytes written; the bytes after them are not
    initialised. *)
Record nuraft_buffer : Type := Buffer {
  buffer_size : Z;
  buffer_written : list Byte.byte
}.

(** The first loop of [serializeEntriesToBuffer], from [i] up to [bound].
    An iteration either throws or finds one more index in the map, so a
    fuel above the size of the map is never used up. [serialize] reads the
    buffer of the entry, which must not be null. *)
Fixpoint serialize_entries (fuel : nat) (i bound : Z) : M (list (list Byte.byte)) :=
  match fuel with
  | O => undefined
  | S fuel' =>
      if i <? bound then
        let! st := get in
        match logs st !! i with
        | None => throw LOGICAL_ERROR
        | Some entry =>
            match get_buf_ptr entry with
            | None => undefined
            | Some _ =>
                let! returned_logs := serialize_entries fuel' (wrap64 (i + 1)) bound in
                ret (log_entry_serialize entry :: returned_logs)
            end
        end
      else ret []
  end.

(** The second loop: the size of each buffer, then its bytes. *)
Fixpoint put_entries (returned_logs : list (list Byte.byte)) : list Byte.byte :=
  match returned_logs with
  | [] => []
  | bb :: returned_logs' =>
      le_encode 4 (Z.of_nat (length bb)) ++ bb ++ put_entries returned_logs'
  end.

(** [cnt] is an [int32_t]: in [index + cnt] and in the size of the
    buffer it is converted to [size_t]. A [put] that does not fit in what
    is left of the buffer throws. *)
Definition serializeEntriesToBuffer (index_ : Z) (cnt : Z) : M nuraft_buffer :=
  let! st := get in
  let! returned_logs :=
    serialize_entries (S (size (logs st))) index_ (wrap64 (index_ + cnt)) in
  let size_total :=
    foldl (λ total bb, wrap64 (total + Z.of_nat (length bb))) 0 returned_logs in
  let size_out := wrap64 (4 + cnt * 4 + size_total) in
  if negb (buffer_alloc_fits size_out) then throw STD_EXCEPTION
  else
    let written := le_encode 4 cnt ++ put_entries returned_logs in
    if size_out <? Z.of_nat (length written) then throw STD_EXCEPTION
    else ret (Buffer size_out written).


(** What [applyEntriesFromBuffer] does with the entries of a batch: the
    first is written over the entry stored at the index, if there is one,
    and appended otherwise; the others are appended. *)
Definition ingest (index_ : Z) (es : list log_entry) (force_sync : bool) : M unit :=
  match es with
  | [] => ret tt
  | e :: es' =>
      let! st := get in
      (if has_key (logs st) index_ then writeAt index_ e force_sync
       else appendEntry index_ e force_sync);;
      append_all (index_ + 1) es' force_sync
  end.

(** An entry that a batch carries without loss: it has a buffer, its
    serialisation has a size that fits an [int32_t] and that
    [nuraft::buffer::alloc] accepts, and [deserialize] gives the entry
    back. *)
Definition entry_serializable (e : log_entry) : Prop :=
  is_Some (get_buf_ptr e)
  ∧ Z.of_nat (length (log_entry_serialize e)) < 2 ^ 31
  ∧ buffer_alloc_fits (Z.of_nat (length (log_entry_serialize e))) = true
  ∧ log_entry_deserialize (log_entry_serialize e) = Some e.

Lemma serialize_entries_Done es :
  ∀ i fuel st,
    0 ≤ i → i + Z.of_nat (length es) < 2 ^ 64 →
    (length es < fuel)%nat →
    (λ j, logs st !! j) <$> seqZ i (Z.of_nat (length es)) = Some <$> es →
    Forall (λ e, is_Some (get_buf_ptr e)) es →
    serialize_entries fuel i (i + Z.of_nat (length es)) st
    = Done (log_entry_serialize <$> es) st.
Proof.
  induction es as [|e es IH]; intros i fuel st Hi Hn Hfuel Hlogs Hbufs.
  { destruct fuel as [|fuel]; [simpl in Hfuel; lia|]. cbn [serialize_entries length].
    by assert ((i <? i + Z.of_nat 0) = false) as -> by (apply Z.ltb_ge; lia). }
  destruct fuel as [|fuel]; [simpl in Hfuel; lia|].
  apply Forall_cons in Hbufs as [[b Hb] Hbufs].
  cbn [length] in *. rewrite Nat2Z.inj_succ in *.
  rewrite seqZ_cons in Hlogs by lia. cbn [fmap list_fmap] in Hlogs.
  injection Hlogs as He Hlogs.
  replace (Z.pred (Z.succ (Z.of_nat (length es)))) with (Z.of_nat (length es)) in Hlogs by lia.
  cbn [serialize_entries].
  assert ((i <? i + Z.succ (Z.of_nat (length es))) = true) as -> by (apply Z.ltb_lt; lia).
  rewrite bind_get, He, Hb. rewrite wrap64_small by lia.
  replace (i + Z.succ (Z.of_nat (length es))) with (Z.succ i + Z.of_nat (length es)) by lia.
  replace (i + 1) with (Z.succ i) by lia.
  rewrite (bind_run _ _ _ _ _ (IH (Z.succ i) fuel st ltac:(lia) ltac:(lia) ltac:(lia) Hlogs Hbufs)).
  done.
Qed.

Fixpoint buffers_size (bufs : list (list Byte.byte)) : Z :=
  match bufs with
  | [] => 0
  | bb :: bufs' => Z.of_nat (length bb) + buffers_size bufs'
  end.

Lemma buffers_size_nonneg bufs : 0 ≤ buffers_size bufs.
Proof. induction bufs as [|bb bufs IH]; simpl; lia. Qed.

Lemma length_put_entries bufs :
  Z.of_nat (length (put_entries bufs))
  = 4 * Z.of_nat (length bufs) + buffers_size bufs.
Proof.
  induction bufs as [|bb bufs IH]; [done|].
  cbn [put_entries buffers_size length].
  rewrite !length_app, length_le_encode, !Nat2Z.inj_add, Nat2Z.inj_succ, IH. lia.
Qed.

Lemma size_total_small bufs :
  buffers_size bufs < 2 ^ 64 →
  foldl (λ total bb, wrap64 (total + Z.of_nat (length bb))) 0 bufs = buffers_size bufs.
Proof.
  assert (H : ∀ acc, 0 ≤ acc → acc + buffers_size bufs < 2 ^ 64 →
            foldl (λ total bb, wrap64 (total + Z.of_nat (length bb))) acc bufs
            = acc + buffers_size bufs).
  { induction bufs as [|bb bufs IH]; intros acc Hacc Hlt.
    - simpl. lia.
    - cbn [foldl buffers_size] in *. pose proof (buffers_size_nonneg bufs).
      rewrite wrap64_small by lia. rewrite IH by lia. lia. }
  intros Hlt. by rewrite H by lia.
Qed.

Lemma buffer_get_int_encode z buf :
  0 ≤ z < 2 ^ 31 → buffer_get_int (le_encode 4 z ++ buf) = Some (z, buf).
Proof.
  intros Hz. unfold buffer_get_int. rewrite read_int_encode by (simpl; lia).
  cbn [mbind option_bind]. unfold to_int32.
  by assert ((z <? 2 ^ 31) = true) as -> by lia.
Qed.

Lemma apply_entries_append_all index_ sync es :
  ∀ i tail st,
    1 ≤ i → 0 ≤ index_ → index_ + i + Z.of_nat (length es) < 2 ^ 64 →
    Forall entry_serializable es →
    apply_entries (length es) i index_
      (put_entries (log_entry_serialize <$> es) ++ tail) sync st
    = append_all (index_ + i) es sync st.
Proof.
  induction es as [|e es IH]; intros i tail st Hi Hidx Hn Hes; [done|].
  apply Forall_cons in Hes as [(Hb & Hlen & Hfits & Hde) Hes].
  cbn [length] in Hn. rewrite Nat2Z.inj_succ in Hn.
  cbn [length apply_entries append_all fmap list_fmap].
  cbn [put_entries]. rewrite <- !(assoc_L (++)).
  rewrite buffer_get_int_encode by lia.
  rewrite (wrap64_small (Z.of_nat _)) by lia. rewrite Hfits. cbn [negb].
  rewrite Nat2Z.id, decide_True by (rewrite length_app; lia).
  rewrite take_app_length, drop_app_length, Hde.
  rewrite bind_get. assert ((i =? 0) = false) as -> by lia. cbn [andb].
  rewrite wrap64_small by lia.
  unfold bind. destruct (appendEntry (index_ + i) e sync st) as [[] st'|err st'|]; [|done|done].
  rewrite IH by (done || lia). f_equal. lia.
Qed.

Lemma applyEntriesFromBuffer_ingest index_ sync es st :
  0 ≤ index_ → index_ + Z.of_nat (length es) < 2 ^ 64 →
  Z.of_nat (length es) < 2 ^ 31 →
  Forall entry_serializable es →
  applyEntriesFromBuffer index_
    (le_encode 4 (Z.of_nat (length es)) ++ put_entries (log_entry_serialize <$> es)) sync st
  = ingest index_ es sync st.
Proof.
  intros Hidx Hn Hcnt Hes. unfold applyEntriesFromBuffer.
  rewrite buffer_get_int_encode by lia. rewrite Nat2Z.id.
  destruct es as [|e es]; [done|].
  apply Forall_cons in Hes as [(Hb & Hlen & Hfits & Hde) Hes].
  cbn [length] in Hn. rewrite Nat2Z.inj_succ in Hn.
  cbn [length apply_entries ingest fmap list_fmap].
  cbn [put_entries]. rewrite buffer_get_int_encode by lia.
  rewrite (wrap64_small (Z.of_nat _)) by lia. rewrite Hfits. cbn [negb].
  rewrite Nat2Z.id, decide_True by (rewrite length_app; lia).
  rewrite take_app_length, drop_app_length, Hde.
  rewrite !bind_get. rewrite Z.add_0_r, wrap64_small by lia. cbn [Z.eqb andb].
  unfold bind.
  destruct ((if has_key (logs st) index_ then writeAt index_ e sync
             else appendEntry index_ e sync) st) as [[] st'|err st'|]; [|done|done].
  rewrite <- (app_nil_r (put_entries _)).
  rewrite apply_entries_append_all by (done || lia). done.
Qed.

(** X15. Round trip of a batch. [serializeEntriesToBuffer] returns, for [cnt]
    entries stored from [index_] on, a buffer that is written to its end
    and leaves the state as it was. [applyEntriesFromBuffer] at the same
    index, in a changelog with an open writer in which no index from
    [index_] on has an entry or an offset, returns and stores under the
    indices [index_ .. index_ + cnt - 1] the entries that were
    serialised, the other entries being left as they were. *)
Theorem serialize_then_apply st index_ es st2 sync :
  0 ≤ index_ → index_ + Z.of_nat (length es) < 2 ^ 64 →
  (λ j, logs st !! j) <$> seqZ index_ (Z.of_nat (length es)) = Some <$> es →
  Forall entry_serializable es →
  4 + 4 * Z.of_nat (length es) + buffers_size (log_entry_serialize <$> es) < 2 ^ 31 →
  buffer_alloc_fits (4 + 4 * Z.of_nat (length es)
                     + buffers_size (log_entry_serialize <$> es)) = true →
  is_Some (current_writer st2) →
  (∀ j, index_ ≤ j → logs st2 !! j = None ∧ index_to_start_pos st2 !! j = None) →
  ∃ out st2',
    serializeEntriesToBuffer index_ (Z.of_nat (length es)) st
    = Done (Buffer (Z.of_nat (length out)) out) st
    ∧ applyEntriesFromBuffer index_ out sync st2 = Done tt st2'
    ∧ ∀ j, logs st2' !! j
           = if decide (index_ ≤ j < index_ + Z.of_nat (length es))
             then logs st !! j else logs st2 !! j.
Proof.
  intros Hidx Hn Hlogs Hes Hsize Hfits Hw Hfree.
  set (bufs := log_entry_serialize <$> es) in *.
  set (out := le_encode 4 (Z.of_nat (length es)) ++ put_entries bufs).
  assert (Hbufs : Forall (λ e, is_Some (get_buf_ptr e)) es).
  { eapply Forall_impl; [exact Hes|]. by intros e (? & _). }
  pose proof (buffers_size_nonneg bufs) as Hbs.
  assert (Hlen_out : Z.of_nat (length out)
                     = 4 + 4 * Z.of_nat (length es) + buffers_size bufs).
  { unfold out. rewrite length_app, Nat2Z.inj_add, length_le_encode, length_put_entries.
    unfold bufs. rewrite length_fmap. lia. }
  assert (Hsize_le : (length es ≤ size (logs st))%nat).
  { assert (list_to_set (seqZ index_ (Z.of_nat (length es))) ⊆ dom (logs st)) as Hsub.
    { intros j Hj%elem_of_list_to_set. apply elem_of_dom.
      apply list_elem_of_lookup in Hj as [k Hk].
      apply (f_equal (λ l, l !! k)) in Hlogs. rewrite !list_lookup_fmap, Hk in Hlogs.
      simpl in Hlogs. destruct (es !! k) as [e|] eqn:He; simpl in Hlogs; [|done].
      injection Hlogs as ->. eauto. }
    apply subseteq_size in Hsub. rewrite size_list_to_set in Hsub by apply NoDup_seqZ.
    rewrite length_seqZ, size_dom in Hsub. lia. }
  exists out.
  destruct (append_all_logs sync es index_ st2 Hw) as (st2' & Happ & _ & Hl2); [|done|].
  { intros j Hj. by apply Hfree. }
  exists st2'. split_and!.
  - unfold serializeEntriesToBuffer. rewrite bind_get.
    rewrite (wrap64_small (index_ + _)) by lia.
    rewrite (bind_run _ _ _ _ _
               (serialize_entries_Done es index_ (S (size (logs st))) st Hidx Hn
                  ltac:(lia) Hlogs Hbufs)).
    fold bufs. rewrite size_total_small by lia.
    replace (4 + Z.of_nat (length es) * 4 + buffers_size bufs)
      with (4 + 4 * Z.of_nat (length es) + buffers_size bufs) by lia.
    rewrite wrap64_small by lia. rewrite Hfits. cbn [negb]. fold out.
    rewrite Hlen_out, Z.ltb_irrefl. done.
  - unfold out, bufs. rewrite applyEntriesFromBuffer_ingest by (done || lia).
    destruct es as [|e es']; [done|]. cbn [ingest append_all] in *.
    rewrite bind_get. destruct (Hfree index_ ltac:(lia)) as [Hl _].
    apply has_key_false in Hl. rewrite Hl. exact Happ.
  - intros j. rewrite Hl2. case_decide as Hj; [|done].
    apply (f_equal (λ l, l !! Z.to_nat (j - index_))) in Hlogs.
    rewrite !list_lookup_fmap, lookup_seqZ_lt in Hlogs by lia. simpl in Hlogs.
    replace (index_ + Z.of_nat (Z.to_nat (j - index_))) with j in Hlogs by lia.
    destruct (es !! Z.to_nat (j - index_)) as [e|] eqn:He; simpl in Hlogs;
      [by injection Hlogs|].
    apply lookup_ge_None in He. lia.
Qed.

End serialization.

(** ** The writer after an overwrite across segments *)

Lemma keys_from_length_range (lg : IndexToLogEntry) n m :
  (∀ j, is_Some (lg !! j) ↔ 1 ≤ j ≤ n) → 1 ≤ m ≤ n →
  Z.of_nat (length (keys_from lg m)) = n - m + 1.
Proof.
  intros Hkeys Hm.
  assert (keys_from lg m ≡ₚ seqZ m (n - m + 1)) as ->.
  { apply NoDup_Permutation.
    - unfold keys_from. apply NoDup_filter, keys_asc_NoDup.
    - apply NoDup_seqZ.
    - intros j. rewrite elem_of_keys_from, Hkeys, elem_of_seqZ. lia. }
  rewrite length_seqZ. lia.
Qed.

Section overwrite_writer.

Context (dir_ : string) (R : Z) (sync : bool).
Hypothesis R_range : 1 ≤ R < 2 ^ 64.

(** X16. In a fresh changelog with rotate interval [R] that holds the entries
    of the indices [1 .. n], with [n > R], the call [writeAt m e'] for
    [1 <= m <= R] reopens the first segment and leaves [m] records in its
    file, but the writer it leaves does not describe that file: its
    counter of entries is [R + m - n] in 64-bit arithmetic, the capacity
    of the segment less one for every entry erased, those of the later
    segments included, and so never [m]; and its start index is the key
    found by [lower_bound], which is [R + 1] unless [m] is 1. The writer is
    constructed anew for the reopened file, so the bytes it has written
    are those of the one record of [e']. *)
Theorem overwrite_across_segments_writer from_ es m e' :
  from_ = 0 ∨ from_ = 1 →
  Forall (λ e, is_Some (get_buf_ptr e)) es →
  is_Some (get_buf_ptr e') →
  R < Z.of_nat (length es) < 2 ^ 64 →
  1 ≤ m ≤ R →
  ∃ st_n st',
    (readChangelogAndInitWriter from_;; append_all 1 es sync) (new_Changelog dir_ R)
    = Done tt st_n
    ∧ writeAt m e' sync st_n = Done tt st'
    ∧ (∀ j, is_Some (logs st' !! j) ↔ 1 ≤ j ≤ m)
    ∧ current_writer st'
      = Some (Writer (path (first_segment dir_ R))
                (Z.of_nat (length (encode_record (buildRecord m e'))))
                (wrap64 (R + m - Z.of_nat (length es)))
                (if m =? 1 then 1 else R + 1))
    ∧ wrap64 (R + m - Z.of_nat (length es)) ≠ m.
Proof.
  intros Hfrom Hbufs Hb' Hn Hm.
  destruct (recovered_fresh dir_ R R_range from_ Hfrom) as (st0 & Hrec & Hinv0).
  destruct (append_all_appended dir_ R sync R_range es 0 [] st0 Hinv0 eq_refl Hbufs)
    as (st_n & Happ & Hinv); [lia|].
  simpl in Happ, Hinv. set (n := Z.of_nat (length es)) in *.
  destruct Hinv as [Hdir HR Hlogs Hoffs Hfirst_off Hfirst Hothers [content Hfile]
                      (w & Hw & Hwriter)].
  destruct Hwriter as [[? _]|(_ & Hstart & _ & HR1)]; [lia|].
  destruct (proj2 (Hoffs m) ltac:(lia)) as [off Hoff].
  pose proof (Hfirst_off m off Hoff ltac:(lia)) as Hoffb.
  assert (Hkeys : ∀ j, is_Some (logs st_n !! j) ↔ 1 ≤ j ≤ n).
  { intros j. rewrite Hlogs. case_decide.
    - split; [done|]. intros _. apply lookup_lt_is_Some_2. lia.
    - split; [by intros [? ?]|done]. }
  assert (Hlogm : is_Some (logs st_n !! m)) by (apply Hkeys; lia).
  assert (Hdesc : lower_bound (existing_changelogs st_n) m
                  = Some (if m =? 1 then 1 else R + 1)
            ∧ (if (if m =? 1 then 1 else R + 1) =? m
               then existing_changelogs st_n !! (if m =? 1 then 1 else R + 1)
               else prev_key (existing_changelogs st_n) (if m =? 1 then 1 else R + 1)
                      ≫= (existing_changelogs st_n !!.)) = Some (first_segment dir_ R)).
  { destruct (decide (m = 1)) as [->|Hm1].
    - rewrite Z.eqb_refl. split.
      + apply lower_bound_Some; [by eauto|lia|]. intros y _ Hy. done.
      + done.
    - assert ((m =? 1) = false) as -> by lia. split.
      + apply lower_bound_Some; [done|lia|]. intros y [d Hy] Hmy.
        destruct (Hothers y d Hy); lia.
      + assert ((R + 1 =? m) = false) as -> by lia.
        rewrite (prev_key_Some _ _ 1); [done|by eauto|lia|].
        intros y [d Hy] Hlt. destruct (decide (y = 1)); [lia|].
        destruct (Hothers y d Hy); [done|lia]. }
  destruct Hdesc as (Hlb & Hdesc).
  pose proof (keys_from_length_range (logs st_n) n m Hkeys ltac:(lia)) as Hlen.
  assert (Hcounter : wrap64 (capacity (first_segment dir_ R)
                             - Z.of_nat (length (keys_from (logs st_n) m)))
                     = wrap64 (R + m - n - 1)).
  { rewrite (first_segment_capacity dir_ R R_range), Hlen. f_equal. lia. }
  assert (Hne : ∀ c, R - 2 ^ 64 < c < R → 0 ≤ R → wrap64 c ≠ R).
  { intros c Hc _ Heq. unfold wrap64 in Heq. destruct (decide (0 ≤ c)).
    - rewrite Z.mod_small in Heq by lia. lia.
    - assert (c + 2 ^ 64 = c mod 2 ^ 64) as Hmod
        by (apply (Z.mod_unique _ _ (-1)); lia).
      lia. }
  destruct (writeAt_rollback_Done m e' sync st_n off w _ (first_segment dir_ R) content
              Hoff ltac:(unfold file_size in Hoffb; lia) Hw ltac:(lia) Hlb Hdesc Hfile)
    as (st' & Hrun & _ & _ & _ & _ & Hlogs' & _ & Hwriter'); [|done|done| |].
  { intros j dj Hj Hdj. apply (Hothers j dj Hdj). lia. }
  { rewrite Hcounter, HR. apply Hne; lia. }
  exists st_n, st'. split_and!.
  - unfold bind. by rewrite Hrec.
  - done.
  - intros j. rewrite Hlogs'. destruct (decide (j = m)) as [->|?]; [split; [lia|eauto]|].
    destruct (decide (m ≤ j)); [split; [by intros [? ?]|lia]|].
    rewrite Hkeys. lia.
  - rewrite Hwriter', Hcounter, wrap64_add_l, Z.add_0_l.
    by replace (R + m - n - 1 + 1) with (R + m - n) by lia.
  - intros Heq. unfold wrap64 in Heq. destruct (decide (0 ≤ R + m - n)).
    + rewrite Z.mod_small in Heq by lia. lia.
    + assert (R + m - n + 2 ^ 64 = (R + m - n) mod 2 ^ 64) as Hmod
        by (apply (Z.mod_unique _ _ (-1)); lia).
      lia.
Qed.

End overwrite_writer.

End Changelog.

(** * Concrete runs *)

(** A hash, an allocation bound and a deserialiser to run the model on:
    any functions would do, the properties above hold for all of them. *)
Definition example_hash (b : list Byte.byte) : Z * Z :=
  (Z.of_nat (length b), foldr (λ x acc, (Z_of_byte x + 31 * acc) mod 2 ^ 64) 7 b).

Definition example_alloc_fits (n : Z) : bool := n <? 2 ^ 31.

Definition example_deserialize (b : list Byte.byte) : option log_entry :=
  if decide (9 ≤ length b)%nat
  then Some (LogEntry (le_decode (take 8 b)) (Some (drop 9 b)) (le_decode (take 1 (drop 8 b))))
  else None.

Definition example_entry (term_ : Z) : log_entry := LogEntry term_ (Some []) 1.

Definition state_of (r : result unit) : Changelog :=
  match r with
  | Done _ st | Raise _ st => st
  | Undefined => new_Changelog "" 0
  end.

(** A changelog in the directory [/d] with rotate interval 3, recovered
    from the empty directory. *)
Definition recovered_state : Changelog :=
  state_of (readChangelogAndInitWriter example_hash example_alloc_fits 0
              (new_Changelog "/d" 3)).

(** The same after the appends of seven entries at the indices 1 to 7,
    with the terms 10, 10, 11, 11, 11, 12, 12. *)
Definition seven_entries : list log_entry :=
  example_entry <$> [10; 10; 11; 11; 11; 12; 12].

Definition seven_appended : Changelog :=
  state_of (append_all example_hash 1 seven_entries true recovered_state).

(** A new instance on the directory the seven appends left: the in-memory
    maps are empty and no writer is open. *)
Definition reopened (st : Changelog) : Changelog :=
  Changelog_ (changelogs_dir st) (rotate_interval st) (existing_changelogs st)
    ∅ ∅ 0 None (disk st).

Lemma seven_appended_segments :
  items_asc (existing_changelogs seven_appended)
  = [(1, FileDescription "changelog" 1 3 "/d/changelog_1_3.bin");
     (4, FileDescription "changelog" 4 6 "/d/changelog_4_6.bin");
     (7, FileDescription "changelog" 7 9 "/d/changelog_7_9.bin")]
  ∧ current_writer seven_appended = Some (Writer "/d/changelog_7_9.bin" 45 1 7)
  ∧ keys_asc (logs seven_appended) = [1; 2; 3; 4; 5; 6; 7].
Proof. by vm_compute. Qed.

(** C1 (code defect). After the seven appends with rotate interval 3
    the segments are 1..3, 4..6 and 7..9 and the writer is on 7..9.
    [writeAt 5] reopens the segment 4..6, which contains 5, and sets the
    counter of entries to its capacity 3, but the start index of the new
    writer is 7, the key of the next segment, not the first index 4 of
    the segment reopened; it is still 7 when [writeAt] returns. *)
Theorem writeAt_reopen_start_index_is_next_key :
  lower_bound (existing_changelogs seven_appended) 5 = Some 7
  ∧ (∃ st, writeAt_reopen 5 seven_appended = Done tt st
       ∧ current_writer st = Some (Writer "/d/changelog_4_6.bin" 0 3 7))
  ∧ (∃ st', writeAt example_hash 5 (example_entry 99) true seven_appended = Done tt st'
       ∧ existing_changelogs st' !! 4
         = Some (FileDescription "changelog" 4 6 "/d/changelog_4_6.bin")
       ∧ (w_start_index <$> current_writer st') = Some 7).
Proof.
  split_and!.
  - by vm_compute.
  - eexists. split; by vm_compute.
  - eexists. split_and!; by vm_compute.
Qed.

(** C2 (counterexample). After the seven appends the two maps have
    the keys 1 to 7. [compact 5] deletes the segment 1..3 with its
    offsets and keeps the segment 4..6, into which 5 falls: the entries
    4 and 5 are erased but their offsets stay, so the key sets differ. *)
Lemma compact_inside_segment_key_sets_differ :
  dom (logs seven_appended) = dom (index_to_start_pos seven_appended)
  ∧ ∃ st', compact 5 seven_appended = Done tt st'
      ∧ keys_asc (logs st') = [6; 7]
      ∧ keys_asc (index_to_start_pos st') = [4; 5; 6; 7]
      ∧ dom (logs st') ≠ dom (index_to_start_pos st').
Proof.
  split; [by vm_compute|].
  exists (state_of (compact 5 seven_appended)). split_and!; [by vm_compute..|].
  compute_done.
Qed.

Lemma key_sets_after_operations_witness :
  dom (logs seven_appended) = dom (index_to_start_pos seven_appended)
  ∧ (∀ idx e sync st',
       writeAt example_hash idx e sync seven_appended = Done tt st' →
       dom (logs st') = dom (index_to_start_pos st'))
  ∧ ∃ st', compact 5 seven_appended = Done tt st'
      ∧ ∀ k, k ∈ dom (logs st') ↔ k ∈ dom (index_to_start_pos st') ∧ 5 < k.
Proof.
  assert (H : dom (logs seven_appended) = dom (index_to_start_pos seven_appended))
    by (vm_compute; reflexivity).
  destruct (key_sets_after_operations example_hash example_alloc_fits
              example_deserialize seven_appended H) as (_ & Hw & _ & _ & Hc).
  split; [exact H|]. split; [exact Hw|exact (Hc 5)].
Defined.

Lemma appendEntry_duplicate_index_witness :
  is_Some (index_to_start_pos seven_appended !! 3)
  ∧ ∃ st', appendEntry example_hash 3 (example_entry 99) true seven_appended
           = Raise LOGICAL_ERROR st'
      ∧ logs st' = logs seven_appended
      ∧ index_to_start_pos st' = index_to_start_pos seven_appended.
Proof.
  assert (H : is_Some (index_to_start_pos seven_appended !! 3)) by (vm_compute; eauto).
  split; [exact H|].
  exact (appendEntry_duplicate_index example_hash seven_appended 3 (example_entry 99) true H).
Defined.

Lemma seven_appended_have_buffers : logs_have_buffers (logs seven_appended).
Proof.
  change (map_Forall (λ _ e, is_Some (get_buf_ptr e)) (logs seven_appended)).
  compute_done.
Defined.

Lemma entryAt_total_witness :
  logs_have_buffers (logs seven_appended)
  ∧ entryAt 8 seven_appended = Done None seven_appended
  ∧ ∃ clone, entryAt 6 seven_appended = Done (Some clone) seven_appended
      ∧ get_term clone = 12 ∧ get_val_type clone = 1 ∧ get_buf_ptr clone = Some [].
Proof.
  split; [exact seven_appended_have_buffers|].
  destruct (entryAt_total seven_appended 8 seven_appended_have_buffers) as [Hnone _].
  destruct (entryAt_total seven_appended 6 seven_appended_have_buffers) as [_ Hsome].
  split; [apply Hnone; vm_compute; reflexivity|].
  apply (Hsome (example_entry 12)). vm_compute. reflexivity.
Defined.

Lemma seven_appended_segments_ordered : segments_ordered (existing_changelogs seven_appended).
Proof.
  split.
  - change (map_Forall (λ k d, from_log_idx d = k ∧ from_log_idx d ≤ to_log_idx d)
              (existing_changelogs seven_appended)).
    compute_done.
  - intros k1 k2 d1 d2 H1 H2. revert k2 d2 H2. revert k1 d1 H1.
    change (map_Forall (λ k1 d1,
              map_Forall (λ k2 d2, k1 < k2 → to_log_idx d1 < from_log_idx d2)
                (existing_changelogs seven_appended))
              (existing_changelogs seven_appended)).
    compute_done.
Defined.

Lemma seven_appended_paths_distinct : paths_distinct (existing_changelogs seven_appended).
Proof.
  intros k1 k2 d1 d2 H1 H2. revert k2 d2 H2. revert k1 d1 H1.
  change (map_Forall (λ k1 d1,
            map_Forall (λ k2 d2, path d1 = path d2 → k1 = k2)
              (existing_changelogs seven_appended))
            (existing_changelogs seven_appended)).
  compute_done.
Defined.

Lemma compact_drops_whole_segments_witness :
  segments_ordered (existing_changelogs seven_appended)
  ∧ paths_distinct (existing_changelogs seven_appended)
  ∧ ∃ st', compact 5 seven_appended = Done tt st'
      ∧ start_index st' = 6
      ∧ existing_changelogs st' !! 1 = None
      ∧ disk st' !! "/d/changelog_1_3.bin" = None
      ∧ logs st' !! 5 = None
      ∧ existing_changelogs st' !! 4
        = Some (FileDescription "changelog" 4 6 "/d/changelog_4_6.bin")
      ∧ disk st' !! "/d/changelog_4_6.bin" = disk seven_appended !! "/d/changelog_4_6.bin".
Proof.
  split; [exact seven_appended_segments_ordered|].
  split; [exact seven_appended_paths_distinct|].
  destruct (compact_drops_whole_segments seven_appended 5
              seven_appended_segments_ordered seven_appended_paths_distinct)
    as (st' & Hrun & _ & Hstart & Hgone & Hlogs & _ & Hkept).
  exists st'. split; [exact Hrun|].
  split; [apply Hstart; lia|].
  destruct (Hgone 1 (FileDescription "changelog" 1 3 "/d/changelog_1_3.bin"))
    as [Hg1 Hg2]; [vm_compute; reflexivity|simpl; lia|].
  destruct (Hkept 4 (FileDescription "changelog" 4 6 "/d/changelog_4_6.bin"))
    as [Hk1 Hk2]; [vm_compute; reflexivity|simpl; lia|].
  split; [exact Hg1|]. split; [exact Hg2|].
  split; [apply Hlogs; lia|]. split; [exact Hk1|exact Hk2].
Defined.

Lemma append_then_read_witness :
  is_Some (current_writer recovered_state)
  ∧ Forall (λ e, is_Some (get_buf_ptr e)) seven_entries
  ∧ ∃ st', append_all example_hash 1 seven_entries true recovered_state = Done tt st'
      ∧ getLogEntriesBetween 1 8 st' = Done (Some <$> seven_entries) st'.
Proof.
  assert (Hw : is_Some (current_writer recovered_state)) by (vm_compute; eauto).
  assert (Hb : Forall (λ e, is_Some (get_buf_ptr e)) seven_entries) by compute_done.
  split; [exact Hw|]. split; [exact Hb|].
  apply (append_then_read example_hash recovered_state seven_entries true Hw).
  - vm_compute. reflexivity.
  - vm_compute. reflexivity.
  - exact Hb.
  - vm_compute. reflexivity.
Defined.

Lemma overwrite_across_segments_witness :
  Forall (λ e, is_Some (get_buf_ptr e)) seven_entries
  ∧ ∃ st_n st' content off,
      (readChangelogAndInitWriter example_hash example_alloc_fits 0;;
       append_all example_hash 1 seven_entries true) (new_Changelog "/d" 3)
      = Done tt st_n
      ∧ existing_changelogs st_n !! 1 = Some (first_segment "/d" 3)
      ∧ from_log_idx (first_segment "/d" 3) = 1
      ∧ to_log_idx (first_segment "/d" 3) = 3
      ∧ disk st_n !! path (first_segment "/d" 3) = Some content
      ∧ index_to_start_pos st_n !! 2 = Some off
      ∧ 0 ≤ off ≤ Z.of_nat (length content)
      ∧ writeAt example_hash 2 (example_entry 99) true st_n = Done tt st'
      ∧ (∀ k d, existing_changelogs st_n !! k = Some d → 1 < k →
           existing_changelogs st' !! k = None ∧ disk st' !! path d = None)
      ∧ existing_changelogs st' !! 1 = Some (first_segment "/d" 3)
      ∧ disk st' !! path (first_segment "/d" 3)
        = Some (take (Z.to_nat off) content
                  ++ encode_record (buildRecord example_hash 2 (example_entry 99)))
      ∧ (∀ j, is_Some (logs st' !! j) ↔ 1 ≤ j ≤ 2)
      ∧ logs st' !! 2 = Some (example_entry 99)
      ∧ (∀ j, 1 ≤ j < 2 → logs st' !! j = seven_entries !! Z.to_nat (j - 1)).
Proof.
  assert (Hb : Forall (λ e, is_Some (get_buf_ptr e)) seven_entries) by compute_done.
  split; [exact Hb|].
  apply (overwrite_across_segments example_hash example_alloc_fits "/d" 3 true
           ltac:(lia) 0 seven_entries 2 (example_entry 99)).
  - left. reflexivity.
  - exact Hb.
  - vm_compute. eauto.
  - vm_compute. split; reflexivity.
  - lia.
Defined.

(** The directory after six appends (two full segments) and after seven
    (a third segment with one record), seen by a new instance. *)
Definition six_reopened : Changelog :=
  reopened (state_of (append_all example_hash 1 (take 6 seven_entries) true recovered_state)).

Definition seven_reopened : Changelog := reopened seven_appended.

Definition segment_1_3 := FileDescription "changelog" 1 3 "/d/changelog_1_3.bin".
Definition segment_4_6 := FileDescription "changelog" 4 6 "/d/changelog_4_6.bin".
Definition segment_7_9 := FileDescription "changelog" 7 9 "/d/changelog_7_9.bin".

Definition two_full_segments :
    option (list ChangelogReadResult * IndexToLogEntry * IndexToOffset) :=
  replay_trace example_hash example_alloc_fits (disk seven_reopened) 1
    [(1, segment_1_3); (4, segment_4_6)] ∅ ∅.

Lemma recovery_rotates_after_full_segments_witness :
  ∃ rs lg ofs,
    replay_full example_hash example_alloc_fits (disk six_reopened) 1
      (items_asc (existing_changelogs six_reopened)) ∅ ∅ rs lg ofs
    ∧ sum_entries_read rs = 6
    ∧ ∃ st' description,
        readChangelogAndInitWriter example_hash example_alloc_fits 1 six_reopened
        = Done tt st'
        ∧ start_index st' = 1
        ∧ from_log_idx description = 7
        ∧ to_log_idx description = 9
        ∧ existing_changelogs st' !! 7 = Some description
        ∧ current_writer st' = Some (Writer "/d/changelog_7_9.bin" 0 0 7).
Proof.
  destruct two_full_segments as [[[rs lg] ofs]|] eqn:Htrace; [|by vm_compute in Htrace].
  exists rs, lg, ofs.
  assert (Hfull : replay_full example_hash example_alloc_fits (disk six_reopened) 1
                    (items_asc (existing_changelogs six_reopened))
                    (logs six_reopened) (index_to_start_pos six_reopened) rs lg ofs).
  { apply replay_trace_full. rewrite <- Htrace. vm_compute. reflexivity. }
  split; [exact Hfull|].
  assert (Hsum : sum_entries_read rs = 6).
  { vm_compute in Htrace. injection Htrace as <- _ _. reflexivity. }
  split; [exact Hsum|].
  destruct (recovery_rotates_after_full_segments example_hash example_alloc_fits
              six_reopened 1 rs lg ofs Hfull)
    as (st' & description & Hrun & Hstart & Hfrom & Hto & Hprefix & Hpath & Hex & Hw & _).
  { intros k d Hlast. vm_compute in Hlast. injection Hlast as <- <-. vm_compute. discriminate. }
  exists st', description. rewrite Hsum, Hstart in Hfrom.
  assert (Hfrom' : from_log_idx description = 7) by (rewrite Hfrom; reflexivity).
  assert (Hto' : to_log_idx description = 9) by (rewrite Hto, Hfrom'; reflexivity).
  split; [exact Hrun|]. split; [exact Hstart|]. split; [exact Hfrom'|]. split; [exact Hto'|].
  split.
  - rewrite Hex, Hfrom'. apply lookup_insert_eq.
  - rewrite Hw, Hpath, Hfrom'. clear Hrun Hex Hw Hpath Hfull Hfrom Hto.
    destruct description as [p f t q].
    cbn [prefix from_log_idx to_log_idx] in Hprefix, Hfrom', Hto'.
    rewrite Hprefix, Hfrom', Hto'. vm_compute. reflexivity.
Defined.

(** The directory the seven appends left, after the file of the segment
    4..6 lost its tail: 100 bytes are left of it, two whole records and
    the first 10 bytes of the third. *)
Definition torn_directory : Changelog :=
  set_disk (alter (take 100) "/d/changelog_4_6.bin") seven_reopened.

Definition first_segment_replayed :
    option (list ChangelogReadResult * IndexToLogEntry * IndexToOffset) :=
  replay_trace example_hash example_alloc_fits (disk torn_directory) 1
    [(1, segment_1_3)] ∅ ∅.

Definition torn_segment_file : list Byte.byte :=
  default [] (disk torn_directory !! "/d/changelog_4_6.bin").

Definition short_segment_read : ChangelogReadResult * IndexToLogEntry * IndexToOffset :=
  match first_segment_replayed with
  | Some (_, lg, ofs) =>
      readChangelog example_hash example_alloc_fits torn_segment_file lg 1 ofs
  | None => (ReadResult 0 0 false, ∅, ∅)
  end.

Lemma torn_directory_paths_distinct : paths_distinct (existing_changelogs torn_directory).
Proof.
  intros k1 k2 d1 d2 H1 H2. revert k2 d2 H2. revert k1 d1 H1.
  change (map_Forall (λ k1 d1,
            map_Forall (λ k2 d2, path d1 = path d2 → k1 = k2)
              (existing_changelogs torn_directory))
            (existing_changelogs torn_directory)).
  compute_done.
Defined.

Lemma recovery_reopens_short_segment_witness :
  length torn_segment_file = 100%nat
  ∧ short_segment_read.1.1 = ReadResult 2 90 true
  ∧ capacity segment_4_6 = 3
  ∧ existing_changelogs torn_directory !! 7 = Some segment_7_9
  ∧ is_Some (disk torn_directory !! "/d/changelog_7_9.bin")
  ∧ ∃ st', readChangelogAndInitWriter example_hash example_alloc_fits 1 torn_directory
           = Done tt st'
      ∧ existing_changelogs st' !! 7 = None
      ∧ disk st' !! "/d/changelog_7_9.bin" = None
      ∧ existing_changelogs st' !! 4 = Some segment_4_6
      ∧ current_writer st' = Some (Writer "/d/changelog_4_6.bin" 0 2 4)
      ∧ disk st' !! "/d/changelog_4_6.bin" = Some (take 90 torn_segment_file)
      ∧ length (take 90 torn_segment_file) = 90%nat
      ∧ keys_asc (logs st') = [1; 2; 3; 4; 5].
Proof.
  split; [vm_compute; reflexivity|]. split; [vm_compute; reflexivity|].
  split; [vm_compute; reflexivity|]. split; [vm_compute; reflexivity|].
  split; [vm_compute; eauto|].
  destruct first_segment_replayed as [[[rs lg] ofs]|] eqn:Htrace; [|by vm_compute in Htrace].
  destruct (readChangelog example_hash example_alloc_fits torn_segment_file lg 1 ofs)
    as [[r lg'] ofs'] eqn:Hread.
  assert (Hshort : short_segment_read = (r, lg', ofs')).
  { unfold short_segment_read. rewrite Htrace. exact Hread. }
  assert (Hr : r = ReadResult 2 90 true).
  { change r with (r, lg', ofs').1.1. rewrite <- Hshort. vm_compute. reflexivity. }
  assert (Hl : lg' = short_segment_read.1.2) by (rewrite Hshort; reflexivity).
  destruct (recovery_reopens_short_segment example_hash example_alloc_fits
              example_deserialize torn_directory 1
              [(1, segment_1_3)] 4 segment_4_6 [(7, segment_7_9)] rs lg ofs
              torn_segment_file r lg' ofs')
    as (st' & Hrun & Hgone & Hkept & Hw & Hdisk & Hlogs & _).
  - vm_compute. reflexivity.
  - apply replay_trace_full. exact Htrace.
  - vm_compute. discriminate.
  - vm_compute. reflexivity.
  - exact Hread.
  - rewrite Hr. vm_compute. reflexivity.
  - lia.
  - exact torn_directory_paths_distinct.
  - exists st'. split; [exact Hrun|].
    destruct (Hgone 7 segment_7_9) as [Hg1 Hg2]; [vm_compute; reflexivity|lia|].
    split; [exact Hg1|]. split; [exact Hg2|].
    split; [rewrite (Hkept 4) by lia; vm_compute; reflexivity|].
    split; [rewrite Hw, Hr; vm_compute; reflexivity|].
    change (path segment_4_6) with "/d/changelog_4_6.bin" in Hdisk.
    split; [rewrite Hdisk, Hr; reflexivity|].
    split; [vm_compute; reflexivity|].
    rewrite Hlogs, Hl. vm_compute. reflexivity.
Defined.

(** * Concrete runs of the further properties *)

Lemma seven_entries_fit :
  Forall (λ e, entry_fits example_hash example_alloc_fits e = true) seven_entries.
Proof. repeat (constructor; [vm_compute; reflexivity|]). constructor. Defined.

Lemma seven_entries_have_buffers : Forall (λ e, is_Some (get_buf_ptr e)) seven_entries.
Proof. repeat (constructor; [vm_compute; eauto|]). constructor. Defined.

Lemma seven_appended_run :
  (readChangelogAndInitWriter example_hash example_alloc_fits 0;;
   append_all example_hash 1 seven_entries true) (new_Changelog "/d" 3)
  = Done tt seven_appended.
Proof. vm_compute. reflexivity. Defined.

Lemma getLogEntriesBetween_range_witness :
  logs_have_buffers (logs seven_appended)
  ∧ 6 ≤ 9
  ∧ ∃ l, getLogEntriesBetween 6 9 seven_appended = Done l seven_appended
      ∧ Z.of_nat (length l) = 9 - 6
      ∧ ∀ k, 0 ≤ k < 9 - 6 → l !! Z.to_nat k = Some (logs seven_appended !! (6 + k)).
Proof.
  split; [exact seven_appended_have_buffers|]. split; [lia|].
  apply (getLogEntriesBetween_range seven_appended 6 9 seven_appended_have_buffers). lia.
Defined.

(** The file of the writer after the seven appends. *)
Definition last_segment_content : list Byte.byte :=
  default [] (disk seven_appended !! "/d/changelog_7_9.bin").

Lemma duplicate_append_leaves_record_witness :
  current_writer seven_appended = Some (Writer "/d/changelog_7_9.bin" 45 1 7)
  ∧ disk seven_appended !! "/d/changelog_7_9.bin" = Some last_segment_content
  ∧ is_Some (index_to_start_pos seven_appended !! 3)
  ∧ ∃ st', appendEntry example_hash 3 (example_entry 99) true seven_appended
           = Raise LOGICAL_ERROR st'
      ∧ existing_changelogs st' = existing_changelogs seven_appended
      ∧ disk st'
        = <["/d/changelog_7_9.bin"
            := last_segment_content
               ++ encode_record (buildRecord example_hash 3 (example_entry 99))]>
            (disk seven_appended)
      ∧ current_writer st' = Some (Writer "/d/changelog_7_9.bin" 90 2 7).
Proof.
  assert (Hw : current_writer seven_appended = Some (Writer "/d/changelog_7_9.bin" 45 1 7))
    by (vm_compute; reflexivity).
  assert (Hc : disk seven_appended !! "/d/changelog_7_9.bin" = Some last_segment_content)
    by (vm_compute; reflexivity).
  assert (Hi : is_Some (index_to_start_pos seven_appended !! 3)) by (vm_compute; eauto).
  split; [exact Hw|]. split; [exact Hc|]. split; [exact Hi|].
  exact (duplicate_append_leaves_record example_hash seven_appended 3 (example_entry 99)
           true (Writer "/d/changelog_7_9.bin" 45 1 7) last_segment_content Hw Hc Hi).
Defined.

Lemma readChangelog_written_entries_witness :
  Forall (λ e, entry_fits example_hash example_alloc_fits e = true) seven_entries
  ∧ ∃ r lg' ofs',
      readChangelog example_hash example_alloc_fits
        (encode_entries example_hash 1 seven_entries) ∅ 1 ∅ = (r, lg', ofs')
      ∧ entries_read r = 7
      ∧ error r = false
      ∧ lg' !! 7 = Some (example_entry 12)
      ∧ ofs' !! 3 = Some 90.
Proof.
  split; [exact seven_entries_fit|].
  destruct (readChangelog_written_entries example_hash example_alloc_fits 1 seven_entries
              ∅ 1 ∅ seven_entries_fit)
    as (r & lg' & ofs' & Hrun & Hcount & Herr & _ & Hlg & Hofs).
  - lia.
  - vm_compute. reflexivity.
  - intros j _. apply lookup_empty.
  - exists r, lg', ofs'. split; [exact Hrun|]. split; [exact Hcount|]. split; [exact Herr|].
    split; [rewrite Hlg|rewrite Hofs]; vm_compute; reflexivity.
Defined.

Lemma readChangelog_torn_tail_witness :
  Forall (λ e, entry_fits example_hash example_alloc_fits e = true) (take 2 seven_entries)
  ∧ entry_fits example_hash example_alloc_fits (example_entry 11) = true
  ∧ 0 < 10 < record_size (example_entry 11)
  ∧ ∃ r r0 lg' ofs',
      readChangelog example_hash example_alloc_fits
        (encode_entries example_hash 1 (take 2 seven_entries)
           ++ take 10 (encode_record (buildRecord example_hash 3 (example_entry 11))))
        ∅ 1 ∅
      = (r, lg', ofs')
      ∧ readChangelog example_hash example_alloc_fits
          (encode_entries example_hash 1 (take 2 seven_entries)) ∅ 1 ∅
        = (r0, lg', ofs')
      ∧ entries_read r = 2
      ∧ error r = true
      ∧ last_position r = 90.
Proof.
  assert (Hfit : Forall (λ e, entry_fits example_hash example_alloc_fits e = true)
                   (take 2 seven_entries)).
  { repeat (constructor; [vm_compute; reflexivity|]). constructor. }
  assert (He : entry_fits example_hash example_alloc_fits (example_entry 11) = true)
    by (vm_compute; reflexivity).
  assert (Hcut : 0 < 10 < record_size (example_entry 11)) by (vm_compute; split; reflexivity).
  split; [exact Hfit|]. split; [exact He|]. split; [exact Hcut|].
  destruct (readChangelog_torn_tail example_hash example_alloc_fits 1 (take 2 seven_entries)
              (example_entry 11) 10 ∅ 1 ∅ Hfit He)
    as (r & r0 & lg' & ofs' & Hrun & Hrun0 & Hcount & Herr & Hpos).
  - lia.
  - vm_compute. reflexivity.
  - intros j _. apply lookup_empty.
  - exact Hcut.
  - exists r, r0, lg', ofs'. split; [exact Hrun|]. split; [exact Hrun0|].
    split; [exact Hcount|]. split; [exact Herr|]. rewrite Hpos. vm_compute. reflexivity.
Defined.

Lemma changelog_prefix_chars :
  char_free "_" "changelog" ∧ char_free "/" "changelog".
Proof. simpl. repeat split; discriminate. Defined.

Lemma getChangelogFileDescription_formatChangelogPath_witness :
  char_free "_" (prefix (FileDescription "changelog" 7 9 ""))
  ∧ char_free "/" (prefix (FileDescription "changelog" 7 9 ""))
  ∧ formatChangelogPath "/d" (FileDescription "changelog" 7 9 "") = "/d/changelog_7_9.bin"
  ∧ getChangelogFileDescription "/d/changelog_7_9.bin" = inr segment_7_9.
Proof.
  destruct changelog_prefix_chars as [Hu Hs].
  split; [exact Hu|]. split; [exact Hs|]. split; [vm_compute; reflexivity|].
  exact (getChangelogFileDescription_formatChangelogPath "/d"
           (FileDescription "changelog" 7 9 "") Hu Hs
           ltac:(simpl; lia) ltac:(simpl; lia)).
Defined.

(** The three segments of the seven appends, and the order in which a
    directory may list their files. *)
Definition three_segments : gmap Z ChangelogFileDescription :=
  <[1 := segment_1_3]> (<[4 := segment_4_6]> {[7 := segment_7_9]}).

Definition three_files : list string :=
  ["/d/changelog_4_6.bin"; "/d/changelog_7_9.bin"; "/d/changelog_1_3.bin"].

Lemma three_segments_named : segments_named "/d" three_segments.
Proof.
  destruct changelog_prefix_chars as [Hu Hs].
  unfold three_segments. repeat apply map_Forall_insert_2; [..|apply map_Forall_empty];
    (split; [reflexivity|]; split; [exact Hu|]; split; [exact Hs|];
     split; [simpl; lia|]; split; [simpl; lia|]; vm_compute; reflexivity).
Defined.

Lemma three_files_listed :
  three_files ≡ₚ (λ kd : Z * ChangelogFileDescription, path kd.2) <$> items_asc three_segments.
Proof.
  assert ((λ kd : Z * ChangelogFileDescription, path kd.2) <$> items_asc three_segments
          = ["/d/changelog_1_3.bin"; "/d/changelog_4_6.bin"; "/d/changelog_7_9.bin"]) as ->
    by (vm_compute; reflexivity).
  unfold three_files.
  etransitivity; [apply perm_skip, perm_swap|apply perm_swap].
Defined.

Lemma Changelog_new_finds_segments_witness :
  segments_named "/d" three_segments
  ∧ three_files ≡ₚ (λ kd : Z * ChangelogFileDescription, path kd.2)
                     <$> items_asc three_segments
  ∧ Changelog_new "/d" 3 three_files (disk seven_appended)
    = inr (Changelog_ "/d" 3 three_segments ∅ ∅ 0 None (disk seven_appended)).
Proof.
  split; [exact three_segments_named|]. split; [exact three_files_listed|].
  exact (Changelog_new_finds_segments "/d" 3 three_segments three_files (disk seven_appended)
           three_segments_named three_files_listed).
Defined.

Lemma Changelog_new_rejects_foreign_file_witness :
  getChangelogFileDescription "/d/changelog_1_3.bin" = inr segment_1_3
  ∧ (length (split_on "_" (path_stem "/d/notes_old.txt")) < 3)%nat
  ∧ Changelog_new "/d" 3
      ["/d/changelog_1_3.bin"; "/d/notes_old.txt"; "/d/changelog_4_6.bin"] ∅
    = inl (Thrown CORRUPTED_DATA).
Proof.
  assert (H1 : getChangelogFileDescription "/d/changelog_1_3.bin" = inr segment_1_3)
    by (vm_compute; reflexivity).
  assert (H2 : (length (split_on "_" (path_stem "/d/notes_old.txt")) < 3)%nat)
    by (vm_compute; lia).
  split; [exact H1|]. split; [exact H2|].
  apply (Changelog_new_rejects_foreign_file "/d" 3 ["/d/changelog_1_3.bin"]
           "/d/notes_old.txt" ["/d/changelog_4_6.bin"] ∅); [|exact H2].
  constructor; [|constructor]. rewrite H1. eauto.
Defined.

Lemma compact_twice_witness :
  2 ≤ 5 ∧ (compact 2;; compact 5) seven_appended = compact 5 seven_appended.
Proof. split; [lia|]. apply (compact_twice seven_appended 2 5). lia. Defined.

Lemma Done_state_inj {A} (x y : A) (st st' : Changelog) :
  Done x st = Done y st' → st = st'.
Proof.
  intros H. exact (f_equal (λ r, match r with Done _ s => s | _ => st end) H).
Defined.

Lemma seven_appended_files_listed :
  three_files ≡ₚ (λ kd : Z * ChangelogFileDescription, path kd.2)
                   <$> items_asc (existing_changelogs seven_appended).
Proof.
  assert ((λ kd : Z * ChangelogFileDescription, path kd.2)
            <$> items_asc (existing_changelogs seven_appended)
          = ["/d/changelog_1_3.bin"; "/d/changelog_4_6.bin"; "/d/changelog_7_9.bin"]) as ->
    by (vm_compute; reflexivity).
  unfold three_files.
  etransitivity; [apply perm_skip, perm_swap|apply perm_swap].
Defined.

Lemma seven_appended_writer :
  current_writer seven_appended = Some (Writer "/d/changelog_7_9.bin" 45 1 7).
Proof. vm_compute. reflexivity. Defined.

Lemma restart_recovers_appended_witness :
  Forall (λ e, entry_fits example_hash example_alloc_fits e = true) seven_entries
  ∧ three_files ≡ₚ (λ kd : Z * ChangelogFileDescription, path kd.2)
                     <$> items_asc (existing_changelogs seven_appended)
  ∧ current_writer seven_appended = Some (Writer "/d/changelog_7_9.bin" 45 1 7)
  ∧ current_writer (writer_reopened seven_appended)
    = Some (Writer "/d/changelog_7_9.bin" 0 1 7)
  ∧ ∃ st_r,
      Changelog_new "/d" 3 three_files (disk seven_appended) = inr st_r
      ∧ readChangelogAndInitWriter example_hash example_alloc_fits 1 st_r
        = Done tt (writer_reopened seven_appended).
Proof.
  split; [exact seven_entries_fit|]. split; [exact seven_appended_files_listed|].
  split; [exact seven_appended_writer|]. split; [vm_compute; reflexivity|].
  destruct (restart_recovers_appended example_hash example_alloc_fits "/d" 3 true 1
              ltac:(lia) (or_intror eq_refl) 0 seven_entries three_files
              (or_introl eq_refl) seven_entries_fit ltac:(vm_compute; reflexivity))
    as (st_n & w & content & Hrun & Hw & _ & _ & Hrec).
  rewrite seven_appended_run in Hrun. apply Done_state_inj in Hrun. subst st_n.
  rewrite seven_appended_writer in Hw. apply (inj Some) in Hw. subst w.
  destruct (Hrec seven_appended_files_listed) as (st_r & Hnew & Hrecov).
  cbn [entries_written] in Hrecov. change (1 =? 3) with false in Hrecov.
  exists st_r. split; [exact Hnew|exact Hrecov].
Defined.

Lemma appended_segments_well_formed_witness :
  Forall (λ e, entry_fits example_hash example_alloc_fits e = true) seven_entries
  ∧ segments_ordered (existing_changelogs seven_appended)
  ∧ paths_distinct (existing_changelogs seven_appended)
  ∧ segments_named "/d" (existing_changelogs seven_appended)
  ∧ ∀ k d, existing_changelogs seven_appended !! k = Some d →
      to_log_idx d = k + 3 - 1 ∧ disk seven_appended !! path d ≠ None.
Proof.
  split; [exact seven_entries_fit|].
  destruct (appended_segments_well_formed example_hash example_alloc_fits "/d" 3 true 1
              ltac:(lia) (or_intror eq_refl) 0 seven_entries
              (or_introl eq_refl) seven_entries_fit ltac:(vm_compute; reflexivity))
    as (st_n & Hrun & Hwf).
  rewrite seven_appended_run in Hrun. apply Done_state_inj in Hrun. subst st_n. exact Hwf.
Defined.

Lemma getLastEntry_after_appends_witness :
  Forall (λ e, is_Some (get_buf_ptr e)) seven_entries
  ∧ getNextEntryIndex seven_appended = Done 8 seven_appended
  ∧ getLastEntry seven_appended = Done (example_entry 12) seven_appended.
Proof.
  split; [exact seven_entries_have_buffers|].
  destruct (getLastEntry_after_appends example_hash example_alloc_fits "/d" 3 true
              ltac:(lia) 0 seven_entries (or_introl eq_refl) seven_entries_have_buffers
              ltac:(vm_compute; reflexivity))
    as (st_n & Hrun & Hnext & Hlast & _).
  rewrite seven_appended_run in Hrun. apply Done_state_inj in Hrun. subst st_n.
  split; [exact Hnext|exact Hlast].
Defined.

Lemma seven_appended_last_file :
  disk seven_appended !! "/d/changelog_7_9.bin" = Some last_segment_content.
Proof. vm_compute. reflexivity. Defined.

Lemma restart_after_torn_write_witness :
  Forall (λ e, entry_fits example_hash example_alloc_fits e = true) seven_entries
  ∧ entry_fits example_hash example_alloc_fits (example_entry 13) = true
  ∧ 0 < 10 < record_size (example_entry 13)
  ∧ three_files ≡ₚ (λ kd : Z * ChangelogFileDescription, path kd.2)
                     <$> items_asc (existing_changelogs seven_appended)
  ∧ ∃ st_r,
      Changelog_new "/d" 3 three_files
        (<["/d/changelog_7_9.bin"
           := last_segment_content
              ++ take (Z.to_nat 10)
                   (encode_record (buildRecord example_hash 8 (example_entry 13)))]>
           (disk seven_appended))
      = inr st_r
      ∧ readChangelogAndInitWriter example_hash example_alloc_fits 1 st_r
        = Done tt (writer_reopened seven_appended).
Proof.
  assert (He : entry_fits example_hash example_alloc_fits (example_entry 13) = true)
    by (vm_compute; reflexivity).
  assert (Hcut : 0 < 10 < record_size (example_entry 13)) by (vm_compute; split; reflexivity).
  split; [exact seven_entries_fit|]. split; [exact He|]. split; [exact Hcut|].
  split; [exact seven_appended_files_listed|].
  destruct (restart_after_torn_write example_hash example_alloc_fits "/d" 3 true 1
              ltac:(lia) (or_intror eq_refl) 0 seven_entries (example_entry 13) 10 three_files
              (or_introl eq_refl) seven_entries_fit He ltac:(vm_compute; reflexivity) Hcut)
    as (st_n & w_n & st_w & w & content & Hrun & Hwn & Hstw & Hw & Hc & Hrec).
  rewrite seven_appended_run in Hrun. apply Done_state_inj in Hrun. subst st_n.
  rewrite seven_appended_writer in Hwn. injection Hwn as <-.
  assert (Hri : rotate_interval seven_appended = 3) by (vm_compute; reflexivity).
  rewrite Hri in Hstw. cbn [entries_written] in Hstw.
  change (1 =? 3) with false in Hstw. apply Done_state_inj in Hstw. subst st_w.
  rewrite seven_appended_writer in Hw. injection Hw as <-.
  cbn [filepath] in Hc, Hrec.
  rewrite seven_appended_last_file in Hc. apply (inj Some) in Hc. subst content.
  exact (Hrec seven_appended_files_listed).
Defined.

(** A serialiser that [example_deserialize] inverts: the term in eight
    bytes, the value type in one, then the buffer. *)
Definition example_serialize (e : log_entry) : list Byte.byte :=
  le_encode 8 (get_term e) ++ le_encode 1 (get_val_type e) ++ default [] (get_buf_ptr e).

(** The changelog after the first four of the seven appends. *)
Definition four_appended : Changelog :=
  state_of (append_all example_hash 1 (take 4 seven_entries) true recovered_state).

Lemma four_appended_free j :
  5 ≤ j → logs four_appended !! j = None ∧ index_to_start_pos four_appended !! j = None.
Proof.
  intros Hj.
  assert (Hl : keys_asc (logs four_appended) = [1; 2; 3; 4]) by (vm_compute; reflexivity).
  assert (Ho : keys_asc (index_to_start_pos four_appended) = [1; 2; 3; 4])
    by (vm_compute; reflexivity).
  split; apply eq_None_not_Some; intros Hs%elem_of_keys_asc;
    rewrite ?Hl, ?Ho in Hs;
    repeat (apply elem_of_cons in Hs as [Hs|Hs]; [lia|]); by apply elem_of_nil in Hs.
Defined.

Lemma serialize_then_apply_witness :
  (λ j, logs seven_appended !! j) <$> seqZ 5 3 = Some <$> drop 4 seven_entries
  ∧ Forall (entry_serializable example_alloc_fits example_deserialize example_serialize)
      (drop 4 seven_entries)
  ∧ is_Some (current_writer four_appended)
  ∧ ∃ out st2',
      serializeEntriesToBuffer example_alloc_fits example_serialize 5 3 seven_appended
      = Done (Buffer (Z.of_nat (length out)) out) seven_appended
      ∧ applyEntriesFromBuffer example_hash example_alloc_fits example_deserialize
          5 out true four_appended
        = Done tt st2'
      ∧ ∀ j, logs st2' !! j
             = if decide (5 ≤ j < 5 + 3) then logs seven_appended !! j
               else logs four_appended !! j.
Proof.
  assert (Hlogs : (λ j, logs seven_appended !! j) <$> seqZ 5 3
                  = Some <$> drop 4 seven_entries) by (vm_compute; reflexivity).
  assert (Hser : Forall (entry_serializable example_alloc_fits example_deserialize
                           example_serialize) (drop 4 seven_entries)).
  { repeat (constructor;
            [split; [vm_compute; eauto|]; split; [vm_compute; reflexivity|];
             split; vm_compute; reflexivity|]).
    constructor. }
  assert (Hw : is_Some (current_writer four_appended)) by (vm_compute; eauto).
  split; [exact Hlogs|]. split; [exact Hser|]. split; [exact Hw|].
  apply (serialize_then_apply example_hash example_alloc_fits example_deserialize
           example_serialize seven_appended 5 (drop 4 seven_entries) four_appended true).
  - lia.
  - vm_compute. reflexivity.
  - exact Hlogs.
  - exact Hser.
  - vm_compute. reflexivity.
  - vm_compute. reflexivity.
  - exact Hw.
  - exact four_appended_free.
Defined.

Lemma overwrite_across_segments_writer_witness :
  Forall (λ e, is_Some (get_buf_ptr e)) seven_entries
  ∧ ∃ st',
      writeAt example_hash 2 (example_entry 99) true seven_appended = Done tt st'
      ∧ (∀ j, is_Some (logs st' !! j) ↔ 1 ≤ j ≤ 2)
      ∧ current_writer st'
        = Some (Writer "/d/changelog_1_3.bin" 45 (2 ^ 64 - 2) 4).
Proof.
  split; [exact seven_entries_have_buffers|].
  destruct (overwrite_across_segments_writer example_hash example_alloc_fits "/d" 3 true
              ltac:(lia) 0 seven_entries 2 (example_entry 99)
              (or_introl eq_refl) seven_entries_have_buffers
              ltac:(vm_compute; eauto) ltac:(vm_compute; split; reflexivity) ltac:(lia))
    as (st_n & st' & Hrun & Hwrite & Hkeys & Hw & _).
  rewrite seven_appended_run in Hrun. apply Done_state_inj in Hrun. subst st_n.
  exists st'. split; [exact Hwrite|]. split; [exact Hkeys|].
  rewrite Hw. vm_compute. reflexivity.
Defined.

(** Eight entries, the seven above and one more of term 13, appended in
    the directory [/d] with rotate interval 3. *)
Definition eight_entries : list log_entry := seven_entries ++ [example_entry 13].

Definition eight_appended : Changelog :=
  state_of (append_all example_hash 1 eight_entries true recovered_state).

Lemma eight_appended_run :
  (readChangelogAndInitWriter example_hash example_alloc_fits 0;;
   append_all example_hash 1 eight_entries true) (new_Changelog "/d" 3)
  = Done tt eight_appended.
Proof. vm_compute. reflexivity. Defined.

Lemma eight_appended_writer :
  current_writer eight_appended = Some (Writer "/d/changelog_7_9.bin" 90 2 7).
Proof. vm_compute. reflexivity. Defined.

(** The changelog after the appends of the first six of the eight entries
    and of one entry of term 99. *)
Definition seven_rewound : Changelog :=
  state_of (append_all example_hash 1
              (take (Z.to_nat (7 - 1)) eight_entries ++ [example_entry 99]) true
              recovered_state).

Lemma seven_rewound_run :
  (readChangelogAndInitWriter example_hash example_alloc_fits 0;;
   append_all example_hash 1
     (take (Z.to_nat (7 - 1)) eight_entries ++ [example_entry 99]) true)
    (new_Changelog "/d" 3)
  = Done tt seven_rewound.
Proof. vm_compute. reflexivity. Defined.

Lemma overwrite_in_writer_segment_witness :
  Forall (λ e, entry_fits example_hash example_alloc_fits e = true) eight_entries
  ∧ entry_fits example_hash example_alloc_fits (example_entry 99) = true
  ∧ current_writer eight_appended = Some (Writer "/d/changelog_7_9.bin" 90 2 7)
  ∧ file_size (disk eight_appended) "/d/changelog_7_9.bin" = 90
  ∧ index_to_start_pos seven_rewound !! 7 = Some 0
  ∧ current_writer seven_rewound = Some (Writer "/d/changelog_7_9.bin" 45 1 7)
  ∧ ∃ st',
      writeAt example_hash 7 (example_entry 99) true eight_appended = Done tt st'
      ∧ st' = overwritten 7 90 135 seven_rewound
      ∧ index_to_start_pos st' !! 7 = Some 90
      ∧ current_writer st' = Some (Writer "/d/changelog_7_9.bin" 135 1 7)
      ∧ file_size (disk st') "/d/changelog_7_9.bin" = 45.
Proof.
  assert (Hfit : Forall (λ e, entry_fits example_hash example_alloc_fits e = true)
                   eight_entries).
  { repeat (constructor; [vm_compute; reflexivity|]). constructor. }
  assert (He : entry_fits example_hash example_alloc_fits (example_entry 99) = true)
    by (vm_compute; reflexivity).
  split; [exact Hfit|]. split; [exact He|]. split; [exact eight_appended_writer|].
  split; [vm_compute; reflexivity|]. split; [vm_compute; reflexivity|].
  split; [vm_compute; reflexivity|].
  destruct (overwrite_in_writer_segment example_hash example_alloc_fits "/d" 3 true 1
              ltac:(lia) (or_intror eq_refl) 0 eight_entries 7 (example_entry 99)
              (or_introl eq_refl) Hfit He ltac:(vm_compute; reflexivity)
              ltac:(vm_compute; split; discriminate))
    as (st_n & w & Hrun & Hw & _ & Hov).
  rewrite eight_appended_run in Hrun. apply Done_state_inj in Hrun. subst st_n.
  rewrite eight_appended_writer in Hw. apply (inj Some) in Hw. subst w.
  destruct Hov as (st' & st_a & offset_a & Hwrite & Hrun_a & Heq & _);
    [cbn [w_start_index]; lia|].
  rewrite seven_rewound_run in Hrun_a. apply Done_state_inj in Hrun_a. subst st_a.
  cbn [plain_buf_count] in Heq.
  assert (Hlen : Z.of_nat (length (encode_record (buildRecord example_hash 7 (example_entry 99))))
                 = 45) by (vm_compute; reflexivity).
  rewrite Hlen in Heq. change (90 + 45) with 135 in Heq.
  exists st'. split; [exact Hwrite|]. split; [exact Heq|].
  rewrite Heq. split; [vm_compute; reflexivity|].
  split; vm_compute; reflexivity.
Defined.
